(** * cryojax: voxel potentials and [map_coordinates]

    A shallow embedding of
      - [cryojax/simulator/_potential/_voxel_potential.py]
      - [cryojax/image/_map_coordinates.py]
    and the properties of these two modules.

    Conventions of the embedding.
      - A JAX array is a record of its [shape] and its row-major buffer
        [data]; every operation of [jax.numpy] used by the sources is
        written out on that record.
      - Floating-point scalars are idealised as exact rationals ([Qc],
        canonical rationals with Leibniz equality); the Gaussian rasteriser,
        which needs [exp] and [pi], is stated over the real numbers.
      - A Python exception is a value of [exn]; a function that may raise
        returns a [result]. *)

From Stdlib Require Import String.
From Stdlib Require Import Reals Psatz.
From Stdlib Require Import ZArith QArith Qcanon Qround Qcabs Lia Bool Arith List.
Import ListNotations.

Set Implicit Arguments.

Close Scope R_scope.
Close Scope Qc_scope.
Close Scope Q_scope.
Open Scope nat_scope.

(* ================================================================== *)
(** * Part I: definitions                                              *)
(* ================================================================== *)

(** ** Exceptions *)

(** The exception classes the two modules can raise.  [ValueError] and
    [NotImplementedError] are raised by the sources themselves;
    [TypeError] stands for the errors of the library calls they make
    ([functools.reduce] on an empty sequence, [jnp.full] with a negative
    extent). *)
Inductive exn : Type :=
| ValueError
| NotImplementedError
| TypeError.

Inductive result (A : Type) : Type :=
| Ok (a : A)
| Raise (e : exn).

Arguments Ok {A} a.
Arguments Raise {A} e.

Definition bind {A B : Type} (r : result A) (k : A -> result B) : result B :=
  match r with
  | Ok a => k a
  | Raise e => Raise e
  end.

Notation "x <- r ;; k" := (bind r (fun x => k))
  (at level 61, r at next level, right associativity).

(** ** Arrays *)

Record ndarray (A : Type) : Type := mk_ndarray {
  shape : list nat;
  data : list A
}.

Arguments mk_ndarray {A} shape data.

(** Number of elements of an array of a given shape. *)
Definition size (sh : list nat) : nat := fold_right Nat.mul 1 sh.

Definition ndim {A} (x : ndarray A) : nat := length (shape x).

(** The buffer has as many elements as the shape says. *)
Definition wf {A} (x : ndarray A) : Prop := length (data x) = size (shape x).

(** Row-major position of a multi-index. *)
Fixpoint ravel (sh idx : list nat) : nat :=
  match sh, idx with
  | _ :: sh', i :: idx' => i * size sh' + ravel sh' idx'
  | _, _ => 0
  end.

Fixpoint in_bounds (sh idx : list nat) : bool :=
  match sh, idx with
  | [], [] => true
  | n :: sh', i :: idx' => (i <? n) && in_bounds sh' idx'
  | _, _ => false
  end.

(** Element types come with a value that stands for "no element"; it is
    what a read outside the buffer returns in this model, and no property
    below depends on it. *)
Class Default (A : Type) : Type := default : A.

#[export] Instance Default_nat : Default nat := 0.
#[export] Instance Default_Z : Default Z := 0%Z.
#[export] Instance Default_Qc : Default Qc := 0%Qc.
#[export] Instance Default_R : Default R := 0%R.
#[export] Instance Default_bool : Default bool := false.
#[export] Instance Default_prod {A B} `{Default A} `{Default B} : Default (A * B) :=
  (default, default).
#[export] Instance Default_list {A} : Default (list A) := [].

(** [x[idx]] for an in-range multi-index. *)
Definition get {A} `{Default A} (x : ndarray A) (idx : list nat) : A :=
  nth (ravel (shape x) idx) (data x) default.

(** All multi-indices of a shape, in row-major order. *)
Fixpoint indices (sh : list nat) : list (list nat) :=
  match sh with
  | [] => [[]]
  | n :: sh' => flat_map (fun i => map (cons i) (indices sh')) (seq 0 n)
  end.

(** The array of shape [sh] whose element at [idx] is [f idx]. *)
Definition tabulate {A} (sh : list nat) (f : list nat -> A) : ndarray A :=
  mk_ndarray sh (map f (indices sh)).

(** Element-wise application ([jnp] unary functions, scalar broadcasting). *)
Definition amap {A B} (f : A -> B) (x : ndarray A) : ndarray B :=
  mk_ndarray (shape x) (map f (data x)).

Fixpoint zip_with {A B C} (f : A -> B -> C) (l : list A) (m : list B) : list C :=
  match l, m with
  | a :: l', b :: m' => f a b :: zip_with f l' m'
  | _, _ => []
  end.

(** Element-wise binary operation on two arrays of one shape. *)
Definition azip {A B C} (f : A -> B -> C) (x : ndarray A) (y : ndarray B) : ndarray C :=
  mk_ndarray (shape x) (zip_with f (data x) (data y)).

(** [jnp.zeros(sh)] and friends. *)
Definition full {A} (sh : list nat) (a : A) : ndarray A :=
  mk_ndarray sh (repeat a (size sh)).

(** Position of [m] in [axes] ([length axes] when absent). *)
Fixpoint index_of (m : nat) (axes : list nat) : nat :=
  match axes with
  | [] => 0
  | a :: axes' => if Nat.eqb a m then 0 else S (index_of m axes')
  end.

(** [jnp.transpose(x, axes)]: axis [k] of the result is axis [axes[k]] of
    [x], so [result[idx] = x[src]] with [src[axes[k]] = idx[k]]. *)
Definition permute_shape (axes sh : list nat) : list nat :=
  map (fun a => nth a sh 0) axes.

Definition source_index (axes idx : list nat) : list nat :=
  map (fun m => nth (index_of m axes) idx 0) (seq 0 (length axes)).

Definition transpose {A} `{Default A} (x : ndarray A) (axes : list nat) : ndarray A :=
  tabulate (permute_shape axes (shape x)) (fun idx => get x (source_index axes idx)).

(** ** Scalars *)

(** The element types of the arrays: real scalars are [Qc], complex scalars
    are pairs of them.  [of_Qc] embeds the real constants of the sources
    ([1 / 6], [2], [4], [1.0]) into the element type (the [dtype] of the
    data). *)
Class Scalar (F : Type) : Type := {
  sadd : F -> F -> F;
  ssub : F -> F -> F;
  smul : F -> F -> F;
  sdiv : F -> F -> F;
  of_Qc : Qc -> F
}.

#[export] Instance Scalar_Qc : Scalar Qc := {
  sadd := Qcplus;
  ssub := Qcminus;
  smul := Qcmult;
  sdiv := Qcdiv;
  of_Qc := fun q => q
}.

Definition complex : Type := (Qc * Qc)%type.

Definition cadd (x y : complex) : complex := (fst x + fst y, snd x + snd y)%Qc.
Definition csub (x y : complex) : complex := (fst x - fst y, snd x - snd y)%Qc.
Definition cmul (x y : complex) : complex :=
  (fst x * fst y - snd x * snd y, fst x * snd y + snd x * fst y)%Qc.
Definition cdiv (x y : complex) : complex :=
  let n := (fst y * fst y + snd y * snd y)%Qc in
  ((fst x * fst y + snd x * snd y) / n, (snd x * fst y - fst x * snd y) / n)%Qc.

#[export] Instance Scalar_complex : Scalar complex := {
  sadd := cadd;
  ssub := csub;
  smul := cmul;
  sdiv := cdiv;
  of_Qc := fun q => (q, 0%Qc)
}.

(** Rational constants. *)
Definition q_of_Z (z : Z) : Qc := Q2Qc (inject_Z z).
Definition q_of_nat (n : nat) : Qc := q_of_Z (Z.of_nat n).
Definition q_frac (a : Z) (b : positive) : Qc := Q2Qc (a # b).

(** [jnp.floor] followed by a cast to an integer type. *)
Definition floorZ (q : Qc) : Z := Qfloor (this q).

(** [lax.round] (its default rounds half away from zero), as an integer. *)
Definition roundZ (q : Qc) : Z :=
  if Qle_bool 0 (this q) then Qfloor (this q + (1 # 2))
  else (- Qfloor ((- this q) + (1 # 2)))%Z.

(** Python's [int(x)] on a float: truncation toward zero. *)
Definition py_int (q : Qc) : Z := Z.quot (Qnum (this q)) (Zpos (Qden (this q))).

(** ** Python and [jnp] indexing of one-dimensional data *)

(** [l[i]] with Python's negative indices. *)
Definition item {A} `{Default A} (l : list A) (i : Z) : A :=
  if (i <? 0)%Z then nth (Z.to_nat (Z.of_nat (length l) + i)) l default
  else nth (Z.to_nat i) l default.

(** [l[1:-1]]. *)
Definition interior {A} (l : list A) : list A := removelast (tl l).

Fixpoint replace_nth {A} (n : nat) (v : A) (l : list A) : list A :=
  match l, n with
  | [], _ => []
  | _ :: l', 0 => v :: l'
  | a :: l', S n' => a :: replace_nth n' v l'
  end.

(** [l.at[i].set(v)]: negative indices count from the end, an update out
    of range is dropped. *)
Definition at_set {A} (l : list A) (i : Z) (v : A) : list A :=
  let j := if (i <? 0)%Z then (Z.of_nat (length l) + i)%Z else i in
  if (j <? 0)%Z then l else replace_nth (Z.to_nat j) v l.

(** [a <= b] on rationals, as a boolean. *)
Definition qle (a b : Qc) : bool := Qle_bool (this a) (this b).
Definition qlt (a b : Qc) : bool := negb (qle b a).

(** ** Gather with a boundary mode: [x.at[idx].get(mode=..., fill_value=...)] *)

(** The boundary modes of a JAX gather with a defined result out of
    range: ["fill"] (also spelled ["drop"]) and ["clip"]. *)
Inductive gather_mode : Type :=
| Fill
| Clip.

(** A negative index counts from the end of its axis. *)
Definition normalize_index (n : nat) (i : Z) : Z :=
  if (i <? 0)%Z then (i + Z.of_nat n)%Z else i.

Definition resolve_axis (mode : gather_mode) (n : nat) (i : Z) : option nat :=
  let j := normalize_index n i in
  match mode with
  | Fill => if ((0 <=? j)%Z && (j <? Z.of_nat n)%Z)%bool then Some (Z.to_nat j) else None
  | Clip => Some (Z.to_nat (Z.max 0 (Z.min j (Z.of_nat n - 1))))
  end.

Fixpoint resolve (mode : gather_mode) (sh : list nat) (idx : list Z) : option (list nat) :=
  match sh, idx with
  | [], [] => Some []
  | n :: sh', i :: idx' =>
      match resolve_axis mode n i, resolve mode sh' idx' with
      | Some j, Some js => Some (j :: js)
      | _, _ => None
      end
  | _, _ => None
  end.

(** One gathered element. *)
Definition gather_point {A} `{Default A} (x : ndarray A) (idx : list Z)
    (mode : gather_mode) (fill_value : A) : A :=
  match resolve mode (shape x) idx with
  | Some js => get x js
  | None => fill_value
  end.

(** [x.at[index_like].get(mode, fill_value)] for a tuple of index arrays
    of one shape, one per axis of [x]: the result has the shape of the
    index arrays.  With the empty tuple the result is [x]. *)
Definition at_get {A} `{Default A} (x : ndarray A) (index_like : list (ndarray Z))
    (mode : gather_mode) (fill_value : A) : ndarray A :=
  match index_like with
  | [] => x
  | i0 :: _ =>
      mk_ndarray (shape i0)
        (map (fun p => gather_point x (map (fun ia => nth p (data ia) 0%Z) index_like)
                         mode fill_value)
             (seq 0 (length (data i0))))
  end.

(** ** [jax.vmap] over one axis *)

Definition insert_at {A} (ax : nat) (v : A) (l : list A) : list A :=
  firstn ax l ++ v :: skipn ax l.

Definition remove_at {A} (ax : nat) (l : list A) : list A :=
  firstn ax l ++ skipn (S ax) l.

(** [x] with axis [ax] fixed at [i]. *)
Definition slice_axis {A} `{Default A} (ax i : nat) (x : ndarray A) : ndarray A :=
  tabulate (remove_at ax (shape x)) (fun idx => get x (insert_at ax i idx)).

(** [vmap(fn, ax, ax)(x)]: [fn] is applied to every slice of [x] along
    axis [ax] and the results are stacked along axis [ax].  The shape of
    the result is known from the shape of one application (tracing). *)
Definition vmap {A} `{Default A} (fn : ndarray A -> ndarray A) (ax : nat)
    (x : ndarray A) : ndarray A :=
  tabulate (insert_at ax (nth ax (shape x) 0) (shape (fn (slice_axis ax 0 x))))
    (fun idx => get (fn (slice_axis ax (nth ax idx 0) x)) (remove_at ax idx)).

(** ** [cryojax/image/_map_coordinates.py] *)

(** [functools.reduce(f, seq)] without an initial value: a [TypeError] on
    the empty sequence. *)
Definition reduce {A} (f : A -> A -> result A) (l : list A) : result A :=
  match l with
  | [] => Raise TypeError
  | a :: l' => fold_left (fun acc b => x <- acc ;; f x b) l' (Ok a)
  end.

(** [itertools.product] of the lists [ls]. *)
Fixpoint product {A} (ls : list (list A)) : list (list A) :=
  match ls with
  | [] => [[]]
  | l :: ls' => flat_map (fun a => map (cons a) (product ls')) l
  end.

(** Run a fallible function over a list, left to right. *)
Fixpoint traverse {A B} (f : A -> result B) (l : list A) : result (list B) :=
  match l with
  | [] => Ok []
  | a :: l' => b <- f a ;; bs <- traverse f l' ;; Ok (b :: bs)
  end.

(** The weight of an interpolation node: a scalar (order 0), an array
    of the coordinates' shape (order 1) or [None] (order 3). *)
Inductive weight : Type :=
| Scalar_w (w : Qc)
| Array_w (w : ndarray Qc)
| None_w.

(** The first component of an interpolation node: an integer index array
    (orders 0 and 1) or the coordinate array itself (order 3). *)
Inductive index_like : Type :=
| Int_index (i : ndarray Z)
| Coord_index (c : ndarray Qc).

(** [operator.mul] on weights, with scalar broadcasting. *)
Definition mul_w (a b : weight) : result weight :=
  match a, b with
  | Scalar_w x, Scalar_w y => Ok (Scalar_w (x * y)%Qc)
  | Scalar_w x, Array_w y => Ok (Array_w (amap (fun v => x * v)%Qc y))
  | Array_w x, Scalar_w y => Ok (Array_w (amap (fun v => v * y)%Qc x))
  | Array_w x, Array_w y => Ok (Array_w (azip Qcmult x y))
  | _, _ => Raise TypeError
  end.

(** [w * contribution]. *)
Definition mul_contribution (w : weight) (c : ndarray Qc) : result (ndarray Qc) :=
  match w with
  | Scalar_w x => Ok (amap (fun v => x * v)%Qc c)
  | Array_w x => Ok (azip Qcmult x c)
  | None_w => Raise TypeError
  end.

Definition _nonempty_prod (arrs : list weight) : result weight :=
  reduce mul_w arrs.

Definition _nonempty_sum (arrs : list (ndarray Qc)) : result (ndarray Qc) :=
  reduce (fun a b => Ok (azip Qcplus a b)) arrs.

(** On a floating array this is [lax.round]. *)
Definition _round_half_away_from_zero (a : ndarray Qc) : ndarray Z :=
  amap roundZ a.

Definition _nearest_indices_and_weights (coordinate : ndarray Qc)
    : list (index_like * weight) :=
  let index := _round_half_away_from_zero coordinate in
  let weight := 1%Qc in
  [(Int_index index, Scalar_w weight)].

Definition _linear_indices_and_weights (coordinate : ndarray Qc)
    : list (index_like * weight) :=
  let lower := amap (fun c => q_of_Z (floorZ c)) coordinate in
  let upper_weight := azip Qcminus coordinate lower in
  let lower_weight := amap (fun u => 1 - u)%Qc upper_weight in
  let index := amap floorZ lower in
  [(Int_index index, Array_w lower_weight);
   (Int_index (amap (fun i => i + 1)%Z index), Array_w upper_weight)].

Definition _cubic_indices_and_weights (coordinate : ndarray Qc)
    : list (index_like * weight) :=
  [(Coord_index coordinate, None_w)].

(** A tridiagonal operator of [lineax], by its three diagonals. *)
Record TridiagonalLinearOperator (F : Type) : Type := mk_tridiagonal {
  diagonal : list F;
  lower_diagonal : list F;
  upper_diagonal : list F
}.

Section SplineCoefficients.

Context {F : Type} `{Scalar F} `{Default F}.

(** [jnp.full] rejects a negative extent, so [n] and [n - 1] must both
    be non-negative. *)
Definition _build_operator (n : Z) : result (TridiagonalLinearOperator F) :=
  let diag_value := of_Qc (q_of_Z 4) in
  if (n - 1 <? 0)%Z then Raise TypeError
  else
    let diagonal := repeat diag_value (Z.to_nat n) in
    let lower_diagonal := repeat (of_Qc 1%Qc) (Z.to_nat (n - 1)) in
    let upper_diagonal := repeat (of_Qc 1%Qc) (Z.to_nat (n - 1)) in
    Ok (mk_tridiagonal diagonal lower_diagonal upper_diagonal).

Definition _construct_vector (data : list F) (c2 cnp2 : F) : list F :=
  let yvec := interior data in
  let first := ssub (item data 1) c2 in
  let last := ssub (item data (-2)) cnp2 in
  let yvec := at_set yvec 0 first in
  let yvec := at_set yvec (-1) last in
  yvec.

(** Elimination on the rows [(l, b, u, y)] of a tridiagonal system, the
    row above having been reduced to [x_prev = dp - cp * x]: the forward
    sweep goes down the list, the back substitution comes up. *)
Fixpoint thomas (cp dp : F) (rows : list (F * F * F * F)) : list F :=
  match rows with
  | [] => []
  | (l, b, u, y) :: rest =>
      let den := ssub b (smul l cp) in
      let c := sdiv u den in
      let d := sdiv (ssub y (smul l dp)) den in
      match thomas c d rest with
      | [] => [d]
      | x1 :: xs => ssub d (smul c x1) :: x1 :: xs
      end
  end.

Fixpoint rows_of (ls bs us ys : list F) : list (F * F * F * F) :=
  match ls, bs, us, ys with
  | l :: ls', b :: bs', u :: us', y :: ys' => (l, b, u, y) :: rows_of ls' bs' us' ys'
  | _, _, _, _ => []
  end.

(** [lineax.linear_solve(operator, vector).value] for a tridiagonal
    operator.  The routine belongs to an external library; it returns the
    solution of the tridiagonal system, computed here by the Thomas
    elimination that [lineax] selects for a tridiagonal operator.  The
    first row has no lower entry and the last row no upper entry. *)
Definition linear_solve (operator : TridiagonalLinearOperator F) (vector : list F) : list F :=
  let zero := of_Qc 0%Qc in
  thomas zero zero
    (rows_of (zero :: lower_diagonal operator) (diagonal operator)
             (upper_diagonal operator ++ [zero]) vector).

Definition _solve_coefficients (data : list F) (operator : TridiagonalLinearOperator F)
    : list F :=
  let sixth := of_Qc (q_frac 1 6) in
  let two := of_Qc (q_of_Z 2) in
  let c2 := smul sixth (item data 0) in
  let cnp2 := smul sixth (item data (-1)) in
  let yvec := _construct_vector data c2 cnp2 in
  let cs := linear_solve operator yvec in
  let c1 := ssub (smul two c2) (item cs 0) in
  let cnp3 := ssub (smul two cnp2) (item cs (-1)) in
  [c1; c2] ++ cs ++ [cnp2; cnp3].

(** A function on one-dimensional data, as a function on arrays. *)
Definition on_vector (f : list F -> list F) (x : ndarray F) : ndarray F :=
  let y := f (data x) in mk_ndarray [length y] y.

(** One turn of the loop over [i] of [_spline_coefficients]. *)
Definition _spline_coefficients_axis (ndim : nat) (data : ndarray F) (i : nat)
    : result (ndarray F) :=
  let axis := ndim - i - 1 in
  A <- _build_operator (Z.of_nat (nth axis (shape data) 0) - 2) ;;
  let fn := on_vector (fun x => _solve_coefficients x A) in
  let fn :=
    fold_left (fun fn j => let ax := if axis <=? j then 1 else 0 in vmap fn ax)
              (rev (seq 0 (ndim - 1))) fn in
  Ok (fn data).

Definition _spline_coefficients (data : ndarray F) : result (ndarray F) :=
  let ndim := ndim data in
  fold_left (fun acc i => data <- acc ;; _spline_coefficients_axis ndim data i)
            (seq 0 ndim) (Ok data).

End SplineCoefficients.

(** [jnp.sum] and [jnp.prod] of one-dimensional data. *)
Definition qsum (l : list Qc) : Qc := fold_left Qcplus l 0%Qc.
Definition qprod (l : list Qc) : Qc := fold_left Qcmult l 1%Qc.

Definition _spline_basis (t : Qc) : Qc :=
  let at_ := Qcabs t in
  let fn1 := fun t : Qc => ((q_of_Z 2 - t) ^ 3)%Qc in
  let fn2 := fun t : Qc => (q_of_Z 4 - q_of_Z 6 * t ^ 2 + q_of_Z 3 * t ^ 3)%Qc in
  if qle 1%Qc at_ then (if qle at_ (q_of_Z 2) then fn1 at_ else 0%Qc)
  else (if qle at_ 1%Qc then fn2 at_ else 0%Qc).

Definition _spline_value (coefficients : ndarray Qc) (coordinate : list Qc)
    (index : list Z) (mode : gather_mode) (cval : Qc) : Qc :=
  let coefficient := gather_point coefficients index mode cval in
  let fn := zip_with (fun x i => _spline_basis (x - q_of_Z i + 1)%Qc) in
  (coefficient * qprod (fn coordinate index))%Qc.

(** [coordinate] is one point, a coordinate per axis.  The rows of
    [indices.reshape(ndim, -1).T] are the index tuples of the mesh grid in
    row-major order, that is the product of the per-axis index lists. *)
Definition _spline_point (coefficients : ndarray Qc) (coordinate : list Qc)
    (mode : gather_mode) (cval : Qc) : Qc :=
  let index_fn := fun x : Qc => map (fun k => (k + floorZ x)%Z) [0; 1; 2; 3]%Z in
  let index_vals := map index_fn coordinate in
  let indices := product index_vals in
  let fn := fun index => _spline_value coefficients coordinate index mode cval in
  qsum (map fn indices).

(** The points of a tuple of coordinate arrays of one shape:
    [coordinates.reshape(input.ndim, -1).T]. *)
Definition points_of (coordinates : list (ndarray Qc)) : list (list Qc) :=
  match coordinates with
  | [] => []
  | c0 :: _ =>
      map (fun p => map (fun c => nth p (data c) 0%Qc) coordinates)
          (seq 0 (length (data c0)))
  end.

(** [coordinates] is the stacked tuple of coordinate arrays, kept as the
    list of its rows; the result has their shape
    ([coordinates.shape[1:]]).  The empty tuple cannot be reshaped to
    [(0, -1)]. *)
Definition _cubic_spline (input : ndarray Qc) (coordinates : list (ndarray Qc))
    (mode : gather_mode) (cval : Qc) : result (ndarray Qc) :=
  coefficients <- _spline_coefficients input ;;
  match coordinates with
  | [] => Raise TypeError
  | c0 :: _ =>
      let points := points_of coordinates in
      let fn := fun coord => _spline_point coefficients coord mode cval in
      Ok (mk_ndarray (shape c0) (map fn points))
  end.

(** [jax.util.unzip2]. *)
Definition unzip2 {A B} (xys : list (A * B)) : list A * list B := List.split xys.

(** An index array used to index must be of integer type. *)
Definition as_int_index (i : index_like) : result (ndarray Z) :=
  match i with
  | Int_index a => Ok a
  | Coord_index _ => Raise TypeError
  end.

(** [jnp.asarray] on the tuple of order-3 nodes, whose members are the
    coordinate arrays. *)
Definition as_coordinate (i : index_like) : ndarray Qc :=
  match i with
  | Int_index a => amap q_of_Z a
  | Coord_index c => c
  end.

(** The input is of a floating dtype: [jnp.issubdtype(input_arr.dtype,
    jnp.integer)] is false and the final [astype] changes nothing. *)
Definition _map_coordinates (input : ndarray Qc) (coordinates : list (ndarray Qc))
    (order : Z) (mode : gather_mode) (cval : Qc) : result (ndarray Qc) :=
  let input_arr := input in
  let coordinate_arrs := coordinates in
  if negb (length coordinates =? ndim input_arr) then Raise ValueError
  else
    interp_fun <-
      (if (order =? 0)%Z then Ok _nearest_indices_and_weights
       else if (order =? 1)%Z then Ok _linear_indices_and_weights
       else if (order =? 3)%Z then Ok _cubic_indices_and_weights
       else Raise NotImplementedError) ;;
    let interpolations_1d := map interp_fun coordinate_arrs in
    outputs <-
      traverse
        (fun items =>
           let (index_like, weights) := unzip2 items in
           if ((order =? 0)%Z || (order =? 1)%Z)%bool then
             index_arrays <- traverse as_int_index index_like ;;
             let contribution := at_get input_arr index_arrays mode cval in
             w <- _nonempty_prod weights ;;
             mul_contribution w contribution
           else
             let index_like := map as_coordinate index_like in
             _cubic_spline input_arr index_like mode cval)
        (product interpolations_1d) ;;
    _nonempty_sum outputs.

Definition map_coordinates (input : ndarray Qc) (coordinates : list (ndarray Qc))
    (order : Z) (mode : gather_mode) (cval : Qc) : result (ndarray Qc) :=
  _map_coordinates input coordinates order mode cval.

(** The defaults of [map_coordinates]: [mode="fill"], [cval=0.0]. *)
Definition default_mode : gather_mode := Fill.
Definition default_cval : Qc := 0%Qc.

(** ** Collaborators of [_voxel_potential.py] *)

(** [AbstractPose]: the one method the potentials call. *)
Class AbstractPose (P : Type) : Type :=
  rotate_coordinates : P -> ndarray Qc -> bool -> ndarray Qc.

(** A place in a tree of fields: how to read it and how to write it. *)
Record lens (T L : Type) : Type := mk_lens {
  view : T -> L;
  update : T -> L -> T
}.

Definition lens_compose {T U L} (outer : lens T U) (inner : lens U L) : lens T L :=
  mk_lens (fun t => view inner (view outer t))
          (fun t l => update outer t (update inner (view outer t) l)).

(** [eqx.tree_at(where, pytree, replace)]: a copy of [pytree] in which the
    node selected by [where] is [replace]. *)
Definition tree_at {T L} (where_ : lens T L) (pytree : T) (replace : L) : T :=
  update where_ pytree replace.

(** Modelled from the spec: the coordinate classes of [cryojax.coordinates]
    are not among the sources.  Spec 2 and 3: a coordinate system is a value
    object holding a numeric array, read by [get()]. *)
Module FrequencySlice.
Record t : Type := make { array : ndarray Qc }.
Definition get (self : t) : ndarray Qc := array self.
Definition array_ : lens t (ndarray Qc) := mk_lens array (fun _ a => make a).
End FrequencySlice.

Module CoordinateGrid.
Record t : Type := make { array : ndarray Qc }.
Definition get (self : t) : ndarray Qc := array self.
Definition array_ : lens t (ndarray Qc) := mk_lens array (fun _ a => make a).
End CoordinateGrid.

Module CoordinateList.
Record t : Type := make { array : ndarray Qc }.
Definition get (self : t) : ndarray Qc := array self.
Definition array_ : lens t (ndarray Qc) := mk_lens array (fun _ a => make a).
End CoordinateList.

(** [AbstractFilter]: a callable on the Fourier transform. *)
Definition AbstractFilter : Type := ndarray complex -> ndarray complex.

(** The helpers of [cryojax.image], [jnp.fft] and [cryojax.coordinates]
    that the factories call; they are not among the sources and are taken
    as parameters. *)
Class Collaborators : Type := {
  pad_to_shape : ndarray Qc -> list Z -> String.string -> ndarray Qc;
  crop_to_shape : ndarray Qc -> list Z -> ndarray Qc;
  fftn : ndarray Qc -> ndarray complex;
  fftshift : ndarray complex -> ndarray complex;
  new_FrequencySlice : list nat -> bool -> FrequencySlice.t;
  new_CoordinateGrid : list nat -> CoordinateGrid.t
}.

(** Modelled from the spec: [compute_spline_coefficients] of
    [cryojax.image] is not among the sources; spec 4.3 and 4.7 describe it
    as the coefficient solve of the cubic spline, which is
    [_spline_coefficients] above, here on complex data. *)
Definition compute_spline_coefficients (data : ndarray complex) : result (ndarray complex) :=
  _spline_coefficients data.

(** ** [cryojax/simulator/_potential/_voxel_potential.py] *)

Module AbstractFourierVoxelGrid.

(** What a concrete Fourier-space grid provides: its [__init__] and its
    [frequency_slice] attribute. *)
Class interface (Self : Type) : Type := {
  cls : ndarray complex -> FrequencySlice.t -> Qc -> result Self;
  frequency_slice_ : lens Self FrequencySlice.t
}.

Definition rotate_to_pose {Self P} `{interface Self} `{AbstractPose P}
    (self : Self) (pose : P) : Self :=
  tree_at (lens_compose frequency_slice_ FrequencySlice.array_)
    self
    (rotate_coordinates pose (FrequencySlice.get (view frequency_slice_ self)) true).

(** [tuple([int(s * pad_scale) for s in real_voxel_grid.shape])]. *)
Definition padded_shape (real_voxel_grid : ndarray Qc) (pad_scale : Qc) : list Z :=
  map (fun s => py_int (q_of_nat s * pad_scale)%Qc) (shape real_voxel_grid).

Definition from_real_voxel_grid {Self} `{interface Self} `{Collaborators}
    (real_voxel_grid : ndarray Qc) (voxel_size : Qc)
    (pad_scale : Qc) (pad_mode : String.string) (filter : option AbstractFilter)
    : result Self :=
  if qlt pad_scale 1%Qc then Raise ValueError
  else
    let padded_shape := padded_shape real_voxel_grid pad_scale in
    let padded_real_voxel_grid := pad_to_shape real_voxel_grid padded_shape pad_mode in
    let fourier_voxel_grid_with_zero_in_corner :=
      match filter with
      | None => fftn padded_real_voxel_grid
      | Some filter => filter (fftn padded_real_voxel_grid)
      end in
    let fourier_voxel_grid := fftshift fourier_voxel_grid_with_zero_in_corner in
    let frequency_slice :=
      new_FrequencySlice (removelast (shape padded_real_voxel_grid)) false in
    cls fourier_voxel_grid frequency_slice voxel_size.

(** The defaults of the keyword arguments. *)
Definition default_pad_scale : Qc := 1%Qc.
Definition default_pad_mode : String.string := "constant"%string.
Definition default_filter : option AbstractFilter := None.

End AbstractFourierVoxelGrid.

Module FourierVoxelGrid.

Record t : Type := make {
  fourier_voxel_grid : ndarray complex;
  frequency_slice : FrequencySlice.t;
  voxel_size : Qc
}.

Definition is_real : bool := false.

Definition __init__ (fourier_voxel_grid : ndarray complex)
    (frequency_slice : FrequencySlice.t) (voxel_size : Qc) : result t :=
  Ok (make fourier_voxel_grid frequency_slice voxel_size).

#[global] Instance interface : AbstractFourierVoxelGrid.interface t := {
  AbstractFourierVoxelGrid.cls := __init__;
  AbstractFourierVoxelGrid.frequency_slice_ :=
    mk_lens frequency_slice
      (fun d v => make (fourier_voxel_grid d) v (voxel_size d))
}.

Definition shape (self : t) : list nat := shape (fourier_voxel_grid self).

End FourierVoxelGrid.

Module FourierVoxelGridInterpolator.

Record t : Type := make {
  coefficients : ndarray complex;
  frequency_slice : FrequencySlice.t;
  voxel_size : Qc
}.

Definition is_real : bool := false.

Definition __init__ (fourier_voxel_grid : ndarray complex)
    (frequency_slice : FrequencySlice.t) (voxel_size : Qc) : result t :=
  coefficients <- compute_spline_coefficients fourier_voxel_grid ;;
  Ok (make coefficients frequency_slice voxel_size).

#[global] Instance interface : AbstractFourierVoxelGrid.interface t := {
  AbstractFourierVoxelGrid.cls := __init__;
  AbstractFourierVoxelGrid.frequency_slice_ :=
    mk_lens frequency_slice
      (fun d v => make (coefficients d) v (voxel_size d))
}.

(** [tuple([s - 2 for s in self.coefficients.shape])]. *)
Definition shape (self : t) : list Z :=
  map (fun s => (Z.of_nat s - 2)%Z) (shape (coefficients self)).

End FourierVoxelGridInterpolator.

(** [x.shape[-3:]]. *)
Definition last3 {A} (l : list A) : list A := skipn (length l - 3) l.

Module RealVoxelGrid.

Record t : Type := make {
  real_voxel_grid : ndarray Qc;
  coordinate_grid : CoordinateGrid.t;
  voxel_size : Qc
}.

Definition is_real : bool := true.

Definition __init__ (real_voxel_grid : ndarray Qc)
    (coordinate_grid : CoordinateGrid.t) (voxel_size : Qc) : t :=
  make real_voxel_grid coordinate_grid voxel_size.

Definition coordinate_grid_ : lens t CoordinateGrid.t :=
  mk_lens coordinate_grid (fun d v => make (real_voxel_grid d) v (voxel_size d)).

Definition rotate_to_pose {P} `{AbstractPose P} (self : t) (pose : P) : t :=
  tree_at (lens_compose coordinate_grid_ CoordinateGrid.array_)
    self
    (rotate_coordinates pose (CoordinateGrid.get (coordinate_grid self)) false).

Definition from_real_voxel_grid `{Collaborators}
    (real_voxel_grid : ndarray Qc) (voxel_size : Qc)
    (coordinate_grid : option CoordinateGrid.t) (crop_scale : option Qc)
    : result t :=
  let real_voxel_grid := transpose real_voxel_grid [1; 0; 2] in
  match coordinate_grid with
  | None =>
      real_voxel_grid <-
        match crop_scale with
        | Some crop_scale =>
            if qlt 1%Qc crop_scale then Raise ValueError
            else
              let cropped_shape :=
                map (fun s => py_int (q_of_nat s * crop_scale)%Qc)
                    (last3 (shape real_voxel_grid)) in
              Ok (crop_to_shape real_voxel_grid cropped_shape)
        | None => Ok real_voxel_grid
        end ;;
      let coordinate_grid := new_CoordinateGrid (last3 (shape real_voxel_grid)) in
      Ok (__init__ real_voxel_grid coordinate_grid voxel_size)
  | Some coordinate_grid =>
      Ok (__init__ real_voxel_grid coordinate_grid voxel_size)
  end.

Definition shape (self : t) : list nat := shape (real_voxel_grid self).

End RealVoxelGrid.

(** [jnp.isclose(a, b, rtol, atol)] on finite values. *)
Definition isclose (a b rtol atol : Qc) : bool :=
  qle (Qcabs (a - b)) (atol + rtol * Qcabs b)%Qc.

(** [jnp.where(mask)]: the positions where [mask] holds, in row-major
    order.  JAX returns one index array per axis; the list of index tuples
    kept here is the same data read by rows. *)
Definition where_ (mask : ndarray bool) : list (list nat) :=
  map snd (filter fst (combine (data mask) (indices (shape mask)))).

(** [x[nonzero]] for index tuples over the first [k] axes of [x]: one row
    per tuple, of the shape of the remaining axes. *)
Definition take {A} `{Default A} (k : nat) (x : ndarray A) (nonzero : list (list nat))
    : ndarray A :=
  let rest := skipn k (shape x) in
  mk_ndarray (length nonzero :: rest)
    (flat_map (fun idx => map (fun r => get x (idx ++ r)) (indices rest)) nonzero).

Module RealVoxelCloud.

Record t : Type := make {
  voxel_weights : ndarray Qc;
  coordinate_list : CoordinateList.t;
  voxel_size : Qc
}.

Definition is_real : bool := true.

Definition __init__ (voxel_weights : ndarray Qc)
    (coordinate_list : CoordinateList.t) (voxel_size : Qc) : t :=
  make voxel_weights coordinate_list voxel_size.

Definition coordinate_list_ : lens t CoordinateList.t :=
  mk_lens coordinate_list (fun d v => make (voxel_weights d) v (voxel_size d)).

Definition rotate_to_pose {P} `{AbstractPose P} (self : t) (pose : P) : t :=
  tree_at (lens_compose coordinate_list_ CoordinateList.array_)
    self
    (rotate_coordinates pose (CoordinateList.get (coordinate_list self)) false).

Definition default_rtol : Qc := q_frac 1 100000.
Definition default_atol : Qc := q_frac 1 100000000.

Definition from_real_voxel_grid `{Collaborators}
    (real_voxel_grid : ndarray Qc) (voxel_size : Qc)
    (coordinate_grid : option CoordinateGrid.t) (rtol atol : Qc) : t :=
  let real_voxel_grid := transpose real_voxel_grid [1; 0; 2] in
  let coordinate_grid :=
    match coordinate_grid with
    | None => new_CoordinateGrid (shape real_voxel_grid)
    | Some coordinate_grid => coordinate_grid
    end in
  let nonzero :=
    where_ (amap (fun v => negb (isclose v 0%Qc rtol atol)) real_voxel_grid) in
  let flat_potential := take (ndim real_voxel_grid) real_voxel_grid nonzero in
  let coordinate_list :=
    CoordinateList.make
      (take (ndim real_voxel_grid) (CoordinateGrid.get coordinate_grid) nonzero) in
  __init__ flat_potential coordinate_list voxel_size.

Definition shape (self : t) : list nat := shape (voxel_weights self).

End RealVoxelCloud.

(** ** Atom rasterisation (over the real numbers) *)

Definition rsum (l : list R) : R := fold_left Rplus l 0%R.

(** [x - v] with [v] broadcast along the last axis of [x]. *)
Definition sub_last_axis (x : ndarray R) (v : list R) : ndarray R :=
  tabulate (shape x) (fun idx => (get x idx - nth (last idx 0%nat) v 0)%R).

(** [jnp.sum(x, axis=-1)]. *)
Definition sum_last_axis (x : ndarray R) : ndarray R :=
  tabulate (removelast (shape x))
    (fun idx => rsum (map (fun c => get x (idx ++ [c])) (seq 0 (last (shape x) 0)))).

(** [jnp.sum(stack, axis=0)] for the stack of the arrays [l], each of
    shape [sh]. *)
Definition sum_axis0 (sh : list nat) (l : list (ndarray R)) : ndarray R :=
  fold_left (azip Rplus) l (full sh 0%R).

(** [x[i]] for a two-dimensional [x]: row [i]. *)
Definition row {A} (x : ndarray A) (i : nat) : list A :=
  let m := size (tl (shape x)) in firstn m (skipn (i * m) (data x)).

(** [jax.lax.fori_loop(lower, upper, body, init)]. *)
Definition fori_loop {S} (lower upper : nat) (body : nat -> S -> S) (init : S) : S :=
  fold_left (fun acc i => body i acc) (seq lower (upper - lower)) init.

Definition evaluate_3d_real_space_gaussian (coordinate_grid_in_angstroms : ndarray R)
    (atom_position : list R) (a b : R) : ndarray R :=
  let b_inverse := (4 * PI / b)%R in
  let sq_distances :=
    sum_last_axis
      (amap (fun v => b_inverse * v ^ 2)%R
            (sub_last_axis coordinate_grid_in_angstroms atom_position)) in
  amap (fun s => exp (- PI * s) * a * Rpower b_inverse (3 / 2))%R sq_distances.

(** [eval_fxn] maps over the entries of [atomic_as] and [atomic_bs]
    together ([in_axes=(None, None, 0, 0)]). *)
Definition evaluate_3d_atom_potential (coordinate_grid_in_angstroms : ndarray R)
    (atom_position : list R) (atomic_as atomic_bs : list R) : ndarray R :=
  let eval_fxn := fun grid pos as_ bs =>
    zip_with (evaluate_3d_real_space_gaussian grid pos) as_ bs in
  sum_axis0 (removelast (shape coordinate_grid_in_angstroms))
    (eval_fxn coordinate_grid_in_angstroms atom_position atomic_as atomic_bs).

Definition build_real_space_voxels_from_atoms (atom_positions ff_a ff_b : ndarray R)
    (coordinate_grid_in_angstroms : ndarray R) : ndarray R :=
  let voxel_grid_buffer := full (removelast (shape coordinate_grid_in_angstroms)) 0%R in
  let add_gaussian_to_potential := fun i potential =>
    azip Rplus potential
      (evaluate_3d_atom_potential coordinate_grid_in_angstroms
         (row atom_positions i) (row ff_a i) (row ff_b i)) in
  let voxel_grid :=
    fori_loop 0 (nth 0 (shape atom_positions) 0) add_gaussian_to_potential
      voxel_grid_buffer in
  voxel_grid.

(** ** Concrete collaborators and inputs for running the factories *)

(** [x] placed at the origin of an array of shape [sh], zero elsewhere
    (padding when [sh] is larger, cropping when it is smaller). *)
Definition resize (x : ndarray Qc) (sh : list Z) : ndarray Qc :=
  tabulate (map Z.to_nat sh)
    (fun idx => if in_bounds (shape x) idx then get x idx else 0%Qc).

(** Collaborators with which the factories can be evaluated: padding and
    cropping keep the leading corner, the coordinate systems are filled
    with zeros, and the transform is left as the embedding of the reals
    (no property below looks into these results). *)
Definition sample_collaborators : Collaborators := {|
  pad_to_shape := fun x sh _ => resize x sh;
  crop_to_shape := resize;
  fftn := amap (fun v => (v, 0%Qc));
  fftshift := fun x => x;
  new_FrequencySlice := fun sh _ => FrequencySlice.make (full (sh ++ [3]) 0%Qc);
  new_CoordinateGrid := fun sh => CoordinateGrid.make (full (sh ++ [3]) 0%Qc)
|}.

(** A pose that negates coordinates when asked for the inverse. *)
Definition sample_pose : AbstractPose unit :=
  fun _ coords inverse => if inverse then amap Qcopp coords else coords.

(** *** The rasteriser as the specification words it

    Spec 4.6: [b_inv = 4 pi / b], value
    [exp(-pi * b_inv * |x - pos|^2) * a * b_inv^1.5] at every grid point
    [x]; an atom is the sum of its 5 Gaussian terms; the grid is the sum
    over all atoms. *)

(** The grid point at a position of the three leading axes. *)
Definition grid_point (grid : ndarray R) (idx : list nat) : list R :=
  map (fun c => get grid (idx ++ [c])) (seq 0 3).

Definition squared_distance (x p : list R) : R :=
  ((nth 0 x 0 - nth 0 p 0) ^ 2 + (nth 1 x 0 - nth 1 p 0) ^ 2
   + (nth 2 x 0 - nth 2 p 0) ^ 2)%R.

Definition gaussian_term (a b : R) (x p : list R) : R :=
  (a * Rpower (4 * PI / b) (3 / 2)
   * exp (- PI * (4 * PI / b) * squared_distance x p))%R.

Definition atom_potential_at (as_ bs : list R) (x p : list R) : R :=
  rsum (map (fun t => gaussian_term (nth t as_ 0%R) (nth t bs 0%R) x p) (seq 0 5)).

Definition potential_at (atom_positions ff_a ff_b : ndarray R) (x : list R) : R :=
  rsum (map (fun i => atom_potential_at (row ff_a i) (row ff_b i) x (row atom_positions i))
            (seq 0 (nth 0 (shape atom_positions) 0))).

(** ** Notions used to state the properties of the interpolation *)

(** The input values at the positions given by a tuple of index arrays,
    one per axis: the array of the shape of the index arrays whose element
    at a position is the input at the indices found there. *)
Definition sample_at (input : ndarray Qc) (positions : list (ndarray nat)) : ndarray Qc :=
  match positions with
  | [] => input
  | i0 :: _ =>
      mk_ndarray (shape i0)
        (map (fun p => get input (map (fun ia => nth p (data ia) 0) positions))
             (seq 0 (length (data i0))))
  end.

(** The positions of a tuple of index arrays are all inside [sh]. *)
Definition positions_in_range (sh : list nat) (positions : list (ndarray nat)) : Prop :=
  match positions with
  | [] => True
  | i0 :: _ =>
      Forall (fun ia => length (data ia) = length (data i0)) positions
      /\ forall p, p < length (data i0) ->
           in_bounds sh (map (fun ia => nth p (data ia) 0) positions) = true
  end.

(** Index arrays as coordinate arrays (the same integers, as floats). *)
Definition as_coordinates (positions : list (ndarray nat)) : list (ndarray Qc) :=
  map (amap q_of_nat) positions.

(** The value of the tensor-product cubic B-spline with coefficients [c]
    at the node [ks]: the coefficients at offsets [0, 1, 2] along every
    axis, weighted [1, 4, 1]. *)
Fixpoint node_sum (ks : list nat) (c : list nat -> Qc) : Qc :=
  match ks with
  | [] => c []
  | k :: ks' =>
      (node_sum ks' (fun r => c (k :: r))
       + q_of_Z 4 * node_sum ks' (fun r => c (S k :: r))
       + node_sum ks' (fun r => c (S (S k) :: r)))%Qc
  end.

(** [r] is within two steps above [ks] along every axis. *)
Fixpoint in_window (ks r : list nat) : Prop :=
  match ks, r with
  | [], [] => True
  | k :: ks', i :: r' => k <= i <= k + 2 /\ in_window ks' r'
  | _, _ => False
  end.

(** An array given position by position of its buffer: shape [S], [L]
    elements, element [g p] at position [p]. *)
Definition tab {A} (S : list nat) (L : nat) (g : nat -> A) : ndarray A :=
  mk_ndarray S (map g (seq 0 L)).

(** An interpolation node of order 1 given position by position: its
    index array and its weight array. *)
Record node_desc : Type := mk_desc {
  desc_shape : list nat;
  desc_index : nat -> Z;
  desc_weight : nat -> Qc
}.

Definition node_of (L : nat) (d : node_desc) : index_like * weight :=
  (Int_index (tab (desc_shape d) L (desc_index d)),
   Array_w (tab (desc_shape d) L (desc_weight d))).

(** The two nodes of order 1 at coordinates that are the integers held
    by [ia]: the node itself with weight 1, the next one with weight 0. *)
Definition linear_descs (ia : ndarray nat) : list node_desc :=
  [mk_desc (shape ia) (fun p => Z.of_nat (nth p (data ia) 0)) (fun _ => 1%Qc);
   mk_desc (shape ia) (fun p => (Z.of_nat (nth p (data ia) 0%nat) + 1)%Z)
           (fun _ => 0%Qc)].

(** The contribution of one tuple of nodes, for orders 0 and 1 (the body
    of the loop over [itertools.product] in [_map_coordinates]). *)
Definition contribution_of (input : ndarray Qc) (mode : gather_mode) (cval : Qc)
    (items : list (index_like * weight)) : result (ndarray Qc) :=
  let (index_like, weights) := unzip2 items in
  index_arrays <- traverse as_int_index index_like ;;
  let contribution := at_get input index_arrays mode cval in
  w <- _nonempty_prod weights ;;
  mul_contribution w contribution.

(** The value contributed at position [p] by one tuple of nodes of
    order 1: the product of its weights times the input value gathered
    at its indices. *)
Definition contribution_at (input : ndarray Qc) (mode : gather_mode) (cval : Qc)
    (descs : list node_desc) (p : nat) : Qc :=
  (qprod (map (fun d => desc_weight d p) descs)
   * gather_point input (map (fun d => desc_index d p) descs) mode cval)%Qc.

(** The two nodes of order 1 at the coordinates held by [c]. *)
Definition linear_descs_of (c : ndarray Qc) : list node_desc :=
  let x := fun p => nth p (data c) 0%Qc in
  [mk_desc (shape c) (fun p => floorZ (q_of_Z (floorZ (x p))))
           (fun p => (1 - (x p - q_of_Z (floorZ (x p))))%Qc);
   mk_desc (shape c) (fun p => (floorZ (q_of_Z (floorZ (x p))) + 1)%Z)
           (fun p => (x p - q_of_Z (floorZ (x p)))%Qc)].

(** Coordinate arrays of one shape [S], each holding [L] values. *)
Definition same_shape (S : list nat) (L : nat) (coordinates : list (ndarray Qc)) : Prop :=
  Forall (fun c => shape c = S /\ length (data c) = L) coordinates.

(** The orders [_map_coordinates] implements. *)
Definition valid_order (order : Z) : Prop :=
  order = 0%Z \/ order = 1%Z \/ order = 3%Z.

(** ** Predicates and functions of the properties *)

(** The function obtained after the inner loop of [_spline_coefficients]:
    [vmap] wrapped around [base], the outermost [vmap] first in [axs]. *)
Definition nest {F} `{Default F} (axs : list nat) (base : ndarray F -> ndarray F)
    : ndarray F -> ndarray F :=
  fold_right (fun ax fn => vmap fn ax) base axs.

(** What it means for [fn] to apply [f] along axis [length pre] of arrays
    of shape [pre ++ n :: rest]. *)
Definition applies_along {F} `{Default F} (f : list F -> list F) (n L : nat)
    (pre rest : list nat) (fn : ndarray F -> ndarray F) : Prop :=
  forall x, wf x -> shape x = pre ++ n :: rest ->
    wf (fn x)
    /\ shape (fn x) = pre ++ L :: rest
    /\ forall p i r,
         in_bounds pre p = true -> i < L -> in_bounds rest r = true ->
         get (fn x) (p ++ i :: r)
         = nth i (f (map (fun t => get x (p ++ t :: r)) (seq 0 n))) default.

(** The operator built for an axis of extent [n]. *)
Definition axis_operator {F} `{Scalar F} (n : nat) : TridiagonalLinearOperator F :=
  mk_tridiagonal (repeat (of_Qc (q_of_Z 4)) (n - 2))
    (repeat (of_Qc 1%Qc) (n - 2 - 1)) (repeat (of_Qc 1%Qc) (n - 2 - 1)).

(** After [i] turns the last [i] axes hold coefficients. *)
Definition coefficient_shape (sh : list nat) (i : nat) : list nat :=
  firstn (length sh - i) sh ++ map (fun s => s + 2) (skipn (length sh - i) sh).

(** The rows of a tridiagonal system hold for [xs], the unknown above the
    first row being [xprev]. *)
Fixpoint tridiagonal_holds (xprev : Qc) (rows : list (Qc * Qc * Qc * Qc))
    (xs : list Qc) : Prop :=
  match rows, xs with
  | [], [] => True
  | (l, b, u, y) :: rows', x :: xs' =>
      (l * xprev + b * x + u * hd 0%Qc xs' = y)%Qc /\ tridiagonal_holds x rows' xs'
  | _, _ => False
  end.

(** No pivot of the elimination vanishes. *)
Fixpoint pivots_nonzero (cp : Qc) (rows : list (Qc * Qc * Qc * Qc)) : Prop :=
  match rows with
  | [] => True
  | (l, b, u, y) :: rows' =>
      (b - l * cp)%Qc <> 0%Qc /\ pivots_nonzero (u / (b - l * cp))%Qc rows'
  end.

(** What the loop of [_spline_coefficients] maintains: after [i] turns,
    summing the coefficients over the windows of the last [i] axes gives
    the input back. *)
Definition interpolates_last (input : ndarray Qc) (i : nat) (x : ndarray Qc) : Prop :=
  let sh := shape input in
  wf x
  /\ shape x = coefficient_shape sh i
  /\ forall p ks,
       in_bounds (firstn (length sh - i) sh) p = true ->
       in_bounds (skipn (length sh - i) sh) ks = true ->
       node_sum ks (fun r => get x (p ++ r)) = get input (p ++ ks).

(** ** Proof automation *)

(** From statements on canonical rationals to statements on [Q]. *)
Ltac qc2q :=
  unfold Qclt, Qcle, Qcdiv, Qcminus, Qcplus, Qcopp, Qcmult, Qcinv,
         q_of_Z, q_frac, Q2Qc in *;
  cbn [this] in *; rewrite ?Qred_correct in *; unfold inject_Z in *.

(** The operations of the class, at the rationals. *)
Ltac scalar_qc :=
  change (@ssub Qc Scalar_Qc) with Qcminus in *;
  change (@sadd Qc Scalar_Qc) with Qcplus in *;
  change (@smul Qc Scalar_Qc) with Qcmult in *;
  change (@sdiv Qc Scalar_Qc) with Qcdiv in *;
  change (@of_Qc Qc Scalar_Qc) with (fun q : Qc => q) in *;
  cbv beta in *.

(** ** Notions used to state the further properties *)

(** The point at position [p] of a tuple of coordinate arrays: one
    coordinate per axis. *)
Definition point_at (coordinates : list (ndarray Qc)) (p : nat) : list Qc :=
  map (fun c => nth p (data c) 0%Qc) coordinates.

(** Element [p] of the buffer of a result, when there is a result. *)
Definition element (r : result (ndarray Qc)) (p : nat) : option Qc :=
  match r with
  | Ok out => Some (nth p (data out) 0%Qc)
  | Raise _ => None
  end.

(** Some index of the tuple [idx] lies outside its axis of [sh]: at the
    extent [n] or above, or below [-n] (an index from [-n] to [-1] counts
    from the end of the axis). *)
Fixpoint some_out_of_bounds (sh : list nat) (idx : list Z) : Prop :=
  match sh, idx with
  | n :: sh', i :: idx' =>
      (i < - Z.of_nat n)%Z \/ (Z.of_nat n <= i)%Z \/ some_out_of_bounds sh' idx'
  | _, _ => False
  end.



(** ** [cryojax/utils/fourier.py] *)

(** The transforms of [jnp.fft] that the helpers call (without further
    keyword arguments). *)
Class FourierTransforms : Type := {
  jnp_fft_fftn : ndarray complex -> ndarray complex;
  jnp_fft_ifftn : ndarray complex -> ndarray complex;
  jnp_fft_fftshift : ndarray complex -> ndarray complex;
  jnp_fft_ifftshift : ndarray complex -> ndarray complex
}.

Module fourier.

(** What [ifft] returns: the transform itself, or its real part. *)
Inductive output : Type :=
| Complex_output (ift : ndarray complex)
| Real_output (ift : ndarray Qc).

Definition ifft `{FourierTransforms} (ft : ndarray complex) (real : bool) : output :=
  let ift := jnp_fft_fftshift (jnp_fft_ifftn ft) in
  if real then Real_output (amap fst ift) else Complex_output ift.

Definition irfft `{FourierTransforms} (ft : ndarray complex) : output :=
  ifft ft true.

Definition fft `{FourierTransforms} (ift : ndarray complex) : ndarray complex :=
  let ft := jnp_fft_fftn (jnp_fft_ifftshift ift) in
  ft.

End fourier.

(** The transforms of two-point data, with which the helpers can be
    evaluated: the discrete Fourier transform of size 2, its inverse, and
    the shift that swaps the two entries; other data are left as they
    are. *)
Definition on_pair (f : complex -> complex -> list complex) (x : ndarray complex)
    : ndarray complex :=
  match data x with
  | [a; b] => mk_ndarray (shape x) (f a b)
  | _ => x
  end.

Definition chalf (z : complex) : complex :=
  (q_frac 1 2 * fst z, q_frac 1 2 * snd z)%Qc.

Definition sample_transforms : FourierTransforms := {|
  jnp_fft_fftn := on_pair (fun a b => [cadd a b; csub a b]);
  jnp_fft_ifftn := on_pair (fun a b => [chalf (cadd a b); chalf (csub a b)]);
  jnp_fft_fftshift := on_pair (fun a b => [b; a]);
  jnp_fft_ifftshift := on_pair (fun a b => [b; a])
|}.

(** ** [cryojax/simulator/ensemble.py] *)

(** [ElectronDensity]: what [Ensemble] uses of it, namely
    [n_stacked_dims], [len(density)], [density[i]] and
    [rotate_to_pose]. *)
Class ElectronDensity (D P : Type) : Type := {
  n_stacked_dims : D -> Z;
  density_len : D -> nat;
  density_getitem : D -> nat -> D;
  density_rotate_to_pose : D -> P -> D
}.

Module Conformation.
Record t : Type := make { _value : Z }.
Definition get (self : t) : Z := _value self.
End Conformation.

(** [jax.lax.switch(index, branches)]: the index is clamped to the range
    of the branches; an empty sequence of branches is an error. *)
Definition lax_switch {A} (index : Z) (branches : list (unit -> A)) : result A :=
  match branches with
  | [] => Raise ValueError
  | b0 :: _ =>
      let i := Z.to_nat (Z.max 0 (Z.min index (Z.of_nat (length branches) - 1))) in
      Ok (nth i branches b0 tt)
  end.

Module Ensemble.

Section Ensemble.

Context {D P : Type} `{ElectronDensity D P}.

(** [EulerPose()], the pose used when none is given. *)
Variable EulerPose : P.

Record t : Type := make {
  density : D;
  pose : P;
  conformation : option Conformation.t
}.

Definition __init__ (density : D) (pose : option P)
    (conformation : option Conformation.t) : t :=
  make density
    (match pose with Some pose => pose | None => EulerPose end)
    (match conformation with None => None | Some conformation => Some conformation end).

Definition __check_init__ (self : t) : result unit :=
  if (negb (n_stacked_dims (density self) =? 1)%Z
      && match conformation self with Some _ => true | None => false end)%bool
  then Raise ValueError
  else Ok tt.

(** Construction: [__init__], then the check that [equinox] runs after
    it. *)
Definition new (density : D) (pose : option P)
    (conformation : option Conformation.t) : result t :=
  let self := __init__ density pose conformation in
  _ <- __check_init__ self ;;
  Ok self.

Definition density_at_conformation_and_pose (self : t) : result D :=
  density <-
    match conformation self with
    | None => Ok (density self)
    | Some conformation =>
        let funcs :=
          map (fun i => fun _ : unit => density_getitem (density self) i)
              (seq 0 (density_len (density self))) in
        lax_switch (Conformation.get conformation) funcs
    end ;;
  Ok (density_rotate_to_pose density (pose self)).

End Ensemble.

End Ensemble.

(** A stack of densities with which [Ensemble] can be evaluated: a list
    of numbers, indexed by position; rotating adds the pose. *)
Definition sample_density : ElectronDensity (list Z) Z := {|
  n_stacked_dims := fun _ => 1%Z;
  density_len := fun d => length d;
  density_getitem := fun d i => [nth i d 0%Z];
  density_rotate_to_pose := fun d p => map (Z.add p) d
|}.

(** A point strictly inside a grid of shape [sh]: along every axis of
    extent [n] its coordinate lies in the interval from [0] (included) to
    [n - 1] (excluded). *)
Definition inside (sh : list nat) (x : list Qc) : Prop :=
  Forall2 (fun n xi => (0 <= xi)%Qc /\ (xi < q_of_nat n - 1)%Qc) sh x.

(** What the loop of [_spline_coefficients] maintains on constant data
    [D]: after [i] turns every entry is [D / 6^i]. *)
Definition constant_after (sh : list nat) (D : Qc) (i : nat) (x : ndarray Qc) : Prop :=
  wf x
  /\ shape x = coefficient_shape sh i
  /\ forall idx, in_bounds (shape x) idx = true ->
       get x idx = (q_frac 1 6 ^ i * D)%Qc.

(* ================================================================== *)
(** * Part II: properties                                              *)
(* ================================================================== *)

(** ** The array library *)

Lemma length_indices (sh : list nat) : length (indices sh) = size sh.
Proof.
  induction sh as [|n sh IH]; simpl; [reflexivity|].
  generalize 0 as s.
  induction n as [|n IHn]; intros s; simpl; [reflexivity|].
  rewrite length_app, length_map, IH, IHn. reflexivity.
Qed.

Lemma wf_tabulate {A} (sh : list nat) (f : list nat -> A) : wf (tabulate sh f).
Proof. unfold wf; simpl. now rewrite length_map, length_indices. Qed.

Lemma in_bounds_length (sh idx : list nat) :
  in_bounds sh idx = true -> length idx = length sh.
Proof.
  revert idx; induction sh as [|n sh IH]; intros [|i idx]; simpl; try discriminate; auto.
  rewrite andb_true_iff; intros [_ H]. f_equal; auto.
Qed.

Lemma ravel_lt (sh idx : list nat) :
  in_bounds sh idx = true -> ravel sh idx < size sh.
Proof.
  revert idx; induction sh as [|n sh IH]; intros [|i idx]; simpl; try discriminate.
  - lia.
  - rewrite andb_true_iff, Nat.ltb_lt; intros [Hi Hb].
    specialize (IH _ Hb). nia.
Qed.

(** Reading a block-structured list: block [i] of a concatenation of
    blocks of one length [m]. *)
Lemma nth_flat_map_block {A B} (d : B) (g : A -> list B) (m : nat) (l : list A) (da : A) :
  (forall a, length (g a) = m) ->
  forall i r, i < length l -> r < m ->
    nth (i * m + r) (flat_map g l) d = nth r (g (nth i l da)) d.
Proof.
  intros Hg. induction l as [|a l IH]; intros i r Hi Hr; simpl in *; [lia|].
  destruct i as [|i].
  - simpl. rewrite app_nth1; [reflexivity | rewrite Hg; lia].
  - rewrite app_nth2; rewrite Hg; [|simpl; lia].
    replace (S i * m + r - m) with (i * m + r) by (simpl; lia).
    apply IH; lia.
Qed.

Lemma nth_indices (sh idx : list nat) :
  in_bounds sh idx = true -> nth (ravel sh idx) (indices sh) [] = idx.
Proof.
  revert idx; induction sh as [|n sh IH]; intros [|i idx]; simpl; try discriminate; auto.
  rewrite andb_true_iff, Nat.ltb_lt; intros [Hi Hb].
  rewrite (@nth_flat_map_block _ _ [] (fun i => map (cons i) (indices sh)) (size sh) (seq 0 n) 0).
  - rewrite seq_nth by lia. simpl.
    change [] with (@nil nat) at 1.
    rewrite (nth_indep _ [] (i :: [])).
    + rewrite (map_nth (cons i) (indices sh) []). now rewrite IH.
    + rewrite length_map, length_indices. now apply ravel_lt.
  - intros a. now rewrite length_map, length_indices.
  - now rewrite length_seq.
  - now apply ravel_lt.
Qed.

(** The element of a tabulated array at an in-range index. *)
Lemma get_tabulate {A} `{Default A} (sh : list nat) (f : list nat -> A) (idx : list nat) :
  in_bounds sh idx = true -> get (tabulate sh f) idx = f idx.
Proof.
  intros Hb. unfold get, tabulate; simpl.
  rewrite (nth_indep _ default (f [])).
  - rewrite (map_nth f (indices sh) []). now rewrite nth_indices.
  - rewrite length_map, length_indices. now apply ravel_lt.
Qed.

Lemma map_add_seq (k s m : nat) : map (Nat.add k) (seq s m) = seq (k + s) m.
Proof.
  revert s; induction m as [|m IH]; intros s; simpl; [reflexivity|].
  rewrite IH. do 2 f_equal. lia.
Qed.

Lemma map_ravel_indices (sh : list nat) :
  map (ravel sh) (indices sh) = seq 0 (size sh).
Proof.
  induction sh as [|n sh IH]; simpl; [reflexivity|].
  assert (G : forall s,
    map (ravel (n :: sh)) (flat_map (fun i => map (cons i) (indices sh)) (seq s n))
    = seq (s * size sh) (n * size sh)).
  { induction n as [|n IHn]; intros s; simpl; [reflexivity|].
    rewrite map_app, map_map, IHn. simpl.
    rewrite seq_app. f_equal.
    - transitivity (seq (s * size sh + 0) (size sh)); [|f_equal; lia].
      rewrite <- map_add_seq, <- IH, map_map. reflexivity.
    - f_equal. lia. }
  apply (G 0).
Qed.

Lemma in_bounds_indices (sh idx : list nat) :
  In idx (indices sh) -> in_bounds sh idx = true.
Proof.
  revert idx; induction sh as [|n sh IH]; intros idx; simpl.
  - intros [<-|[]]. reflexivity.
  - rewrite in_flat_map. intros (i & Hi & Hin).
    apply in_map_iff in Hin as (idx' & <- & Hin').
    apply in_seq in Hi. simpl.
    rewrite andb_true_iff, Nat.ltb_lt. split; [lia | auto].
Qed.




(** ** Pose rotation *)

(** C1: for each of the four potentials and every pose, [rotate_to_pose]
    returns the instance in which only the array of the geometry field is
    replaced, by [pose.rotate_coordinates] of the current array with
    [inverse=True] for the two Fourier-space variants and [inverse=False]
    for the two real-space variants; the stored array and [voxel_size] are
    the same. *)
Theorem rotate_to_pose_replaces_geometry_array {P : Type} {pose_class : AbstractPose P}
    (pose : P) :
  (forall d : FourierVoxelGrid.t,
     AbstractFourierVoxelGrid.rotate_to_pose d pose
     = FourierVoxelGrid.make
         (FourierVoxelGrid.fourier_voxel_grid d)
         (FrequencySlice.make
            (rotate_coordinates pose
               (FrequencySlice.get (FourierVoxelGrid.frequency_slice d)) true))
         (FourierVoxelGrid.voxel_size d))
  /\ (forall d : FourierVoxelGridInterpolator.t,
     AbstractFourierVoxelGrid.rotate_to_pose d pose
     = FourierVoxelGridInterpolator.make
         (FourierVoxelGridInterpolator.coefficients d)
         (FrequencySlice.make
            (rotate_coordinates pose
               (FrequencySlice.get (FourierVoxelGridInterpolator.frequency_slice d)) true))
         (FourierVoxelGridInterpolator.voxel_size d))
  /\ (forall d : RealVoxelGrid.t,
     RealVoxelGrid.rotate_to_pose d pose
     = RealVoxelGrid.make
         (RealVoxelGrid.real_voxel_grid d)
         (CoordinateGrid.make
            (rotate_coordinates pose
               (CoordinateGrid.get (RealVoxelGrid.coordinate_grid d)) false))
         (RealVoxelGrid.voxel_size d))
  /\ (forall d : RealVoxelCloud.t,
     RealVoxelCloud.rotate_to_pose d pose
     = RealVoxelCloud.make
         (RealVoxelCloud.voxel_weights d)
         (CoordinateList.make
            (rotate_coordinates pose
               (CoordinateList.get (RealVoxelCloud.coordinate_list d)) false))
         (RealVoxelCloud.voxel_size d)).
Proof.
  repeat split; intros d; destruct d; reflexivity.
Qed.

(** The two directions differ on a pose that is not its own inverse. *)
Example rotate_to_pose_direction :
  let coords := mk_ndarray [1; 3] [1%Qc; q_of_Z 2; q_of_Z 3] in
  let grid := mk_ndarray [1; 1; 1] [1%Qc] in
  RealVoxelGrid.coordinate_grid
    (@RealVoxelGrid.rotate_to_pose unit sample_pose
       (RealVoxelGrid.make grid (CoordinateGrid.make coords) 1%Qc) tt)
  = CoordinateGrid.make coords
  /\ FourierVoxelGrid.frequency_slice
    (@AbstractFourierVoxelGrid.rotate_to_pose _ unit _ sample_pose
       (FourierVoxelGrid.make (amap (fun v => (v, 0%Qc)) grid)
          (FrequencySlice.make coords) 1%Qc) tt)
  = FrequencySlice.make (amap Qcopp coords).
Proof. split; reflexivity. Qed.

(** ** Comparisons of rationals *)

Lemma qle_iff (a b : Qc) : qle a b = true <-> (a <= b)%Qc.
Proof. unfold qle, Qcle. apply Qle_bool_iff. Qed.

Lemma qlt_iff (a b : Qc) : qlt a b = true <-> (a < b)%Qc.
Proof.
  unfold qlt. rewrite negb_true_iff.
  split; intros Hab.
  - apply Qcnot_le_lt. intros Hle. apply qle_iff in Hle. congruence.
  - destruct (qle b a) eqn:E; [|reflexivity].
    apply qle_iff in E. exfalso. now apply (Qclt_not_le a b).
Qed.

Lemma qlt_false_iff (a b : Qc) : qlt a b = false <-> (b <= a)%Qc.
Proof.
  unfold qlt. rewrite negb_false_iff. apply qle_iff.
Qed.

(** ** Construction from a real voxel grid: validation *)

(** What [AbstractFourierVoxelGrid.from_real_voxel_grid] does after its
    check of [pad_scale]. *)
Lemma fourier_from_real_voxel_grid_unfold {Self : Type}
    {I : AbstractFourierVoxelGrid.interface Self} {C : Collaborators}
    (G : ndarray Qc) (vs pad_scale : Qc) (pad_mode : String.string)
    (filter : option AbstractFilter) :
  AbstractFourierVoxelGrid.from_real_voxel_grid G vs pad_scale pad_mode filter
  = if qlt pad_scale 1%Qc then Raise ValueError
    else
      let padded :=
        pad_to_shape G (AbstractFourierVoxelGrid.padded_shape G pad_scale) pad_mode in
      AbstractFourierVoxelGrid.cls
        (fftshift (match filter with
                   | None => fftn padded
                   | Some f => f (fftn padded)
                   end))
        (new_FrequencySlice (removelast (shape padded)) false)
        vs.
Proof. reflexivity. Qed.

(** C4, at a grid of odd side: with [pad_scale = 1.0] a grid of shape
    [(3, 3, 3)] is padded to [(3, 3, 3)], which is odd along every axis,
    and that is the shape handed to [pad_to_shape] before the transform;
    the comment above the computation promises an even size. *)
Theorem padded_shape_of_odd_grid_is_odd {C : Collaborators} (v vs : Qc)
    (pad_mode : String.string) :
  let G := full [3; 3; 3] v in
  AbstractFourierVoxelGrid.padded_shape G 1%Qc = [3; 3; 3]%Z
  /\ Forall (fun s => Z.even s = false) (AbstractFourierVoxelGrid.padded_shape G 1%Qc)
  /\ AbstractFourierVoxelGrid.from_real_voxel_grid G vs 1%Qc pad_mode None
     = Ok (FourierVoxelGrid.make
             (fftshift (fftn (pad_to_shape G [3; 3; 3]%Z pad_mode)))
             (new_FrequencySlice
                (removelast (shape (pad_to_shape G [3; 3; 3]%Z pad_mode))) false)
             vs).
Proof.
  intros G.
  assert (E : AbstractFourierVoxelGrid.padded_shape G 1%Qc = [3; 3; 3]%Z)
    by (vm_compute; reflexivity).
  split; [exact E|]. split.
  - rewrite E. repeat constructor.
  - rewrite fourier_from_real_voxel_grid_unfold.
    replace (qlt 1%Qc 1%Qc) with false by (vm_compute; reflexivity).
    cbv zeta. rewrite E. reflexivity.
Qed.

(** [RealVoxelGrid.from_real_voxel_grid] without a coordinate grid. *)
Lemma real_from_real_voxel_grid_no_grid {C : Collaborators}
    (G : ndarray Qc) (vs : Qc) (crop_scale : option Qc) :
  RealVoxelGrid.from_real_voxel_grid G vs None crop_scale
  = match crop_scale with
    | Some c =>
        if qlt 1%Qc c then Raise ValueError
        else
          let T := transpose G [1; 0; 2] in
          let cropped :=
            crop_to_shape T (map (fun s => py_int (q_of_nat s * c)%Qc) (last3 (shape T))) in
          Ok (RealVoxelGrid.make cropped (new_CoordinateGrid (last3 (shape cropped))) vs)
    | None =>
        let T := transpose G [1; 0; 2] in
        Ok (RealVoxelGrid.make T (new_CoordinateGrid (last3 (shape T))) vs)
    end.
Proof.
  unfold RealVoxelGrid.from_real_voxel_grid.
  destruct crop_scale as [c|]; [|reflexivity].
  destruct (qlt 1%Qc c); reflexivity.
Qed.

(** C10: when a coordinate grid is supplied, [crop_scale] plays no part
    in [RealVoxelGrid.from_real_voxel_grid]: whatever its value, the
    result is the object made of the transposed grid, the supplied
    coordinate grid and the voxel size, and nothing is raised; without a
    coordinate grid the same [crop_scale] raises [ValueError] exactly when
    it is above [1.0]. *)
Theorem crop_scale_ignored_with_coordinate_grid {C : Collaborators}
    (G : ndarray Qc) (vs : Qc) (cg : CoordinateGrid.t) :
  (forall crop_scale : option Qc,
     RealVoxelGrid.from_real_voxel_grid G vs (Some cg) crop_scale
     = Ok (RealVoxelGrid.make (transpose G [1; 0; 2]) cg vs))
  /\ (forall c : Qc,
     RealVoxelGrid.from_real_voxel_grid G vs None (Some c) = Raise ValueError
     <-> (1 < c)%Qc).
Proof.
  split.
  - intros crop_scale. reflexivity.
  - intros c. rewrite real_from_real_voxel_grid_no_grid.
    destruct (qlt 1%Qc c) eqn:E.
    + apply qlt_iff in E. tauto.
    + apply qlt_false_iff in E. split; [discriminate|].
      intros Hlt. exfalso. now apply (Qclt_not_le 1 c).
Qed.

(** C6, as the code has it: the Fourier-space factory raises [ValueError]
    exactly when [pad_scale < 1.0], and otherwise hands the shifted
    transform of the padded grid to the constructor of the class
    ([FourierVoxelGrid] stores it, [FourierVoxelGridInterpolator] computes
    spline coefficients from it); the [RealVoxelGrid] factory raises
    [ValueError] exactly when no coordinate grid is supplied and a
    [crop_scale > 1.0] is, and otherwise returns an object.  Nothing looks
    at whether the grid is cubic.  Each result is a function of the
    arguments alone. *)
Theorem from_real_voxel_grid_validation {C : Collaborators} (G : ndarray Qc) (vs : Qc) :
  (forall pad_scale pad_mode filter,
     let padded :=
       pad_to_shape G (AbstractFourierVoxelGrid.padded_shape G pad_scale) pad_mode in
     let transformed :=
       fftshift (match filter with
                 | None => fftn padded
                 | Some f => f (fftn padded)
                 end) in
     let slice := new_FrequencySlice (removelast (shape padded)) false in
     ((AbstractFourierVoxelGrid.from_real_voxel_grid G vs pad_scale pad_mode filter
       = @Raise FourierVoxelGrid.t ValueError) <-> (pad_scale < 1)%Qc)
     /\ ((1 <= pad_scale)%Qc ->
         AbstractFourierVoxelGrid.from_real_voxel_grid G vs pad_scale pad_mode filter
         = Ok (FourierVoxelGrid.make transformed slice vs))
     /\ ((pad_scale < 1)%Qc ->
         AbstractFourierVoxelGrid.from_real_voxel_grid G vs pad_scale pad_mode filter
         = @Raise FourierVoxelGridInterpolator.t ValueError)
     /\ ((1 <= pad_scale)%Qc ->
         AbstractFourierVoxelGrid.from_real_voxel_grid G vs pad_scale pad_mode filter
         = FourierVoxelGridInterpolator.__init__ transformed slice vs))
  /\ (forall coordinate_grid crop_scale,
     (RealVoxelGrid.from_real_voxel_grid G vs coordinate_grid crop_scale
      = Raise ValueError
      <-> coordinate_grid = None /\ exists c, crop_scale = Some c /\ (1 < c)%Qc)
     /\ (RealVoxelGrid.from_real_voxel_grid G vs coordinate_grid crop_scale
         <> Raise ValueError ->
         exists obj,
           RealVoxelGrid.from_real_voxel_grid G vs coordinate_grid crop_scale = Ok obj)).
Proof.
  split.
  - intros pad_scale pad_mode filter padded transformed slice.
    rewrite !fourier_from_real_voxel_grid_unfold.
    fold padded. cbv zeta. fold transformed. fold slice.
    destruct (qlt pad_scale 1%Qc) eqn:E.
    + apply qlt_iff in E.
      assert (N : ~ (1 <= pad_scale)%Qc) by (intros Hle; now apply (Qclt_not_le pad_scale 1)).
      repeat split; intros; try reflexivity; try tauto.
    + apply qlt_false_iff in E.
      assert (N : ~ (pad_scale < 1)%Qc) by (intros Hlt; now apply (Qclt_not_le pad_scale 1)).
      repeat split; intros; try reflexivity; try tauto; try discriminate.
  - intros coordinate_grid crop_scale.
    destruct coordinate_grid as [cg|].
    + split.
      * split; [discriminate | intros [Hn _]; discriminate].
      * intros _. eexists. reflexivity.
    + rewrite real_from_real_voxel_grid_no_grid.
      destruct crop_scale as [c|].
      * destruct (qlt 1%Qc c) eqn:E.
        -- apply qlt_iff in E. split.
           ++ split; [intros _; split; [reflexivity | exists c; auto] | reflexivity].
           ++ intros Hn. now elim Hn.
        -- apply qlt_false_iff in E. split.
           ++ split; [discriminate|].
              intros [_ (c' & Hc & Hlt)]. injection Hc as <-.
              exfalso. now apply (Qclt_not_le 1 c).
           ++ intros _. eexists. reflexivity.
      * split.
        -- split; [discriminate | intros [_ (c' & Hc & _)]; discriminate].
        -- intros _. eexists. reflexivity.
Qed.

(** C6 as stated fails: a non-cubic grid of shape [(1, 2, 1)] is accepted
    by both factories, and a [crop_scale] of [2.0] is accepted next to a
    coordinate grid. *)
Lemma non_cubic_grid_is_accepted :
  let G := mk_ndarray [1; 2; 1] [1%Qc; q_of_Z 2] in
  let cg := CoordinateGrid.make (full [2; 1; 1; 3] 0%Qc) in
  @AbstractFourierVoxelGrid.from_real_voxel_grid FourierVoxelGrid.t _ sample_collaborators
     G 1%Qc 1%Qc AbstractFourierVoxelGrid.default_pad_mode None
  = Ok (FourierVoxelGrid.make
          (mk_ndarray [1; 2; 1] [(1%Qc, 0%Qc); (q_of_Z 2, 0%Qc)])
          (FrequencySlice.make (full [1; 2; 3] 0%Qc)) 1%Qc)
  /\ @RealVoxelGrid.from_real_voxel_grid sample_collaborators G 1%Qc None None
  = Ok (RealVoxelGrid.make (mk_ndarray [2; 1; 1] [1%Qc; q_of_Z 2]) cg 1%Qc)
  /\ @RealVoxelGrid.from_real_voxel_grid sample_collaborators G 1%Qc (Some cg)
       (Some (q_of_Z 2))
  = Ok (RealVoxelGrid.make (mk_ndarray [2; 1; 1] [1%Qc; q_of_Z 2]) cg 1%Qc).
Proof. repeat split; vm_compute; reflexivity. Qed.

(** ** The axis transpose of the real-space factories *)


Lemma in_bounds_3 (a b c : nat) (idx : list nat) :
  in_bounds [a; b; c] idx = true ->
  exists i j k, idx = [i; j; k] /\ i < a /\ j < b /\ k < c.
Proof.
  destruct idx as [|i [|j [|k [|e idx]]]]; simpl; try discriminate;
    rewrite !andb_true_iff, ?Nat.ltb_lt.
  - intros (_ & Hf). discriminate.
  - intros (_ & _ & Hf). discriminate.
  - intros (Hi & Hj & Hk & _). now exists i, j, k.
  - intros (_ & _ & _ & Hf). discriminate.
Qed.

Lemma in_bounds_3_intro (a b c i j k : nat) :
  i < a -> j < b -> k < c -> in_bounds [a; b; c] [i; j; k] = true.
Proof.
  intros Hi Hj Hk. simpl. rewrite !andb_true_iff, !Nat.ltb_lt. auto.
Qed.

Lemma source_index_102 (i j k : nat) : source_index [1; 0; 2] [j; i; k] = [i; j; k].
Proof. reflexivity. Qed.

(** An element of the transposed grid. *)
Lemma get_transpose_102 {A} `{Default A} (x : ndarray A) (a b c i j k : nat) :
  shape x = [a; b; c] -> i < a -> j < b -> k < c ->
  get (transpose x [1; 0; 2]) [j; i; k] = get x [i; j; k].
Proof.
  intros Hs Hi Hj Hk. unfold transpose. rewrite Hs. simpl permute_shape.
  rewrite get_tabulate by now apply in_bounds_3_intro.
  reflexivity.
Qed.




(** ** The point cloud: masking of the voxels close to zero *)

Lemma in_indices (sh idx : list nat) :
  in_bounds sh idx = true -> In idx (indices sh).
Proof.
  intros Hb. rewrite <- (nth_indices sh idx Hb).
  apply nth_In. rewrite length_indices. now apply ravel_lt.
Qed.

Lemma NoDup_indices (sh : list nat) : NoDup (indices sh).
Proof.
  apply (NoDup_map_inv (ravel sh)). rewrite map_ravel_indices. apply seq_NoDup.
Qed.

Lemma filter_none {A} (p : A -> bool) (l : list A) :
  (forall y, In y l -> p y = false) -> filter p l = [].
Proof.
  induction l as [|a l IH]; intros Hp; simpl; [reflexivity|].
  rewrite (Hp a) by now left. apply IH. intros y Hy. apply Hp. now right.
Qed.

Lemma filter_single {A} (p : A -> bool) (l : list A) (x : A) :
  NoDup l -> In x l -> p x = true ->
  (forall y, In y l -> y <> x -> p y = false) ->
  filter p l = [x].
Proof.
  induction l as [|a l IH]; intros Hnd Hin Hx Hp; simpl; [destruct Hin|].
  inversion Hnd as [|a' l' Hna Hnd']; subst.
  destruct Hin as [->|Hin].
  - rewrite Hx. f_equal. apply filter_none.
    intros y Hy. apply Hp; [now right|]. intros ->. contradiction.
  - rewrite (Hp a); [|now left|intros ->; contradiction].
    apply IH; auto. intros y Hy. apply Hp. now right.
Qed.

Lemma where_of_map {A} (h : A -> bool) (l : list A) :
  map snd (filter fst (combine (map h l) l)) = filter h l.
Proof.
  induction l as [|a l IH]; simpl; [reflexivity|].
  destruct (h a); simpl; now rewrite IH.
Qed.

(** The positions selected in a mask computed element-wise from a table. *)
Lemma where_amap_tabulate {A} (f : A -> bool) (sh : list nat) (g : list nat -> A) :
  where_ (amap f (tabulate sh g)) = filter (fun idx => f (g idx)) (indices sh).
Proof.
  unfold where_, amap, tabulate. simpl.
  rewrite map_map. apply where_of_map.
Qed.

(** The closeness test against zero compares the magnitude with [atol]. *)
Lemma isclose_zero (v rtol atol : Qc) :
  isclose v 0%Qc rtol atol = true <-> (Qcabs v <= atol)%Qc.
Proof.
  unfold isclose. rewrite qle_iff.
  replace (v - 0)%Qc with v by ring.
  replace (atol + rtol * Qcabs 0)%Qc with atol; [tauto|].
  rewrite Qcabs_pos by apply Qcle_refl. ring.
Qed.

Section Cloud.

Context {C : Collaborators}.
Variables (G : ndarray Qc) (vs : Qc) (coordinate_grid : option CoordinateGrid.t).
Variables (rtol atol : Qc).
Variables (a b c : nat).
Hypothesis Hshape : shape G = [a; b; c].

(** The coordinate array the cloud factory gathers from. *)
Let coordinates : ndarray Qc :=
  CoordinateGrid.get
    match coordinate_grid with
    | None => new_CoordinateGrid [b; a; c]
    | Some g => g
    end.

Let cloud : RealVoxelCloud.t :=
  RealVoxelCloud.from_real_voxel_grid G vs coordinate_grid rtol atol.

Lemma cloud_unfold :
  cloud
  = let nonzero :=
      filter (fun idx => negb (isclose (get G (source_index [1; 0; 2] idx)) 0%Qc rtol atol))
             (indices [b; a; c]) in
    RealVoxelCloud.make (take 3 (transpose G [1; 0; 2]) nonzero)
      (CoordinateList.make (take 3 coordinates nonzero)) vs.
Proof.
  assert (Es : shape (transpose G [1; 0; 2]) = [b; a; c]).
  { unfold transpose. simpl. now rewrite Hshape. }
  assert (Ew : forall f : Qc -> bool,
             where_ (amap f (transpose G [1; 0; 2]))
             = filter (fun idx => f (get G (source_index [1; 0; 2] idx)))
                      (indices [b; a; c])).
  { intros f. unfold transpose. rewrite where_amap_tabulate.
    now rewrite Hshape. }
  unfold cloud, coordinates, RealVoxelCloud.from_real_voxel_grid, RealVoxelCloud.__init__.
  rewrite Ew, Es. reflexivity.
Qed.

(** No voxel above the tolerance: nothing is retained. *)
Lemma cloud_of_negligible_grid :
  (forall idx, in_bounds [a; b; c] idx = true ->
               isclose (get G idx) 0%Qc rtol atol = true) ->
  RealVoxelCloud.voxel_weights cloud = mk_ndarray [0] []
  /\ CoordinateList.array (RealVoxelCloud.coordinate_list cloud)
     = mk_ndarray (0 :: skipn 3 (shape coordinates)) [].
Proof.
  intros Hall. rewrite cloud_unfold. cbv zeta.
  rewrite filter_none.
  - split; reflexivity.
  - intros idx Hin. apply in_bounds_indices in Hin.
    destruct (in_bounds_3 _ _ _ _ Hin) as (j & i & k & -> & Hj & Hi & Hk).
    cbv beta. rewrite source_index_102. rewrite Hall; [reflexivity|].
    now apply in_bounds_3_intro.
Qed.

(** Exactly one voxel above the tolerance: it is the one point kept, with
    the coordinate found at its place in the transposed grid. *)
Lemma cloud_of_single_voxel (i j k : nat) :
  in_bounds [a; b; c] [i; j; k] = true ->
  isclose (get G [i; j; k]) 0%Qc rtol atol = false ->
  (forall idx, in_bounds [a; b; c] idx = true -> idx <> [i; j; k] ->
               isclose (get G idx) 0%Qc rtol atol = true) ->
  RealVoxelCloud.voxel_weights cloud = mk_ndarray [1] [get G [i; j; k]]
  /\ CoordinateList.array (RealVoxelCloud.coordinate_list cloud)
     = take 3 coordinates [[j; i; k]].
Proof.
  intros Hin Hfar Hothers. rewrite cloud_unfold. cbv zeta.
  destruct (in_bounds_3 _ _ _ _ Hin) as (i' & j' & k' & [= <- <- <-] & Hi & Hj & Hk).
  rewrite (@filter_single _ _ _ [j; i; k]).
  - split; [|reflexivity].
    unfold take. simpl. f_equal. f_equal.
    now apply (@get_transpose_102 _ _ G a b c).
  - apply NoDup_indices.
  - apply in_indices. now apply in_bounds_3_intro.
  - cbv beta. rewrite source_index_102. now rewrite Hfar.
  - intros idx Hidx Hne. apply in_bounds_indices in Hidx.
    destruct (in_bounds_3 _ _ _ _ Hidx) as (j' & i' & k' & -> & Hj' & Hi' & Hk').
    cbv beta. rewrite source_index_102. rewrite Hothers; [reflexivity| |].
    + now apply in_bounds_3_intro.
    + intros [= -> -> ->]. now apply Hne.
Qed.

End Cloud.

(** C9, with the tolerance taken into account: under the default
    tolerances a voxel [v] is discarded exactly when
    [|v - 0| <= atol + rtol * |0|], that is when [|v| <= 1e-08]; an
    all-zero grid yields no point; a grid with exactly one voxel of
    magnitude above [atol], the others being within [atol] of zero, yields
    exactly one point, whose value is that voxel and whose coordinate is
    the entry of the coordinate grid at the voxel's place in the
    transposed grid. *)
Theorem cloud_keeps_the_voxels_above_atol {C : Collaborators}
    (G : ndarray Qc) (vs : Qc) (coordinate_grid : option CoordinateGrid.t)
    (a b c : nat) (Hshape : shape G = [a; b; c]) :
  let rtol := RealVoxelCloud.default_rtol in
  let atol := RealVoxelCloud.default_atol in
  let cloud := RealVoxelCloud.from_real_voxel_grid G vs coordinate_grid rtol atol in
  let coordinates :=
    CoordinateGrid.get
      match coordinate_grid with
      | None => new_CoordinateGrid [b; a; c]
      | Some g => g
      end in
  (forall v, isclose v 0%Qc rtol atol = true
             <-> (Qcabs (v - 0) <= atol + rtol * Qcabs 0)%Qc)
  /\ (forall v, isclose v 0%Qc rtol atol = true <-> (Qcabs v <= q_frac 1 100000000)%Qc)
  /\ ((forall idx, in_bounds [a; b; c] idx = true -> get G idx = 0%Qc) ->
      RealVoxelCloud.voxel_weights cloud = mk_ndarray [0] []
      /\ CoordinateList.array (RealVoxelCloud.coordinate_list cloud)
         = mk_ndarray (0 :: skipn 3 (shape coordinates)) [])
  /\ (forall i j k,
      in_bounds [a; b; c] [i; j; k] = true ->
      (atol < Qcabs (get G [i; j; k]))%Qc ->
      (forall idx, in_bounds [a; b; c] idx = true -> idx <> [i; j; k] ->
                   (Qcabs (get G idx) <= atol)%Qc) ->
      RealVoxelCloud.voxel_weights cloud = mk_ndarray [1] [get G [i; j; k]]
      /\ CoordinateList.array (RealVoxelCloud.coordinate_list cloud)
         = take 3 coordinates [[j; i; k]]).
Proof.
  intros rtol atol cloud coordinates.
  split; [|split; [|split]].
  - intros v. unfold isclose. apply qle_iff.
  - intros v. apply isclose_zero.
  - intros Hzero. apply (@cloud_of_negligible_grid _ G vs coordinate_grid rtol atol a b c Hshape).
    intros idx Hidx. rewrite (Hzero idx Hidx). vm_compute. reflexivity.
  - intros i j k Hin Hfar Hothers.
    apply (@cloud_of_single_voxel _ G vs coordinate_grid rtol atol a b c Hshape i j k Hin).
    + destruct (isclose (get G [i; j; k]) 0%Qc rtol atol) eqn:E; [|reflexivity].
      apply isclose_zero in E. exfalso. now apply (Qclt_not_le _ _ Hfar).
    + intros idx Hidx Hne. apply isclose_zero. now apply Hothers.
Qed.

Lemma cloud_keeps_the_voxels_above_atol_witness :
  let G := mk_ndarray [1; 1; 1] [1%Qc] in
  shape G = [1; 1; 1]
  /\ RealVoxelCloud.voxel_weights
       (@RealVoxelCloud.from_real_voxel_grid sample_collaborators G 1%Qc None
          RealVoxelCloud.default_rtol RealVoxelCloud.default_atol)
     = mk_ndarray [1] [get G [0; 0; 0]].
Proof.
  intros G. split; [reflexivity|].
  refine (proj1 (proj2 (proj2 (proj2
    (@cloud_keeps_the_voxels_above_atol sample_collaborators G 1%Qc None 1 1 1 eq_refl)))
    0 0 0 eq_refl _ _)).
  - vm_compute. reflexivity.
  - intros idx Hidx Hne. exfalso. apply Hne.
    destruct idx as [|[|i] [|[|j] [|[|k] [|e idx]]]]; try discriminate. reflexivity.
Defined.

(** C9 as stated fails: the only voxel of this grid is nonzero, [1e-09],
    and no point is retained. *)
Lemma tiny_nonzero_voxel_is_discarded :
  let G := mk_ndarray [1; 1; 1] [q_frac 1 1000000000] in
  get G [0; 0; 0] <> 0%Qc
  /\ RealVoxelCloud.voxel_weights
       (@RealVoxelCloud.from_real_voxel_grid sample_collaborators G 1%Qc None
          RealVoxelCloud.default_rtol RealVoxelCloud.default_atol)
     = mk_ndarray [0] []
  /\ CoordinateList.array
       (RealVoxelCloud.coordinate_list
          (@RealVoxelCloud.from_real_voxel_grid sample_collaborators G 1%Qc None
             RealVoxelCloud.default_rtol RealVoxelCloud.default_atol))
     = mk_ndarray [0; 3] [].
Proof.
  intros G. split; [|split].
  - intros E. apply (f_equal this) in E. vm_compute in E. discriminate.
  - vm_compute. reflexivity.
  - vm_compute. reflexivity.
Qed.

(** ** Element-wise operations, element by element *)

Lemma length_zip_with {A B D} (f : A -> B -> D) (l : list A) (m : list B) :
  length (zip_with f l m) = Nat.min (length l) (length m).
Proof.
  revert m; induction l as [|a l IH]; intros [|b m]; simpl; auto.
Qed.

Lemma nth_zip_with {A B D} (f : A -> B -> D) (l : list A) (m : list B)
    (p : nat) (da : A) (db : B) (dd : D) :
  p < length l -> p < length m ->
  nth p (zip_with f l m) dd = f (nth p l da) (nth p m db).
Proof.
  revert m p; induction l as [|a l IH]; intros [|b m] [|p]; simpl; intros Hl Hm;
    try lia; auto.
  apply IH; lia.
Qed.

Lemma nth_map_in_range {A B} (f : A -> B) (l : list A) (p : nat) (da : A) (db : B) :
  p < length l -> nth p (map f l) db = f (nth p l da).
Proof.
  intros Hp. rewrite (nth_indep _ db (f da)) by now rewrite length_map.
  apply map_nth.
Qed.

Lemma wf_amap {A B} (f : A -> B) (x : ndarray A) : wf x -> wf (amap f x).
Proof. unfold wf, amap; simpl. now rewrite length_map. Qed.

Lemma get_amap {A B} `{Default A} `{Default B} (f : A -> B) (x : ndarray A)
    (idx : list nat) :
  wf x -> in_bounds (shape x) idx = true -> get (amap f x) idx = f (get x idx).
Proof.
  intros Hwf Hb. unfold get, amap; simpl.
  apply nth_map_in_range. rewrite Hwf. now apply ravel_lt.
Qed.

Lemma wf_azip {A B D} (f : A -> B -> D) (x : ndarray A) (y : ndarray B) :
  wf x -> wf y -> shape x = shape y -> wf (azip f x y).
Proof.
  unfold wf, azip; simpl. intros Hx Hy Hs.
  rewrite length_zip_with, Hx, Hy, Hs. apply Nat.min_id.
Qed.

Lemma get_azip {A B D} `{Default A} `{Default B} `{Default D}
    (f : A -> B -> D) (x : ndarray A) (y : ndarray B) (idx : list nat) :
  wf x -> wf y -> shape x = shape y -> in_bounds (shape x) idx = true ->
  get (azip f x y) idx = f (get x idx) (get y idx).
Proof.
  intros Hx Hy Hs Hb. unfold get, azip; simpl. rewrite <- Hs.
  apply nth_zip_with.
  - rewrite Hx. now apply ravel_lt.
  - rewrite Hy, <- Hs. now apply ravel_lt.
Qed.

Lemma wf_full {A} (sh : list nat) (a : A) : wf (full sh a).
Proof. unfold wf, full; simpl. apply repeat_length. Qed.

Lemma get_full {A} `{Default A} (sh : list nat) (a : A) (idx : list nat) :
  in_bounds sh idx = true -> get (full sh a) idx = a.
Proof.
  intros Hb. unfold get, full; simpl.
  apply nth_repeat_lt. now apply ravel_lt.
Qed.

Lemma in_bounds_app (sh sh' idx idx' : list nat) :
  in_bounds sh idx = true -> in_bounds sh' idx' = true ->
  in_bounds (sh ++ sh') (idx ++ idx') = true.
Proof.
  revert idx; induction sh as [|n sh IH]; intros [|i idx]; simpl; try discriminate; auto.
  rewrite !andb_true_iff. intros [Hi Hb] Hb'. auto.
Qed.

(** ** Atom rasterisation *)

Lemma get_fold_azip (sh : list nat) (l : list (ndarray R)) (init : ndarray R)
    (idx : list nat) :
  wf init -> shape init = sh ->
  Forall (fun x => wf x /\ shape x = sh) l ->
  in_bounds sh idx = true ->
  wf (fold_left (azip Rplus) l init)
  /\ shape (fold_left (azip Rplus) l init) = sh
  /\ get (fold_left (azip Rplus) l init) idx
     = fold_left Rplus (map (fun x => get x idx) l) (get init idx).
Proof.
  intros Hwf Hs Hl Hb. revert init Hwf Hs.
  induction Hl as [|x l [Hx Hxs] Hl IH]; intros init Hwf Hs; simpl; [auto|].
  destruct (IH (azip Rplus init x)) as (Hw' & Hs' & Hg').
  - apply wf_azip; auto. congruence.
  - exact Hs.
  - split; [exact Hw'|]. split; [exact Hs'|].
    rewrite Hg'. f_equal. apply get_azip; auto; congruence.
Qed.

Lemma zip_with_as_map {A B D} (f : A -> B -> D) (l : list A) (m : list B)
    (n : nat) (da : A) (db : B) :
  length l = n -> length m = n ->
  zip_with f l m = map (fun t => f (nth t l da) (nth t m db)) (seq 0 n).
Proof.
  revert m n; induction l as [|a l IH]; intros [|b m] [|n]; simpl; try discriminate; auto.
  intros [= Hl] [= Hm]. f_equal. rewrite <- seq_shift, map_map. now apply IH.
Qed.

Lemma length_row {A} (x : ndarray A) (n m i : nat) :
  wf x -> shape x = [n; m] -> i < n -> length (row x i) = m.
Proof.
  unfold wf, row. intros Hwf Hs Hi. rewrite Hs in *. simpl in *.
  rewrite Nat.mul_1_r in *.
  rewrite length_firstn, length_skipn. nia.
Qed.

Section Rasteriser.

Variables (grid : ndarray R) (sh : list nat).
Hypothesis Hgrid : shape grid = sh ++ [3].

Lemma shape_gaussian (p : list R) (a b : R) :
  wf (evaluate_3d_real_space_gaussian grid p a b)
  /\ shape (evaluate_3d_real_space_gaussian grid p a b) = sh.
Proof.
  unfold evaluate_3d_real_space_gaussian, sum_last_axis. split.
  - apply wf_amap, wf_tabulate.
  - simpl. rewrite Hgrid. apply removelast_last.
Qed.

(** One Gaussian, at one grid point. *)
Lemma get_gaussian (p : list R) (a b : R) (idx : list nat) :
  in_bounds sh idx = true ->
  get (evaluate_3d_real_space_gaussian grid p a b) idx
  = gaussian_term a b (grid_point grid idx) p.
Proof.
  intros Hb. unfold evaluate_3d_real_space_gaussian.
  assert (E : forall um : ndarray R, shape um = shape grid ->
            shape (sum_last_axis um) = sh).
  { intros um Hum. unfold sum_last_axis. simpl. rewrite Hum, Hgrid.
    apply removelast_last. }
  rewrite get_amap.
  2: { unfold sum_last_axis. apply wf_tabulate. }
  2: { rewrite E; [exact Hb | reflexivity]. }
  unfold sum_last_axis at 1. simpl shape. rewrite Hgrid.
  rewrite removelast_last, last_last.
  rewrite get_tabulate by exact Hb.
  assert (Hc : forall c, c < 3 ->
    get (amap (fun v => (4 * PI / b * v ^ 2)%R) (sub_last_axis grid p)) (idx ++ [c])
    = (4 * PI / b * (get grid (idx ++ [c]) - nth c p 0) ^ 2)%R).
  { intros c Hc.
    assert (Hbc : in_bounds (sh ++ [3]) (idx ++ [c]) = true).
    { apply in_bounds_app; [exact Hb|]. simpl.
      apply Nat.ltb_lt in Hc. now rewrite Hc. }
    rewrite get_amap.
    - unfold sub_last_axis. rewrite Hgrid, get_tabulate by exact Hbc.
      now rewrite last_last.
    - apply wf_tabulate.
    - unfold sub_last_axis. simpl. now rewrite Hgrid. }
  simpl map. rewrite !Hc by lia.
  unfold gaussian_term, grid_point, squared_distance, rsum. simpl.
  rewrite (Rmult_comm (exp _ * a) _), (Rmult_comm (exp _) a), <- Rmult_assoc.
  rewrite (Rmult_comm (Rpower _ _) a).
  f_equal. f_equal. ring.
Qed.

(** One atom, at one grid point: the sum of its five terms. *)
Lemma get_atom_potential (p as_ bs : list R) (idx : list nat) :
  length as_ = 5 -> length bs = 5 ->
  in_bounds sh idx = true ->
  wf (evaluate_3d_atom_potential grid p as_ bs)
  /\ shape (evaluate_3d_atom_potential grid p as_ bs) = sh
  /\ get (evaluate_3d_atom_potential grid p as_ bs) idx
     = atom_potential_at as_ bs (grid_point grid idx) p.
Proof.
  intros Ha Hbs Hb. unfold evaluate_3d_atom_potential, sum_axis0.
  rewrite Hgrid, removelast_last.
  destruct (@get_fold_azip sh
              (zip_with (evaluate_3d_real_space_gaussian grid p) as_ bs)
              (full sh 0%R) idx) as (Hw & Hs & Hg).
  - apply wf_full.
  - reflexivity.
  - rewrite (zip_with_as_map _ as_ bs 0%R 0%R Ha Hbs).
    apply Forall_forall. intros x Hx. apply in_map_iff in Hx as (t & <- & _).
    apply shape_gaussian.
  - exact Hb.
  - split; [exact Hw|]. split; [exact Hs|].
    rewrite Hg, get_full by exact Hb.
    unfold atom_potential_at, rsum. f_equal.
    rewrite (zip_with_as_map _ as_ bs 0%R 0%R Ha Hbs), map_map.
    apply map_ext. intros t. now apply get_gaussian.
Qed.

End Rasteriser.

Lemma fold_left_map_r {A B S} (f : S -> B -> S) (g : A -> B) (l : list A) (init : S) :
  fold_left (fun acc i => f acc (g i)) l init = fold_left f (map g l) init.
Proof.
  revert init; induction l as [|a l IH]; intros init; simpl; auto.
Qed.

(** C8: [build_real_space_voxels_from_atoms] is the left fold, over the
    atoms in order and from the zero grid, of the addition of
    [evaluate_3d_atom_potential]; its shape is that of the three leading
    axes of the coordinate grid; each atom's potential is, at every grid
    point [x], the sum over its five terms of
    [a * (4 pi / b)^1.5 * exp(- pi * (4 pi / b) * |x - pos|^2)]; and the
    grid built is, at every grid point, the sum of these over all atoms. *)
Theorem build_real_space_voxels_is_the_sum_of_gaussians
    (atom_positions ff_a ff_b grid : ndarray R) (n1 n2 n3 N : nat)
    (Hgrid : shape grid = [n1; n2; n3; 3])
    (Hpos : shape atom_positions = [N; 3])
    (Hwa : wf ff_a) (Ha : shape ff_a = [N; 5])
    (Hwb : wf ff_b) (Hb : shape ff_b = [N; 5]) :
  let atom := fun i =>
    evaluate_3d_atom_potential grid (row atom_positions i) (row ff_a i) (row ff_b i) in
  build_real_space_voxels_from_atoms atom_positions ff_a ff_b grid
  = fold_left (fun potential i => azip Rplus potential (atom i)) (seq 0 N)
              (full [n1; n2; n3] 0%R)
  /\ shape (build_real_space_voxels_from_atoms atom_positions ff_a ff_b grid)
     = [n1; n2; n3]
  /\ (forall i idx, i < N -> in_bounds [n1; n2; n3] idx = true ->
        get (atom i) idx
        = rsum (map (fun t =>
                  gaussian_term (nth t (row ff_a i) 0%R) (nth t (row ff_b i) 0%R)
                                (grid_point grid idx) (row atom_positions i))
                (seq 0 5)))
  /\ (forall idx, in_bounds [n1; n2; n3] idx = true ->
        get (build_real_space_voxels_from_atoms atom_positions ff_a ff_b grid) idx
        = potential_at atom_positions ff_a ff_b (grid_point grid idx)).
Proof.
  intros atom.
  assert (Hg : shape grid = [n1; n2; n3] ++ [3]) by exact Hgrid.
  assert (Hbuild :
    build_real_space_voxels_from_atoms atom_positions ff_a ff_b grid
    = fold_left (azip Rplus) (map atom (seq 0 N)) (full [n1; n2; n3] 0%R)).
  { unfold build_real_space_voxels_from_atoms, fori_loop.
    rewrite Hpos, Hgrid. simpl nth. rewrite Nat.sub_0_r.
    change (removelast [n1; n2; n3; 3]) with [n1; n2; n3].
    apply fold_left_map_r. }
  assert (Hatoms : forall idx, in_bounds [n1; n2; n3] idx = true ->
    Forall (fun x => wf x /\ shape x = [n1; n2; n3]) (map atom (seq 0 N))).
  { intros idx Hidx. apply Forall_forall. intros x Hx.
    apply in_map_iff in Hx as (i & <- & Hi). apply in_seq in Hi.
    destruct (@get_atom_potential grid [n1; n2; n3] Hg
                (row atom_positions i) (row ff_a i) (row ff_b i) idx)
      as (Hw & Hs & _); auto.
    - apply (length_row Hwa Ha). lia.
    - apply (length_row Hwb Hb). lia. }
  split; [|split; [|split]].
  - rewrite Hbuild. symmetry. apply fold_left_map_r.
  - rewrite Hbuild.
    assert (Hsh : forall (l : list (ndarray R)) init,
              shape (fold_left (azip Rplus) l init) = shape init).
    { induction l as [|x l IH]; intros init; simpl; [reflexivity|].
      now rewrite IH. }
    now rewrite Hsh.
  - intros i idx Hi Hidx.
    destruct (@get_atom_potential grid [n1; n2; n3] Hg
                (row atom_positions i) (row ff_a i) (row ff_b i) idx)
      as (_ & _ & Hget); auto.
    + now apply (length_row Hwa Ha).
    + now apply (length_row Hwb Hb).
  - intros idx Hidx. rewrite Hbuild.
    destruct (@get_fold_azip [n1; n2; n3] (map atom (seq 0 N))
                (full [n1; n2; n3] 0%R) idx) as (_ & _ & Hget).
    + apply wf_full.
    + reflexivity.
    + now apply (Hatoms idx).
    + exact Hidx.
    + rewrite Hget, get_full by exact Hidx.
      unfold potential_at, rsum. rewrite Hpos. simpl nth.
      f_equal. rewrite map_map. apply map_ext_in.
      intros i Hi. apply in_seq in Hi.
      destruct (@get_atom_potential grid [n1; n2; n3] Hg
                  (row atom_positions i) (row ff_a i) (row ff_b i) idx)
        as (_ & _ & Hgi); auto.
      * apply (length_row Hwa Ha). lia.
      * apply (length_row Hwb Hb). lia.
Qed.

Lemma build_real_space_voxels_is_the_sum_of_gaussians_witness :
  let grid := mk_ndarray [1; 1; 1; 3] [0%R; 0%R; 0%R] in
  let atom_positions := mk_ndarray [1; 3] [0%R; 0%R; 0%R] in
  let ff := mk_ndarray [1; 5] [1%R; 1%R; 1%R; 1%R; 1%R] in
  shape grid = [1; 1; 1; 3] /\ shape atom_positions = [1; 3]
  /\ wf ff /\ shape ff = [1; 5]
  /\ shape (build_real_space_voxels_from_atoms atom_positions ff ff grid) = [1; 1; 1]
  /\ get (build_real_space_voxels_from_atoms atom_positions ff ff grid) [0; 0; 0]
     = potential_at atom_positions ff ff (grid_point grid [0; 0; 0]).
Proof.
  intros grid atom_positions ff.
  pose proof (@build_real_space_voxels_is_the_sum_of_gaussians
                atom_positions ff ff grid 1 1 1 1
                eq_refl eq_refl eq_refl eq_refl eq_refl eq_refl) as H.
  do 4 (split; [reflexivity|]).
  split.
  - exact (proj1 (proj2 H)).
  - exact (proj2 (proj2 (proj2 H)) [0; 0; 0] eq_refl).
Defined.

(** ** [vmap]: a function of vectors applied along one axis *)

Lemma in_bounds_cons (n : nat) (sh : list nat) (i : nat) (idx : list nat) :
  in_bounds (n :: sh) (i :: idx) = true <-> i < n /\ in_bounds sh idx = true.
Proof. simpl. now rewrite andb_true_iff, Nat.ltb_lt. Qed.

Lemma in_bounds_app_inv (sh sh' idx : list nat) :
  in_bounds (sh ++ sh') idx = true ->
  exists p r, idx = p ++ r /\ in_bounds sh p = true /\ in_bounds sh' r = true.
Proof.
  revert idx; induction sh as [|n sh IH]; intros idx Hb; simpl in *.
  - now exists [], idx.
  - destruct idx as [|i idx]; [discriminate|].
    apply andb_true_iff in Hb as [Hi Hb].
    destruct (IH _ Hb) as (p & r & -> & Hp & Hr).
    exists (i :: p), r. simpl. now rewrite Hi, Hp.
Qed.

Section VmapNest.

Context {F : Type} `{Default F}.

(** [f] maps vectors of length [n] to vectors of length [L]. *)
Variables (f : list F -> list F) (n L : nat).
Hypothesis Hf : forall l, length l = n -> length (f l) = L.

Lemma on_vector_applies : applies_along f n L [] [] (on_vector f).
Proof.
  intros [sh dt] Hwf Hs. simpl in *. subst sh. unfold wf in Hwf. simpl in Hwf.
  rewrite Nat.mul_1_r in Hwf.
  unfold on_vector. simpl. split; [|split].
  - unfold wf. simpl. lia.
  - now rewrite (Hf _ Hwf).
  - intros p i r Hp Hi Hr.
    destruct p; [|discriminate]. destruct r; [|discriminate].
    unfold get. simpl. rewrite Nat.mul_1_r, Nat.add_0_r. f_equal. f_equal.
    rewrite <- Hwf. clear.
    apply nth_ext with (d := default) (d' := default).
    + now rewrite length_map, length_seq.
    + intros t Ht.
      rewrite (nth_map_in_range _ _ 0) by now rewrite length_seq.
      rewrite seq_nth by exact Ht. simpl.
      now rewrite Nat.mul_1_r, Nat.add_0_r.
Qed.

Lemma vmap1_applies (n1 : nat) (rest : list nat) (fn : ndarray F -> ndarray F) :
  applies_along f n L [] rest fn -> applies_along f n L [] (n1 :: rest) (vmap fn 1).
Proof.
  intros Hfn x Hwf Hs. simpl in Hs.
  assert (Hslice : forall j, wf (slice_axis 1 j x)
                             /\ shape (slice_axis 1 j x) = [] ++ n :: rest).
  { intros j. unfold slice_axis. split; [apply wf_tabulate|].
    simpl. now rewrite Hs. }
  unfold vmap. rewrite Hs. simpl nth.
  destruct (Hfn _ (proj1 (Hslice 0)) (proj2 (Hslice 0))) as (_ & Hs0 & _).
  rewrite Hs0. simpl insert_at.
  split; [apply wf_tabulate|]. split; [reflexivity|].
  intros p i r Hp Hi Hr.
  destruct p; [|discriminate]. simpl app.
  destruct r as [|j r]; [discriminate|].
  apply in_bounds_cons in Hr as [Hj Hr].
  rewrite get_tabulate.
  2: { apply in_bounds_cons. split; [exact Hi|].
       apply in_bounds_cons. now split. }
  simpl nth. unfold remove_at. cbn [firstn skipn app].
  destruct (Hfn _ (proj1 (Hslice j)) (proj2 (Hslice j))) as (_ & _ & Hg).
  pose proof (Hg [] i r eq_refl Hi Hr) as Hg'. simpl app in Hg'.
  rewrite Hg'.
  f_equal. f_equal. apply map_ext_in. intros t Ht. apply in_seq in Ht.
  unfold slice_axis. rewrite Hs. unfold remove_at, insert_at. cbn [firstn skipn app].
  rewrite get_tabulate; [reflexivity|].
  apply in_bounds_cons. split; [lia | exact Hr].
Qed.

Lemma vmap0_applies (n0 : nat) (pre rest : list nat) (fn : ndarray F -> ndarray F) :
  applies_along f n L pre rest fn -> applies_along f n L (n0 :: pre) rest (vmap fn 0).
Proof.
  intros Hfn x Hwf Hs. simpl in Hs.
  assert (Hslice : forall j, wf (slice_axis 0 j x)
                             /\ shape (slice_axis 0 j x) = pre ++ n :: rest).
  { intros j. unfold slice_axis. split; [apply wf_tabulate|].
    simpl. now rewrite Hs. }
  unfold vmap. rewrite Hs. simpl nth.
  destruct (Hfn _ (proj1 (Hslice 0)) (proj2 (Hslice 0))) as (_ & Hs0 & _).
  rewrite Hs0. simpl insert_at.
  split; [apply wf_tabulate|]. split; [reflexivity|].
  intros p i r Hp Hi Hr.
  destruct p as [|j p]; [discriminate|].
  apply in_bounds_cons in Hp as [Hj Hp].
  simpl app. rewrite get_tabulate.
  2: { apply in_bounds_cons. split; [exact Hj|].
       apply in_bounds_app; [exact Hp|]. apply in_bounds_cons. now split. }
  simpl nth. unfold remove_at. cbn [firstn skipn app].
  destruct (Hfn _ (proj1 (Hslice j)) (proj2 (Hslice j))) as (_ & _ & Hg).
  rewrite (Hg p i r Hp Hi Hr).
  f_equal. f_equal. apply map_ext_in. intros t Ht. apply in_seq in Ht.
  unfold slice_axis. rewrite Hs. unfold remove_at, insert_at. cbn [firstn skipn app].
  rewrite get_tabulate; [reflexivity|].
  apply in_bounds_app; [exact Hp|]. apply in_bounds_cons. split; [lia | exact Hr].
Qed.

Lemma nest_applies (pre rest : list nat) :
  applies_along f n L pre rest
    (nest (repeat 0 (length pre) ++ repeat 1 (length rest)) (on_vector f)).
Proof.
  unfold nest. rewrite fold_right_app.
  induction pre as [|n0 pre IH]; simpl.
  - induction rest as [|n1 rest IH]; simpl.
    + apply on_vector_applies.
    + now apply vmap1_applies.
  - now apply vmap0_applies.
Qed.

(** The loop over [j] of [_spline_coefficients] builds that nest. *)
Lemma inner_loop_is_nest (pre rest : list nat) (base : ndarray F -> ndarray F) :
  let ndim := length pre + 1 + length rest in
  let axis := length pre in
  fold_left (fun fn j => let ax := if axis <=? j then 1 else 0 in vmap fn ax)
            (rev (seq 0 (ndim - 1))) base
  = nest (repeat 0 (length pre) ++ repeat 1 (length rest)) base.
Proof.
  intros ndim axis. unfold nest.
  rewrite <- fold_left_rev_right, rev_involutive.
  replace (ndim - 1) with (length pre + length rest) by (unfold ndim; lia).
  rewrite seq_app, !fold_right_app. simpl.
  assert (E1 : forall (g : ndarray F -> ndarray F) s m,
            axis <= s ->
            fold_right (fun j fn => vmap fn (if axis <=? j then 1 else 0)) g (seq s m)
            = fold_right (fun ax fn => vmap fn ax) g (repeat 1 m)).
  { intros g s m. revert s. induction m as [|m IH]; intros s Hs; simpl; [reflexivity|].
    rewrite IH by lia. apply Nat.leb_le in Hs. now rewrite Hs. }
  assert (E0 : forall (g : ndarray F -> ndarray F) s m,
            s + m <= axis ->
            fold_right (fun j fn => vmap fn (if axis <=? j then 1 else 0)) g (seq s m)
            = fold_right (fun ax fn => vmap fn ax) g (repeat 0 m)).
  { intros g s m. revert s. induction m as [|m IH]; intros s Hs; simpl; [reflexivity|].
    rewrite IH by lia.
    assert (Hlt : (axis <=? s) = false) by (apply Nat.leb_gt; lia).
    now rewrite Hlt. }
  rewrite (E1 base (length pre) (length rest)) by (unfold axis; lia).
  apply E0. unfold axis. lia.
Qed.

End VmapNest.

(** ** The spline coefficients: shapes *)

Lemma length_replace_nth {A} (n : nat) (v : A) (l : list A) :
  length (replace_nth n v l) = length l.
Proof.
  revert n; induction l as [|a l IH]; intros [|n]; simpl; auto.
Qed.

Lemma length_at_set {A} (l : list A) (i : Z) (v : A) :
  length (at_set l i v) = length l.
Proof.
  unfold at_set.
  destruct (_ <? 0)%Z; [reflexivity | apply length_replace_nth].
Qed.

Lemma length_interior {A} (l : list A) : length (interior l) = length l - 2.
Proof.
  unfold interior. destruct l as [|a l]; [reflexivity|]. simpl tl.
  destruct l as [|b l] using rev_ind; [reflexivity|].
  rewrite removelast_last. simpl. rewrite length_app. simpl. lia.
Qed.

Lemma split_at {A} (a : nat) (l : list A) (d : A) :
  a < length l -> l = firstn a l ++ nth a l d :: skipn (S a) l.
Proof.
  revert a; induction l as [|x l IH]; intros [|a] Ha; simpl in *; try lia; auto.
  f_equal. apply IH. lia.
Qed.

(** Folding fallible steps numbered from [0]: an invariant kept by every
    step holds at the end, and no step fails. *)
Lemma fold_result_steps {S} (step : S -> nat -> result S) (Inv : nat -> S -> Prop)
    (d : nat) (init : S) :
  Inv 0 init ->
  (forall i x, i < d -> Inv i x -> exists y, step x i = Ok y /\ Inv (1 + i) y) ->
  exists y, fold_left (fun acc i => x <- acc ;; step x i) (seq 0 d) (Ok init) = Ok y
            /\ Inv d y.
Proof.
  intros H0 Hstep.
  assert (G : forall m s x, s + m = d -> Inv s x ->
            exists y, fold_left (fun acc i => x <- acc ;; step x i) (seq s m) (Ok x) = Ok y
                      /\ Inv d y).
  { induction m as [|m IH]; intros s x Hsm Hx; simpl.
    - exists x. split; [reflexivity|]. replace d with s by lia. exact Hx.
    - destruct (Hstep s x) as (y & Hy & Hinv); [lia | exact Hx|].
      rewrite Hy. apply IH; [lia | exact Hinv]. }
  now apply (G d 0 init).
Qed.

Section SplineShapes.

Context {F : Type} `{Scalar F} `{Default F}.

Lemma length_thomas (rows : list (F * F * F * F)) (cp dp : F) :
  length (thomas cp dp rows) = length rows.
Proof.
  revert cp dp; induction rows as [|[[[l b] u] y] rows IH]; intros cp dp; simpl;
    [reflexivity|].
  specialize (IH (sdiv u (ssub b (smul l cp)))
                 (sdiv (ssub y (smul l dp)) (ssub b (smul l cp)))).
  destruct (thomas _ _ rows) as [|x1 xs]; simpl in *; lia.
Qed.

Lemma length_rows_of (ls bs us ys : list F) (m : nat) :
  length ls = m -> length bs = m -> length us = m -> length ys = m ->
  length (rows_of ls bs us ys) = m.
Proof.
  revert bs us ys m; induction ls as [|l ls IH];
    intros [|b bs] [|u us] [|y ys] [|m]; simpl; try discriminate; auto.
Qed.

Lemma build_operator_ok (m : nat) :
  1 <= m ->
  _build_operator (Z.of_nat m)
  = Ok (mk_tridiagonal (repeat (of_Qc (q_of_Z 4)) m)
          (repeat (of_Qc 1%Qc) (m - 1)) (repeat (of_Qc 1%Qc) (m - 1))).
Proof.
  intros Hm. unfold _build_operator.
  assert (E : (Z.of_nat m - 1 <? 0)%Z = false) by (apply Z.ltb_ge; lia).
  rewrite E. do 2 f_equal.
  - now rewrite Nat2Z.id.
  - f_equal. lia.
  - f_equal. lia.
Qed.

Lemma build_operator_fails (n : Z) :
  (n < 1)%Z -> @_build_operator F _ n = Raise TypeError.
Proof.
  intros Hn. unfold _build_operator.
  assert (E : (n - 1 <? 0)%Z = true) by (apply Z.ltb_lt; lia).
  now rewrite E.
Qed.

Lemma length_linear_solve (n : nat) (vector : list F) :
  3 <= n -> length vector = n - 2 ->
  length (linear_solve (axis_operator n) vector) = n - 2.
Proof.
  intros Hn Hv. unfold linear_solve. rewrite length_thomas.
  apply length_rows_of; simpl; rewrite ?length_app, ?repeat_length; simpl; lia.
Qed.

Lemma length_solve_coefficients (n : nat) (data : list F) :
  3 <= n -> length data = n ->
  length (_solve_coefficients data (axis_operator n)) = n + 2.
Proof.
  intros Hn Hd. unfold _solve_coefficients.
  cbv zeta. rewrite !length_app, length_linear_solve; simpl; try lia.
  unfold _construct_vector. now rewrite !length_at_set, length_interior, Hd.
Qed.

(** One turn of the outer loop: the solve is applied along its axis. *)
Lemma spline_coefficients_axis_applies (data : ndarray F) (pre rest : list nat) (n : nat) :
  3 <= n -> shape data = pre ++ n :: rest ->
  exists fn,
    _spline_coefficients_axis (length pre + 1 + length rest) data (length rest)
    = Ok (fn data)
    /\ applies_along (fun x => _solve_coefficients x (axis_operator n)) n (n + 2)
         pre rest fn.
Proof.
  intros Hn Hs. unfold _spline_coefficients_axis.
  replace (length pre + 1 + length rest - length rest - 1) with (length pre) by lia.
  rewrite Hs, nth_middle.
  replace (Z.of_nat n - 2)%Z with (Z.of_nat (n - 2)) by lia.
  rewrite build_operator_ok by lia. simpl bind.
  rewrite inner_loop_is_nest.
  eexists. split; [reflexivity|].
  apply nest_applies. intros l Hl. now apply length_solve_coefficients.
Qed.

Lemma coefficient_shape_step (sh : list nat) (i : nat) :
  i < length sh ->
  let a := length sh - i - 1 in
  coefficient_shape sh i
  = firstn a sh ++ nth a sh 0 :: map (fun s => s + 2) (skipn (S a) sh)
  /\ coefficient_shape sh (1 + i)
  = firstn a sh ++ (nth a sh 0 + 2) :: map (fun s => s + 2) (skipn (S a) sh)
  /\ length (firstn a sh) = a
  /\ length (map (fun s => s + 2) (skipn (S a) sh)) = i.
Proof.
  intros Hi a. unfold coefficient_shape.
  replace (length sh - i) with (S a) by (unfold a; lia).
  replace (length sh - (1 + i)) with a by (unfold a; lia).
  assert (Ha : a < length sh) by (unfold a; lia).
  split; [|split; [|split]].
  - rewrite (split_at sh 0 Ha) at 1.
    rewrite firstn_app, firstn_firstn, Nat.min_r by lia.
    rewrite length_firstn, Nat.min_l by lia.
    replace (S a - a) with 1 by lia. simpl.
    rewrite <- app_assoc. reflexivity.
  - rewrite (split_at sh 0 Ha) at 2.
    rewrite skipn_app, length_firstn, Nat.min_l by lia.
    rewrite Nat.sub_diag. simpl skipn at 2.
    rewrite skipn_firstn_comm, Nat.sub_diag. simpl. reflexivity.
  - rewrite length_firstn. lia.
  - rewrite length_map, length_skipn. unfold a. lia.
Qed.

(** The coefficient array of an array with at least three samples along
    every axis: two more along every axis. *)
Lemma spline_coefficients_shape (data : ndarray F) :
  wf data -> Forall (fun n => 3 <= n) (shape data) ->
  exists coefficients,
    _spline_coefficients data = Ok coefficients
    /\ wf coefficients
    /\ shape coefficients = map (fun s => s + 2) (shape data).
Proof.
  intros Hwf Hall. unfold _spline_coefficients.
  set (sh := shape data). unfold ndim. fold sh.
  destruct (@fold_result_steps _
              (fun x i => _spline_coefficients_axis (length sh) x i)
              (fun i x => wf x /\ shape x = coefficient_shape sh i)
              (length sh) data) as (y & Hy & Hwy & Hsy).
  - split; [exact Hwf|]. unfold coefficient_shape.
    rewrite Nat.sub_0_r, firstn_all, skipn_all. simpl. now rewrite app_nil_r.
  - intros i x Hi [Hwx Hsx].
    destruct (coefficient_shape_step sh Hi) as (E1 & E2 & L1 & L2).
    set (a := length sh - i - 1) in *.
    assert (Hn : 3 <= nth a sh 0).
    { rewrite Forall_forall in Hall. apply Hall. apply nth_In. fold sh. unfold a. lia. }
    rewrite E1 in Hsx.
    destruct (spline_coefficients_axis_applies x _ _ Hn Hsx) as (fn & Hfn & Happ).
    rewrite L1, L2 in Hfn.
    replace (a + 1 + i) with (length sh) in Hfn by (unfold a; lia).
    exists (fn x). split; [exact Hfn|].
    destruct (Happ x Hwx Hsx) as (Hw' & Hs' & _).
    split; [exact Hw'|]. now rewrite E2.
  - exists y. split; [exact Hy|]. split; [exact Hwy|].
    rewrite Hsy. unfold coefficient_shape.
    now rewrite Nat.sub_diag.
Qed.

End SplineShapes.

(** ** The logical shape of the spline-coefficient grid *)

(** C3, as the code has it: for a Fourier grid with at least three samples
    along every axis, [FourierVoxelGridInterpolator(fourier_grid,
    frequency_slice, voxel_size)] stores coefficients of shape [s + 2] per
    axis, and its [shape] property, which subtracts [2] per axis, is the
    shape of [fourier_grid] itself. *)
Theorem interpolator_shape_is_the_grid_shape (fourier_grid : ndarray complex)
    (frequency_slice : FrequencySlice.t) (voxel_size : Qc)
    (Hwf : wf fourier_grid) (Hlen : Forall (fun n => 3 <= n) (shape fourier_grid)) :
  exists voxels,
    FourierVoxelGridInterpolator.__init__ fourier_grid frequency_slice voxel_size
    = Ok voxels
    /\ shape (FourierVoxelGridInterpolator.coefficients voxels)
       = map (fun s => s + 2) (shape fourier_grid)
    /\ FourierVoxelGridInterpolator.shape voxels = map Z.of_nat (shape fourier_grid).
Proof.
  unfold FourierVoxelGridInterpolator.__init__, compute_spline_coefficients.
  destruct (spline_coefficients_shape Hwf Hlen) as (coefficients & Hc & _ & Hs).
  rewrite Hc. simpl bind.
  eexists. split; [reflexivity|]. simpl.
  split; [exact Hs|].
  unfold FourierVoxelGridInterpolator.shape. simpl. rewrite Hs, map_map.
  apply map_ext. intros s. lia.
Qed.

Lemma interpolator_shape_is_the_grid_shape_witness :
  let fourier_grid := full [3; 3; 3] (1%Qc, 0%Qc) in
  let frequency_slice := FrequencySlice.make (full [3; 3; 3] 0%Qc) in
  wf fourier_grid /\ Forall (fun n => 3 <= n) (shape fourier_grid)
  /\ exists voxels,
       FourierVoxelGridInterpolator.__init__ fourier_grid frequency_slice 1%Qc
       = Ok voxels
       /\ shape (FourierVoxelGridInterpolator.coefficients voxels) = [5; 5; 5]
       /\ FourierVoxelGridInterpolator.shape voxels = [3; 3; 3]%Z.
Proof.
  intros fourier_grid frequency_slice.
  assert (Hwf : wf fourier_grid) by reflexivity.
  assert (Hlen : Forall (fun n => 3 <= n) (shape fourier_grid))
    by (repeat constructor).
  split; [exact Hwf|]. split; [exact Hlen|].
  exact (@interpolator_shape_is_the_grid_shape fourier_grid frequency_slice 1%Qc
           Hwf Hlen).
Defined.

(** C3 as stated fails: for a [3 x 3 x 3] grid the [shape] property is
    [(3, 3, 3)], not [(1, 1, 1)]. *)
Lemma interpolator_shape_is_not_two_less :
  let fourier_grid := full [3; 3; 3] (1%Qc, 0%Qc) in
  let frequency_slice := FrequencySlice.make (full [3; 3; 3] 0%Qc) in
  map (fun s => (Z.of_nat s - 2)%Z) (shape fourier_grid) = [1; 1; 1]%Z
  /\ exists voxels,
       FourierVoxelGridInterpolator.__init__ fourier_grid frequency_slice 1%Qc
       = Ok voxels
       /\ FourierVoxelGridInterpolator.shape voxels = [3; 3; 3]%Z.
Proof.
  intros fourier_grid frequency_slice. split; [reflexivity|].
  unfold FourierVoxelGridInterpolator.__init__, compute_spline_coefficients.
  destruct (@spline_coefficients_shape complex _ _ fourier_grid) as (c & Hc & _ & Hs).
  - reflexivity.
  - repeat constructor.
  - rewrite Hc. simpl bind. eexists. split; [reflexivity|].
    unfold FourierVoxelGridInterpolator.shape. simpl. now rewrite Hs.
Qed.

(** ** The tridiagonal solve *)

Lemma q_of_Z_0 : q_of_Z 0 = 0%Qc.
Proof. apply Qc_is_canon. reflexivity. Qed.

Lemma q_of_Z_1 : q_of_Z 1 = 1%Qc.
Proof. apply Qc_is_canon. reflexivity. Qed.

Lemma q_of_Z_add (a b : Z) : q_of_Z (a + b) = (q_of_Z a + q_of_Z b)%Qc.
Proof.
  apply Qc_is_canon. unfold q_of_Z, Qcplus, Q2Qc. cbn [this].
  rewrite !Qred_correct. rewrite inject_Z_plus. reflexivity.
Qed.

Lemma q_of_Z_inj (a b : Z) : q_of_Z a = q_of_Z b -> a = b.
Proof.
  intros E. apply (f_equal this) in E. unfold q_of_Z, Q2Qc in E. cbn [this] in E.
  assert (E' : (inject_Z a == inject_Z b)%Q) by (rewrite <- (Qred_correct (inject_Z a)), E; apply Qred_correct).
  unfold Qeq, inject_Z in E'. simpl in E'. lia.
Qed.

Lemma pivot_positive (c l : Qc) :
  (0 <= c)%Qc -> (c <= 1)%Qc -> l = 0%Qc \/ l = 1%Qc ->
  (0 < q_of_Z 4 - l * c)%Qc.
Proof.
  intros H0 H1 [-> | ->]; qc2q; lra.
Qed.

Lemma pivot_ratio (c l u : Qc) :
  (0 <= c)%Qc -> (c <= 1)%Qc -> l = 0%Qc \/ l = 1%Qc -> u = 0%Qc \/ u = 1%Qc ->
  (0 <= u / (q_of_Z 4 - l * c))%Qc /\ (u / (q_of_Z 4 - l * c) <= 1)%Qc.
Proof.
  intros H0 H1 Hl Hu.
  pose proof (pivot_positive H0 H1 Hl) as Hd.
  set (den := (q_of_Z 4 - l * c)%Qc) in *.
  assert (Hden : (1 <= den)%Qc).
  { unfold den. destruct Hl as [-> | ->]; qc2q; lra. }
  clearbody den.
  destruct Hu as [-> | ->]; unfold Qcle, Qclt, Qcdiv, Qcmult, Qcinv, Q2Qc in *;
    cbn [this] in *; rewrite ?Qred_correct in *.
  - rewrite Qmult_0_l. split; [apply Qle_refl | lra].
  - rewrite Qmult_1_l. split.
    + apply Qlt_le_weak. now apply Qinv_lt_0_compat.
    + apply Qle_shift_inv_r; [exact Hd | lra].
Qed.

(** The elimination solves the system it is given. *)
Lemma thomas_solves (rows : list (Qc * Qc * Qc * Qc)) :
  forall cp dp xprev,
    pivots_nonzero cp rows ->
    match thomas cp dp rows with
    | [] => True
    | x :: _ => xprev = (dp - cp * x)%Qc
    end ->
    tridiagonal_holds xprev rows (thomas cp dp rows).
Proof.
  induction rows as [|[[[l b] u] y] rows IH]; intros cp dp xprev Hp Hprev;
    [exact I|].
  destruct Hp as [Hden Hp]. simpl in *. scalar_qc.
  set (den := (b - l * cp)%Qc) in *.
  set (c := (u / den)%Qc) in *.
  set (d := ((y - l * dp) / den)%Qc) in *.
  pose proof (length_thomas rows c d) as Hlen.
  specialize (IH c d).
  destruct (thomas c d rows) as [|x1 xs].
  - destruct rows; [|discriminate]. simpl. split; [|exact I].
    subst xprev. unfold d, den. field. exact Hden.
  - simpl. split.
    + subst xprev. unfold d, c, den. field. exact Hden.
    + apply IH; [exact Hp | reflexivity].
Qed.

Lemma tridiagonal_holds_nth (rows : list (Qc * Qc * Qc * Qc)) :
  forall xprev xs j,
    tridiagonal_holds xprev rows xs -> j < length rows ->
    let '(l, b, u, y) := nth j rows (0, 0, 0, 0)%Qc in
    (l * match j with 0 => xprev | S j' => nth j' xs 0 end
     + b * nth j xs 0 + u * nth (S j) xs 0 = y)%Qc.
Proof.
  induction rows as [|[[[l b] u] y] rows IH]; intros xprev xs j Hh Hj;
    simpl in Hj; [lia|].
  destruct xs as [|x xs]; [destruct Hh|]. destruct Hh as [Hrow Hrest].
  destruct j as [|j].
  - simpl. destruct xs; exact Hrow.
  - specialize (IH x xs j Hrest ltac:(lia)).
    change (nth (S j) ((l, b, u, y) :: rows) (0, 0, 0, 0)%Qc)
      with (nth j rows (0, 0, 0, 0)%Qc).
    destruct (nth j rows (0, 0, 0, 0)%Qc) as [[[l' b'] u'] y'].
    destruct j as [|j]; exact IH.
Qed.

Lemma nth_rows_of (ls bs us ys : list Qc) (m j : nat) :
  length ls = m -> length bs = m -> length us = m -> length ys = m -> j < m ->
  nth j (rows_of ls bs us ys) (0, 0, 0, 0)%Qc
  = (nth j ls 0, nth j bs 0, nth j us 0, nth j ys 0)%Qc.
Proof.
  revert bs us ys m j; induction ls as [|l ls IH];
    intros [|b bs] [|u us] [|y ys] [|m] j; simpl; try discriminate; try lia.
  intros [= Hl] [= Hb] [= Hu] [= Hy] Hj.
  destruct j as [|j]; [reflexivity|]. apply (IH bs us ys m); auto. lia.
Qed.

Lemma pivots_of_spline_rows (rows : list (Qc * Qc * Qc * Qc)) :
  Forall (fun r => match r with
                   | (l, b, u, _) =>
                       (l = 0%Qc \/ l = 1%Qc) /\ b = q_of_Z 4 /\ (u = 0%Qc \/ u = 1%Qc)
                   end) rows ->
  forall cp, (0 <= cp)%Qc -> (cp <= 1)%Qc -> pivots_nonzero cp rows.
Proof.
  induction 1 as [|[[[l b] u] y] rows (Hl & -> & Hu) Hrows IH]; intros cp H0 H1;
    [exact I|].
  simpl. split.
  - intros E. pose proof (pivot_positive H0 H1 Hl) as Hpos.
    rewrite E in Hpos. now apply (Qclt_not_le _ _ Hpos), Qcle_refl.
  - destruct (pivot_ratio H0 H1 Hl Hu) as [Ha Hb]. now apply IH.
Qed.

(** ** The coefficients of one axis interpolate the samples *)

Lemma item_nat {A} `{Default A} (l : list A) (k : nat) :
  item l (Z.of_nat k) = nth k l default.
Proof.
  unfold item. assert (E : (Z.of_nat k <? 0)%Z = false) by (apply Z.ltb_ge; lia).
  now rewrite E, Nat2Z.id.
Qed.

Lemma item_from_end {A} `{Default A} (l : list A) (k : nat) :
  1 <= k <= length l ->
  item l (- Z.of_nat k) = nth (length l - k) l default.
Proof.
  intros Hk. unfold item.
  assert (E : (- Z.of_nat k <? 0)%Z = true) by (apply Z.ltb_lt; lia).
  rewrite E. f_equal. lia.
Qed.

Lemma nth_removelast {A} (l : list A) (j : nat) (d : A) :
  j < length l - 1 -> nth j (removelast l) d = nth j l d.
Proof.
  destruct l as [|a l _] using rev_ind; [simpl; lia|].
  rewrite removelast_last, length_app. simpl. intros Hj.
  rewrite app_nth1; [reflexivity | lia].
Qed.

Lemma nth_interior {A} (l : list A) (j : nat) (d : A) :
  j < length l - 2 -> nth j (interior l) d = nth (S j) l d.
Proof.
  intros Hj. unfold interior. destruct l as [|a l]; simpl in *; [lia|].
  apply nth_removelast. lia.
Qed.

Lemma nth_replace_nth {A} (l : list A) (i j : nat) (v d : A) :
  i < length l ->
  nth j (replace_nth i v l) d = if Nat.eqb j i then v else nth j l d.
Proof.
  revert i j; induction l as [|a l IH]; intros [|i] [|j] Hi; simpl in *; try lia; auto.
  apply IH. lia.
Qed.

(** The right-hand side of the system, for at least two interior samples. *)
Lemma nth_construct_vector (data : list Qc) (c2 cnp2 : Qc) (n j : nat) :
  length data = n -> 4 <= n -> j < n - 2 ->
  nth j (_construct_vector data c2 cnp2) 0%Qc
  = if Nat.eqb j (n - 3) then (nth (n - 2) data 0 - cnp2)%Qc
    else if Nat.eqb j 0 then (nth 1 data 0 - c2)%Qc
    else nth (S j) data 0%Qc.
Proof.
  intros Hn H4 Hj. unfold _construct_vector. cbv zeta. scalar_qc.
  change 1%Z with (Z.of_nat 1). rewrite item_nat.
  change (-2)%Z with (- Z.of_nat 2)%Z. rewrite item_from_end by lia.
  rewrite Hn.
  assert (Hi : length (interior data) = n - 2) by (rewrite length_interior; lia).
  unfold at_set at 1. rewrite length_at_set, Hi.
  assert (E1 : (-1 <? 0)%Z = true) by reflexivity. rewrite E1.
  assert (E2 : (Z.of_nat (n - 2) + -1 <? 0)%Z = false) by (apply Z.ltb_ge; lia).
  rewrite E2.
  replace (Z.to_nat (Z.of_nat (n - 2) + -1)) with (n - 3) by lia.
  rewrite nth_replace_nth by (rewrite length_at_set; lia).
  destruct (Nat.eqb j (n - 3)) eqn:Ej; [reflexivity|].
  unfold at_set. change (0 <? 0)%Z with false. cbv iota zeta.
  change (0 <? 0)%Z with false. cbv iota. change (Z.to_nat 0) with 0.
  rewrite nth_replace_nth by lia.
  destruct (Nat.eqb j 0) eqn:E0; [reflexivity|].
  apply nth_interior. lia.
Qed.

(** The rows of the system solved for an axis of extent [n]. *)
Lemma spline_rows (n j : nat) (ys : list Qc) :
  4 <= n -> length ys = n - 2 -> j < n - 2 ->
  nth j (rows_of (of_Qc 0%Qc :: lower_diagonal (axis_operator n))
                 (diagonal (axis_operator n))
                 (upper_diagonal (axis_operator n) ++ [of_Qc 0%Qc]) ys)
        (0, 0, 0, 0)%Qc
  = (if Nat.eqb j 0 then 0%Qc else 1%Qc, q_of_Z 4,
     if Nat.eqb j (n - 3) then 0%Qc else 1%Qc, nth j ys 0%Qc).
Proof.
  intros H4 Hy Hj. unfold axis_operator.
  cbn [lower_diagonal diagonal upper_diagonal]. scalar_qc.
  rewrite (@nth_rows_of _ _ _ _ (n - 2) j);
    try (simpl; rewrite ?length_app, ?repeat_length; simpl; lia).
  assert (A1 : nth j (0%Qc :: repeat 1%Qc (n - 2 - 1)) 0%Qc
               = if Nat.eqb j 0 then 0%Qc else 1%Qc).
  { destruct j as [|j]; [reflexivity|]. simpl. apply nth_repeat_lt. lia. }
  assert (A2 : nth j (repeat (q_of_Z 4) (n - 2)) 0%Qc = q_of_Z 4).
  { apply nth_repeat_lt. lia. }
  assert (A3 : nth j (repeat 1%Qc (n - 2 - 1) ++ [0%Qc]) 0%Qc
               = if Nat.eqb j (n - 3) then 0%Qc else 1%Qc).
  { destruct (Nat.eqb j (n - 3)) eqn:E.
    - apply Nat.eqb_eq in E. subst j.
      rewrite app_nth2; rewrite repeat_length; [|lia].
      replace (n - 3 - (n - 2 - 1)) with 0 by lia. reflexivity.
    - apply Nat.eqb_neq in E.
      rewrite app_nth1 by (rewrite repeat_length; lia).
      apply nth_repeat_lt. lia. }
  now rewrite A1, A2, A3.
Qed.

Lemma spline_rows_pivots (n : nat) (ys : list Qc) :
  pivots_nonzero 0%Qc
    (rows_of (of_Qc 0%Qc :: lower_diagonal (axis_operator n))
             (diagonal (axis_operator n))
             (upper_diagonal (axis_operator n) ++ [of_Qc 0%Qc]) ys).
Proof.
  apply pivots_of_spline_rows; [|apply Qcle_refl | discriminate].
  unfold axis_operator. cbn [lower_diagonal diagonal upper_diagonal]. scalar_qc.
  assert (G : forall ls bs us ys : list Qc,
            Forall (fun l => l = 0%Qc \/ l = 1%Qc) ls ->
            Forall (fun b => b = q_of_Z 4) bs ->
            Forall (fun u => u = 0%Qc \/ u = 1%Qc) us ->
            Forall (fun r => match r with
                             | (l, b, u, _) =>
                                 (l = 0%Qc \/ l = 1%Qc) /\ b = q_of_Z 4
                                 /\ (u = 0%Qc \/ u = 1%Qc)
                             end) (rows_of ls bs us ys)).
  { induction ls as [|l ls IH]; intros [|b bs] [|u us] [|y ys'] Hl Hb Hu; simpl;
      try constructor.
    - inversion Hl; inversion Hb; inversion Hu; subst. auto.
    - inversion Hl; inversion Hb; inversion Hu; subst. now apply IH. }
  apply G.
  - constructor; [now left|]. apply Forall_forall. intros x Hx.
    apply repeat_spec in Hx. now right.
  - apply Forall_forall. intros x Hx. now apply repeat_spec in Hx.
  - apply Forall_app. split.
    + apply Forall_forall. intros x Hx. apply repeat_spec in Hx. now right.
    + constructor; [now left | constructor].
Qed.

Lemma sixth_six : (q_of_Z 2 * q_frac 1 6 + q_of_Z 4 * q_frac 1 6 = 1)%Qc.
Proof. apply Qc_is_canon. reflexivity. Qed.

(** At every node [k] of an axis with at least four samples, the
    coefficients [c] satisfy [c[k] + 4 c[k+1] + c[k+2] = data[k]]. *)
Lemma solve_coefficients_window (data : list Qc) (n k : nat) :
  length data = n -> 4 <= n -> k < n ->
  let cs := _solve_coefficients data (axis_operator n) in
  (nth k cs 0 + q_of_Z 4 * nth (k + 1) cs 0 + nth (k + 2) cs 0 = nth k data 0)%Qc.
Proof.
  intros Hn H4 Hk. unfold _solve_coefficients. cbv zeta. scalar_qc.
  set (c2 := (q_frac 1 6 * item data 0)%Qc).
  set (cnp2 := (q_frac 1 6 * item data (-1))%Qc).
  set (yvec := _construct_vector data c2 cnp2).
  assert (Hy : length yvec = n - 2).
  { unfold yvec, _construct_vector. now rewrite !length_at_set, length_interior, Hn. }
  set (sol := linear_solve (axis_operator n) yvec).
  assert (Hs : length sol = n - 2)
    by (apply length_linear_solve; [lia | exact Hy]).
  assert (Hrows : forall j, j < n - 2 ->
    ((if Nat.eqb j 0 then 0 else 1)
       * match j with 0 => 0 | S j' => nth j' sol 0 end
     + q_of_Z 4 * nth j sol 0
     + (if Nat.eqb j (n - 3) then 0 else 1) * nth (S j) sol 0
     = nth j yvec 0)%Qc).
  { intros j Hj.
    set (rows := rows_of (of_Qc 0%Qc :: lower_diagonal (axis_operator n))
                         (diagonal (axis_operator n))
                         (upper_diagonal (axis_operator n) ++ [of_Qc 0%Qc]) yvec).
    assert (Hlen : length rows = n - 2).
    { unfold rows. apply length_rows_of; unfold axis_operator; simpl;
        rewrite ?length_app, ?repeat_length; simpl; lia. }
    assert (Hth : tridiagonal_holds 0%Qc rows (thomas 0%Qc 0%Qc rows)).
    { apply thomas_solves; [apply spline_rows_pivots|].
      destruct (thomas _ _ _); [exact I | ring]. }
    pose proof (@tridiagonal_holds_nth rows 0%Qc (thomas 0%Qc 0%Qc rows) j Hth) as Hj'.
    rewrite Hlen in Hj'. specialize (Hj' Hj). unfold rows in Hj'.
    rewrite (@spline_rows n j yvec H4 Hy Hj) in Hj'. exact Hj'. }
  assert (Hitem0 : item sol 0 = nth 0 sol 0%Qc) by (apply (item_nat sol 0)).
  assert (Hitem1 : item sol (-1) = nth (n - 3) sol 0%Qc).
  { change (-1)%Z with (- Z.of_nat 1)%Z. rewrite item_from_end by lia.
    rewrite Hs. f_equal. lia. }
  assert (Hd0 : item data 0 = nth 0 data 0%Qc) by (apply (item_nat data 0)).
  assert (Hd1 : item data (-1) = nth (n - 1) data 0%Qc).
  { change (-1)%Z with (- Z.of_nat 1)%Z. rewrite item_from_end by lia.
    now rewrite Hn. }
  rewrite Hitem0, Hitem1.
  assert (Hcs : forall i,
    nth i ([(q_of_Z 2 * c2 - nth 0 sol 0)%Qc; c2] ++ sol
           ++ [cnp2; (q_of_Z 2 * cnp2 - nth (n - 3) sol 0)%Qc]) 0%Qc
    = if i <? 2 then (if Nat.eqb i 0 then (q_of_Z 2 * c2 - nth 0 sol 0)%Qc else c2)
      else if i <? n then nth (i - 2) sol 0%Qc
      else if Nat.eqb i n then cnp2
      else if Nat.eqb i (n + 1) then (q_of_Z 2 * cnp2 - nth (n - 3) sol 0)%Qc
      else 0%Qc).
  { intros i. destruct (i <? 2) eqn:E2.
    - apply Nat.ltb_lt in E2. destruct i as [|[|i]]; [reflexivity|reflexivity|lia].
    - apply Nat.ltb_ge in E2.
      destruct i as [|[|i]]; try lia. simpl nth. simpl Nat.sub. rewrite Nat.sub_0_r.
      destruct (S (S i) <? n) eqn:En.
      + apply Nat.ltb_lt in En. rewrite app_nth1 by lia. reflexivity.
      + apply Nat.ltb_ge in En. rewrite app_nth2 by lia. rewrite Hs.
        destruct (Nat.eqb (S (S i)) n) eqn:E3.
        * apply Nat.eqb_eq in E3. replace (i - (n - 2)) with 0 by lia. reflexivity.
        * apply Nat.eqb_neq in E3.
          destruct (Nat.eqb (S (S i)) (n + 1)) eqn:E4.
          -- apply Nat.eqb_eq in E4. replace (i - (n - 2)) with 1 by lia. reflexivity.
          -- apply Nat.eqb_neq in E4.
             destruct (i - (n - 2)) as [|[|[|r]]] eqn:Er; try lia; reflexivity. }
  rewrite !Hcs.
  assert (Hyv : forall j, j < n - 2 -> nth j yvec 0%Qc = _)
    by (intros j Hj; apply (@nth_construct_vector data c2 cnp2 n j Hn H4 Hj)).
  destruct (Nat.eq_dec k 0) as [-> | Hk0].
  { change (0 + 1) with 1. change (0 + 2) with 2.
    change (0 <? 2) with true. change (1 <? 2) with true. change (2 <? 2) with false.
    change (Nat.eqb 0 0) with true. change (Nat.eqb 1 0) with false. cbv iota.
    replace (2 <? n) with true by (symmetry; apply Nat.ltb_lt; lia).
    change (2 - 2) with 0.
    unfold c2. rewrite Hd0.
    transitivity ((q_of_Z 2 * q_frac 1 6 + q_of_Z 4 * q_frac 1 6) * nth 0 data 0)%Qc;
      [ring|].
    rewrite sixth_six. ring. }
  destruct (Nat.eq_dec k 1) as [-> | Hk1].
  { change (1 + 1) with 2. change (1 + 2) with 3.
    change (1 <? 2) with true. change (2 <? 2) with false. change (3 <? 2) with false.
    change (Nat.eqb 1 0) with false. cbv iota.
    replace (3 <? n) with true by (symmetry; apply Nat.ltb_lt; lia).
    replace (2 <? n) with true by (symmetry; apply Nat.ltb_lt; lia).
    change (2 - 2) with 0. change (3 - 2) with 1.
    pose proof (Hrows 0 ltac:(lia)) as H0. rewrite Hyv in H0 by lia.
    change (Nat.eqb 0 0) with true in H0. cbv iota in H0.
    replace (Nat.eqb 0 (n - 3)) with false in H0
      by (symmetry; apply Nat.eqb_neq; lia).
    transitivity (c2 + (nth 1 data 0 - c2))%Qc; [|ring].
    rewrite <- H0. ring. }
  destruct (Nat.eq_dec k (n - 1)) as [-> | Hkn1].
  { replace (n - 1 <? 2) with false by (symmetry; apply Nat.ltb_ge; lia).
    replace (n - 1 + 1 <? 2) with false by (symmetry; apply Nat.ltb_ge; lia).
    replace (n - 1 + 2 <? 2) with false by (symmetry; apply Nat.ltb_ge; lia).
    replace (n - 1 <? n) with true by (symmetry; apply Nat.ltb_lt; lia).
    replace (n - 1 + 1 <? n) with false by (symmetry; apply Nat.ltb_ge; lia).
    replace (n - 1 + 2 <? n) with false by (symmetry; apply Nat.ltb_ge; lia).
    replace (Nat.eqb (n - 1 + 1) n) with true by (symmetry; apply Nat.eqb_eq; lia).
    replace (Nat.eqb (n - 1 + 2) n) with false by (symmetry; apply Nat.eqb_neq; lia).
    replace (Nat.eqb (n - 1 + 2) (n + 1)) with true
      by (symmetry; apply Nat.eqb_eq; lia).
    replace (n - 1 - 2) with (n - 3) by lia.
    unfold cnp2. rewrite Hd1.
    transitivity ((q_of_Z 2 * q_frac 1 6 + q_of_Z 4 * q_frac 1 6)
                  * nth (n - 1) data 0)%Qc; [ring|].
    rewrite sixth_six. ring. }
  destruct (Nat.eq_dec k (n - 2)) as [-> | Hkn2].
  { replace (n - 2 <? 2) with false by (symmetry; apply Nat.ltb_ge; lia).
    replace (n - 2 + 1 <? 2) with false by (symmetry; apply Nat.ltb_ge; lia).
    replace (n - 2 + 2 <? 2) with false by (symmetry; apply Nat.ltb_ge; lia).
    replace (n - 2 <? n) with true by (symmetry; apply Nat.ltb_lt; lia).
    replace (n - 2 + 1 <? n) with true by (symmetry; apply Nat.ltb_lt; lia).
    replace (n - 2 + 2 <? n) with false by (symmetry; apply Nat.ltb_ge; lia).
    replace (Nat.eqb (n - 2 + 2) n) with true by (symmetry; apply Nat.eqb_eq; lia).
    replace (n - 2 - 2) with (n - 4) by lia.
    replace (n - 2 + 1 - 2) with (n - 3) by lia.
    pose proof (Hrows (n - 3) ltac:(lia)) as H0. rewrite Hyv in H0 by lia.
    rewrite Nat.eqb_refl in H0.
    replace (Nat.eqb (n - 3) 0) with false in H0
      by (symmetry; apply Nat.eqb_neq; lia).
    destruct (n - 3) as [|j'] eqn:Ej; [lia|].
    replace (n - 4) with j' by lia.
    transitivity (nth (n - 2) data 0 - cnp2 + cnp2)%Qc; [|ring].
    rewrite <- H0. ring. }
  replace (k <? 2) with false by (symmetry; apply Nat.ltb_ge; lia).
  replace (k + 1 <? 2) with false by (symmetry; apply Nat.ltb_ge; lia).
  replace (k + 2 <? 2) with false by (symmetry; apply Nat.ltb_ge; lia).
  replace (k <? n) with true by (symmetry; apply Nat.ltb_lt; lia).
  replace (k + 1 <? n) with true by (symmetry; apply Nat.ltb_lt; lia).
  replace (k + 2 <? n) with true by (symmetry; apply Nat.ltb_lt; lia).
  pose proof (Hrows (k - 1) ltac:(lia)) as H0. rewrite Hyv in H0 by lia.
  replace (Nat.eqb (k - 1) 0) with false in H0 by (symmetry; apply Nat.eqb_neq; lia).
  replace (Nat.eqb (k - 1) (n - 3)) with false in H0
    by (symmetry; apply Nat.eqb_neq; lia).
  destruct (k - 1) as [|j'] eqn:Ej; [lia|].
  replace (k - 2) with j' by lia.
  replace (k + 1 - 2) with (S j') by lia.
  replace (k + 2 - 2) with (S (S j')) by lia.
  replace k with (S (S j')) by lia.
  rewrite <- H0. ring.
Qed.

(** ** Sums and products of rationals *)

Lemma fold_left_Qcplus (l : list Qc) (a : Qc) :
  fold_left Qcplus l a = (a + qsum l)%Qc.
Proof.
  unfold qsum. revert a. induction l as [|x l IH]; intros a; simpl; [ring|].
  rewrite (IH (a + x)%Qc), (IH (0 + x)%Qc). ring.
Qed.

Lemma fold_left_Qcmult (l : list Qc) (a : Qc) :
  fold_left Qcmult l a = (a * qprod l)%Qc.
Proof.
  unfold qprod. revert a. induction l as [|x l IH]; intros a; simpl; [ring|].
  rewrite (IH (a * x)%Qc), (IH (1 * x)%Qc). ring.
Qed.

Lemma qsum_cons (x : Qc) (l : list Qc) : qsum (x :: l) = (x + qsum l)%Qc.
Proof. unfold qsum at 1. simpl. rewrite fold_left_Qcplus. ring. Qed.

Lemma qprod_cons (x : Qc) (l : list Qc) : qprod (x :: l) = (x * qprod l)%Qc.
Proof. unfold qprod at 1. simpl. rewrite fold_left_Qcmult. ring. Qed.

Lemma qsum_app (l m : list Qc) : qsum (l ++ m) = (qsum l + qsum m)%Qc.
Proof.
  induction l as [|x l IH]; simpl.
  - unfold qsum at 2. simpl. ring.
  - rewrite !qsum_cons, IH. ring.
Qed.

Lemma qsum_scale {A} (c : Qc) (f : A -> Qc) (l : list A) :
  qsum (map (fun x => c * f x)%Qc l) = (c * qsum (map f l))%Qc.
Proof.
  induction l as [|x l IH]; simpl.
  - unfold qsum. simpl. ring.
  - rewrite !qsum_cons, IH. ring.
Qed.

(** ** The spline at a node *)

Lemma node_sum_ext (ks : list nat) (c c' : list nat -> Qc) :
  (forall r, in_window ks r -> c r = c' r) -> node_sum ks c = node_sum ks c'.
Proof.
  revert c c'; induction ks as [|k ks IH]; intros c c' Hc; simpl.
  - now apply Hc.
  - f_equal; [f_equal; [|f_equal]|]; apply IH; intros r Hr; apply Hc; simpl;
      (split; [lia | exact Hr]).
Qed.

Lemma node_sum_combine (ks : list nat) (a b c : list nat -> Qc) :
  node_sum ks (fun r => a r + q_of_Z 4 * b r + c r)%Qc
  = (node_sum ks a + q_of_Z 4 * node_sum ks b + node_sum ks c)%Qc.
Proof.
  revert a b c; induction ks as [|k ks IH]; intros a b c; simpl; [reflexivity|].
  rewrite !IH. ring.
Qed.

Lemma in_window_bounds (sh ks r : list nat) :
  in_bounds sh ks = true -> in_window ks r ->
  in_bounds (map (fun s => s + 2) sh) r = true.
Proof.
  revert ks r; induction sh as [|n sh IH]; intros [|k ks] [|i r]; simpl;
    try discriminate; try tauto.
  rewrite !andb_true_iff, !Nat.ltb_lt. intros [Hk Hb] [Hi Hw].
  split; [lia | now apply (IH ks)].
Qed.

Lemma in_window_length (ks r : list nat) : in_window ks r -> length r = length ks.
Proof.
  revert r; induction ks as [|k ks IH]; intros [|i r]; simpl; try tauto.
  intros [_ Hw]. f_equal. now apply IH.
Qed.

(** A gather at an in-range index reads the element, whatever the mode. *)
Lemma resolve_in_bounds (mode : gather_mode) (sh r : list nat) :
  in_bounds sh r = true -> resolve mode sh (map Z.of_nat r) = Some r.
Proof.
  revert r; induction sh as [|n sh IH]; intros [|i r]; simpl; try discriminate; auto.
  rewrite andb_true_iff, Nat.ltb_lt. intros [Hi Hb].
  rewrite (IH r Hb).
  assert (Ha : resolve_axis mode n (Z.of_nat i) = Some i).
  { unfold resolve_axis, normalize_index.
    assert (E : (Z.of_nat i <? 0)%Z = false) by (apply Z.ltb_ge; lia).
    rewrite E. destruct mode.
    - assert (E1 : (0 <=? Z.of_nat i)%Z = true) by (apply Z.leb_le; lia).
      assert (E2 : (Z.of_nat i <? Z.of_nat n)%Z = true) by (apply Z.ltb_lt; lia).
      rewrite E1, E2. simpl. now rewrite Nat2Z.id.
    - f_equal. lia. }
  now rewrite Ha.
Qed.

Lemma gather_point_in_bounds {A} `{Default A} (x : ndarray A) (r : list nat)
    (mode : gather_mode) (fill_value : A) :
  in_bounds (shape x) r = true ->
  gather_point x (map Z.of_nat r) mode fill_value = get x r.
Proof.
  intros Hb. unfold gather_point. now rewrite resolve_in_bounds.
Qed.

Lemma floorZ_of_nat (k : nat) : floorZ (q_of_nat k) = Z.of_nat k.
Proof.
  unfold floorZ, q_of_nat, q_of_Z, Q2Qc. cbn [this].
  rewrite Qred_correct. apply Qfloor_Z.
Qed.

Lemma roundZ_of_nat (k : nat) : roundZ (q_of_nat k) = Z.of_nat k.
Proof.
  unfold roundZ, q_of_nat, q_of_Z, Q2Qc. cbn [this].
  assert (E : Qle_bool 0 (Qred (inject_Z (Z.of_nat k))) = true).
  { apply Qle_bool_iff. rewrite Qred_correct. unfold Qle, inject_Z. simpl. lia. }
  rewrite E.
  assert (G : forall z : Z, Qfloor (inject_Z z + (1 # 2)) = z).
  { intros z. unfold Qfloor, Qplus, inject_Z. cbn [Qnum Qden].
    apply eq_sym, Z.div_unique with (r := 1%Z); lia. }
  rewrite <- (G (Z.of_nat k)) at 2.
  apply Qfloor_comp. now rewrite Qred_correct.
Qed.

(** The basis function at the four nodes of a window. *)
Lemma spline_basis_at_offsets (k : nat) :
  _spline_basis (q_of_nat k - q_of_Z (0 + Z.of_nat k) + 1)%Qc = 1%Qc
  /\ _spline_basis (q_of_nat k - q_of_Z (1 + Z.of_nat k) + 1)%Qc = q_of_Z 4
  /\ _spline_basis (q_of_nat k - q_of_Z (2 + Z.of_nat k) + 1)%Qc = 1%Qc
  /\ _spline_basis (q_of_nat k - q_of_Z (3 + Z.of_nat k) + 1)%Qc = 0%Qc.
Proof.
  unfold q_of_nat. rewrite !q_of_Z_add.
  assert (E : forall o : Z,
            (q_of_Z (Z.of_nat k) - (q_of_Z o + q_of_Z (Z.of_nat k)) + 1
             = 1 - q_of_Z o)%Qc) by (intros o; ring).
  rewrite !E. repeat split; apply Qc_is_canon; reflexivity.
Qed.

(** The evaluation of the spline at a node with integer coordinates [ks]. *)
Lemma spline_point_at_node (ks : list nat) :
  forall g : list Z -> Qc,
    qsum (map (fun index =>
                 g index
                 * qprod (zip_with (fun x i => _spline_basis (x - q_of_Z i + 1))
                                   (map q_of_nat ks) index))%Qc
              (product (map (fun x => map (fun o => (o + floorZ x)%Z) [0; 1; 2; 3]%Z)
                            (map q_of_nat ks))))
    = node_sum ks (fun r => g (map Z.of_nat r)).
Proof.
  induction ks as [|k ks IH]; intros g.
  - simpl. unfold qsum, qprod. simpl. ring.
  - set (F := fun x : Qc => map (fun o => (o + floorZ x)%Z) [0; 1; 2; 3]%Z) in *.
    change (map q_of_nat (k :: ks)) with (q_of_nat k :: map q_of_nat ks).
    change (product (map F (q_of_nat k :: map q_of_nat ks)))
      with (flat_map (fun a => map (cons a) (product (map F (map q_of_nat ks))))
                     (F (q_of_nat k))).
    set (P := product (map F (map q_of_nat ks))) in *. clearbody P.
    unfold F. cbn [map flat_map]. rewrite floorZ_of_nat, app_nil_r.
    rewrite !map_app, !qsum_app, !map_map.
    destruct (spline_basis_at_offsets k) as (B0 & B1 & B2 & B3).
    assert (Hterm : forall (o : Z) (b : Qc),
      _spline_basis (q_of_nat k - q_of_Z (o + Z.of_nat k) + 1)%Qc = b ->
      qsum (map (fun x : list Z =>
                   g ((o + Z.of_nat k)%Z :: x)
                   * qprod (zip_with (fun x0 i => _spline_basis (x0 - q_of_Z i + 1))
                              (q_of_nat k :: map q_of_nat ks)
                              ((o + Z.of_nat k)%Z :: x)))%Qc P)
      = (b * node_sum ks (fun r => g ((o + Z.of_nat k)%Z :: map Z.of_nat r)))%Qc).
    { intros o b Hb. rewrite <- (IH (fun idx => g ((o + Z.of_nat k)%Z :: idx))).
      rewrite <- qsum_scale. f_equal. apply map_ext. intros idx.
      cbn [zip_with]. rewrite qprod_cons, Hb. ring. }
    rewrite (Hterm 0%Z _ B0), (Hterm 1%Z _ B1), (Hterm 2%Z _ B2), (Hterm 3%Z _ B3).
    cbn [node_sum].
    replace (0 + Z.of_nat k)%Z with (Z.of_nat k) by lia.
    replace (1 + Z.of_nat k)%Z with (Z.of_nat (S k)) by lia.
    replace (2 + Z.of_nat k)%Z with (Z.of_nat (S (S k))) by lia.
    cbn [map]. ring.
Qed.

(** ** The spline coefficients: values *)

Lemma firstn_succ {A} (a : nat) (l : list A) (d : A) :
  a < length l -> firstn (S a) l = firstn a l ++ [nth a l d].
Proof.
  revert a; induction l as [|x l IH]; intros [|a] Ha; simpl in *; try lia; auto.
  f_equal. apply IH. lia.
Qed.

Lemma skipn_nth {A} (a : nat) (l : list A) (d : A) :
  a < length l -> skipn a l = nth a l d :: skipn (S a) l.
Proof.
  revert a; induction l as [|x l IH]; intros [|a] Ha; simpl in *; try lia; auto.
  apply IH. lia.
Qed.

Lemma interpolates_last_step (input x : ndarray Qc) (i : nat) :
  Forall (fun n => 4 <= n) (shape input) ->
  i < length (shape input) ->
  interpolates_last input i x ->
  exists y, _spline_coefficients_axis (length (shape input)) x i = Ok y
            /\ interpolates_last input (1 + i) y.
Proof.
  intros Hall Hi (Hwx & Hsx & Hval).
  set (sh := shape input) in *.
  destruct (coefficient_shape_step sh Hi) as (E1 & E2 & L1 & L2).
  set (a := length sh - i - 1) in *.
  assert (Ha : a < length sh) by (unfold a; lia).
  set (n := nth a sh 0) in *.
  assert (Hn : 4 <= n).
  { rewrite Forall_forall in Hall. apply Hall. apply nth_In. exact Ha. }
  set (pre := firstn a sh) in *.
  set (rest0 := skipn (S a) sh) in *.
  rewrite E1 in Hsx.
  destruct (@spline_coefficients_axis_applies Qc _ _ x pre
              (map (fun s => s + 2) rest0) n ltac:(lia) Hsx) as (fn & Hfn & Happ).
  rewrite L1, L2 in Hfn.
  replace (a + 1 + i) with (length sh) in Hfn by (unfold a; lia).
  exists (fn x). split; [exact Hfn|].
  destruct (Happ x Hwx Hsx) as (Hw' & Hs' & Hget).
  unfold interpolates_last. cbv zeta. fold sh.
  split; [exact Hw'|]. split; [now rewrite E2|].
  intros p ks Hp Hks.
  replace (length sh - (1 + i)) with a in Hp, Hks by (unfold a; lia).
  fold pre in Hp.
  rewrite (skipn_nth sh 0 Ha) in Hks. fold n rest0 in Hks.
  destruct ks as [|k ks]; [discriminate|].
  apply in_bounds_cons in Hks as [Hk Hks].
  cbn [node_sum].
  rewrite <- (node_sum_combine ks
                (fun r => get (fn x) (p ++ k :: r))
                (fun r => get (fn x) (p ++ S k :: r))
                (fun r => get (fn x) (p ++ S (S k) :: r))).
  transitivity (node_sum ks (fun r => get x ((p ++ [k]) ++ r))).
  - apply node_sum_ext. intros r Hr.
    pose proof (in_window_bounds rest0 ks r Hks Hr) as Hrb.
    rewrite !(Hget p _ r Hp) by (try exact Hrb; lia).
    set (col := map (fun t => get x (p ++ t :: r)) (seq 0 n)).
    assert (Hcol : length col = n) by (unfold col; now rewrite length_map, length_seq).
    pose proof (@solve_coefficients_window col n k Hcol Hn Hk) as Hwin.
    cbv zeta in Hwin.
    replace (k + 1) with (S k) in Hwin by lia.
    replace (k + 2) with (S (S k)) in Hwin by lia.
    change (@default Qc Default_Qc) with 0%Qc.
    rewrite Hwin. unfold col.
    rewrite (nth_map_in_range _ _ 0) by now rewrite length_seq.
    rewrite seq_nth by exact Hk. simpl. now rewrite <- app_assoc.
  - assert (Hpk : in_bounds (firstn (length sh - i) sh) (p ++ [k]) = true).
    { replace (length sh - i) with (S a) by (unfold a; lia).
      rewrite (firstn_succ sh 0 Ha). fold pre n.
      apply in_bounds_app; [exact Hp|]. apply in_bounds_cons. now split. }
    assert (Hks' : in_bounds (skipn (length sh - i) sh) ks = true).
    { replace (length sh - i) with (S a) by (unfold a; lia). exact Hks. }
    rewrite (Hval (p ++ [k]) ks Hpk Hks'). now rewrite <- app_assoc.
Qed.

(** The coefficient array of an input with at least four samples along
    every axis is two larger along every axis, and at every node the
    window sum of the coefficients is the input value. *)
Lemma spline_coefficients_interpolate (input : ndarray Qc) :
  wf input -> Forall (fun n => 4 <= n) (shape input) ->
  exists coefficients,
    _spline_coefficients input = Ok coefficients
    /\ wf coefficients
    /\ shape coefficients = map (fun s => s + 2) (shape input)
    /\ forall ks, in_bounds (shape input) ks = true ->
         node_sum ks (get coefficients) = get input ks.
Proof.
  intros Hwf Hall. unfold _spline_coefficients, ndim.
  destruct (@fold_result_steps _
              (fun x i => _spline_coefficients_axis (length (shape input)) x i)
              (interpolates_last input)
              (length (shape input)) input) as (y & Hy & Hwy & Hsy & Hval).
  - split; [exact Hwf|]. split.
    + unfold coefficient_shape.
      rewrite Nat.sub_0_r, firstn_all, skipn_all. simpl. now rewrite app_nil_r.
    + intros p ks Hp Hks. rewrite Nat.sub_0_r, skipn_all in Hks.
      destruct ks; [|discriminate]. reflexivity.
  - intros i x Hi Hx. now apply interpolates_last_step.
  - exists y. split; [exact Hy|]. split; [exact Hwy|]. split.
    + rewrite Hsy. unfold coefficient_shape. now rewrite Nat.sub_diag.
    + intros ks Hks.
      specialize (Hval [] ks). rewrite Nat.sub_diag in Hval.
      simpl in Hval. now apply Hval.
Qed.

(** ** [map_coordinates] at the nodes of the grid: order 3 *)

Lemma q_of_nat_0 : q_of_nat 0 = 0%Qc.
Proof. apply q_of_Z_0. Qed.

(** The point at position [p] of coordinate arrays holding integers. *)
Lemma point_of_positions (positions : list (ndarray nat)) (p : nat) :
  map (fun c => nth p (data c) 0%Qc) (as_coordinates positions)
  = map q_of_nat (map (fun ia => nth p (data ia) 0) positions).
Proof.
  unfold as_coordinates. rewrite !map_map. apply map_ext. intros ia.
  unfold amap. simpl. rewrite <- q_of_nat_0 at 1. apply map_nth.
Qed.

Lemma product_singletons {A B} (h : A -> B) (l : list A) :
  product (map (fun a => [h a]) l) = [map h l].
Proof.
  induction l as [|a l IH]; simpl; [reflexivity|]. now rewrite IH.
Qed.

Lemma unzip2_map {A B D} (h1 : A -> B) (h2 : A -> D) (l : list A) :
  unzip2 (map (fun a => (h1 a, h2 a)) l) = (map h1 l, map h2 l).
Proof.
  unfold unzip2. induction l as [|a l IH]; simpl; [reflexivity|]. now rewrite IH.
Qed.

Lemma spline_point_at_position (input coefficients : ndarray Qc) (ks : list nat)
    (mode : gather_mode) (cval : Qc) :
  shape coefficients = map (fun s => s + 2) (shape input) ->
  (forall ks, in_bounds (shape input) ks = true ->
              node_sum ks (get coefficients) = get input ks) ->
  in_bounds (shape input) ks = true ->
  _spline_point coefficients (map q_of_nat ks) mode cval = get input ks.
Proof.
  intros Hs Hval Hks. unfold _spline_point. cbv zeta. unfold _spline_value.
  rewrite (spline_point_at_node ks
             (fun index => gather_point coefficients index mode cval)).
  rewrite <- (Hval ks Hks). apply node_sum_ext. intros r Hr.
  apply gather_point_in_bounds. rewrite Hs.
  now apply (in_window_bounds (shape input) ks).
Qed.

Lemma cubic_spline_at_nodes (input : ndarray Qc) (positions : list (ndarray nat))
    (mode : gather_mode) (cval : Qc) :
  wf input -> Forall (fun n => 4 <= n) (shape input) ->
  positions <> [] -> positions_in_range (shape input) positions ->
  _cubic_spline input (as_coordinates positions) mode cval
  = Ok (sample_at input positions).
Proof.
  intros Hwf Hall Hne Hin.
  destruct (spline_coefficients_interpolate Hwf Hall) as (C & HC & _ & Hs & Hval).
  unfold _cubic_spline. rewrite HC. simpl bind.
  destruct positions as [|i0 rest]; [now elim Hne|].
  destruct Hin as [_ Hin].
  change (as_coordinates (i0 :: rest))
    with (amap q_of_nat i0 :: as_coordinates rest) at 1.
  cbv iota beta. f_equal. unfold sample_at. f_equal.
  unfold points_of.
  change (as_coordinates (i0 :: rest))
    with (amap q_of_nat i0 :: as_coordinates rest) at 1.
  cbv iota beta.
  change (amap q_of_nat i0 :: as_coordinates rest) with (as_coordinates (i0 :: rest)).
  replace (length (data (amap q_of_nat i0))) with (length (data i0))
    by (unfold amap; simpl; now rewrite length_map).
  rewrite map_map. apply map_ext_in. intros p Hp. apply in_seq in Hp.
  rewrite point_of_positions.
  apply spline_point_at_position; auto. apply Hin. lia.
Qed.

Lemma traverse_single {A B} (f : A -> result B) (a : A) (b : B) :
  f a = Ok b -> traverse f [a] = Ok [b].
Proof. intros E. simpl. now rewrite E. Qed.

(** Order 3 hands the coordinate arrays to [_cubic_spline]. *)
Lemma map_coordinates_order3 (input : ndarray Qc) (coordinates : list (ndarray Qc))
    (mode : gather_mode) (cval : Qc) :
  length coordinates = ndim input ->
  map_coordinates input coordinates 3 mode cval
  = _cubic_spline input coordinates mode cval.
Proof.
  intros Hlen. unfold map_coordinates, _map_coordinates.
  rewrite Hlen, Nat.eqb_refl. cbn [negb]. change (3 =? 0)%Z with false.
  change (3 =? 1)%Z with false. change (3 =? 3)%Z with true. cbn [orb]. cbv iota.
  simpl bind. unfold _cubic_indices_and_weights.
  rewrite (product_singletons (fun c => (Coord_index c, None_w))).
  cbn [traverse].
  rewrite (unzip2_map Coord_index (fun _ => None_w)).
  rewrite map_map. simpl as_coordinate. rewrite map_id.
  destruct (_cubic_spline input coordinates mode cval); reflexivity.
Qed.

(** Order 3 at in-range integer positions, for an input with at least
    four samples along every axis. *)
Lemma map_coordinates_order3_at_nodes (input : ndarray Qc)
    (positions : list (ndarray nat)) (mode : gather_mode) (cval : Qc) :
  wf input -> Forall (fun n => 4 <= n) (shape input) ->
  length positions = ndim input -> positions <> [] ->
  positions_in_range (shape input) positions ->
  map_coordinates input (as_coordinates positions) 3 mode cval
  = Ok (sample_at input positions).
Proof.
  intros Hwf Hall Hlen Hne Hin.
  rewrite map_coordinates_order3
    by (unfold as_coordinates; now rewrite length_map).
  now apply cubic_spline_at_nodes.
Qed.

(** ** [map_coordinates] at the nodes of the grid: order 0 *)

Lemma amap_amap {A B D} (f : A -> B) (g : B -> D) (x : ndarray A) :
  amap g (amap f x) = amap (fun a => g (f a)) x.
Proof. unfold amap. simpl. now rewrite map_map. Qed.

Lemma amap_ext {A B} (f g : A -> B) (x : ndarray A) :
  (forall a, f a = g a) -> amap f x = amap g x.
Proof. intros E. unfold amap. f_equal. now apply map_ext. Qed.

Lemma amap_one (x : ndarray Qc) : amap (fun v => 1 * v)%Qc x = x.
Proof.
  destruct x as [sh dt]. unfold amap. simpl. f_equal.
  rewrite <- (map_id dt) at 2. apply map_ext. intros v. ring.
Qed.

Lemma traverse_int_indices {A} (h : A -> ndarray Z) (l : list A) :
  traverse as_int_index (map (fun a => Int_index (h a)) l) = Ok (map h l).
Proof.
  induction l as [|a l IH]; simpl; [reflexivity|]. now rewrite IH.
Qed.

(** A gather at index arrays holding in-range positions reads the input
    there. *)
Lemma at_get_positions (input : ndarray Qc) (positions : list (ndarray nat))
    (mode : gather_mode) (cval : Qc) :
  positions <> [] -> positions_in_range (shape input) positions ->
  at_get input (map (amap Z.of_nat) positions) mode cval = sample_at input positions.
Proof.
  intros Hne Hin. destruct positions as [|i0 rest]; [now elim Hne|].
  destruct Hin as [_ Hin].
  assert (Hidx : forall p (l : list (ndarray nat)),
            map (fun ia => nth p (data ia) 0%Z) (map (amap Z.of_nat) l)
            = map Z.of_nat (map (fun ia => nth p (data ia) 0) l)).
  { intros p l. rewrite !map_map. apply map_ext. intros ia. unfold amap. simpl.
    change 0%Z with (Z.of_nat 0). apply map_nth. }
  unfold sample_at.
  change (map (amap Z.of_nat) (i0 :: rest))
    with (amap Z.of_nat i0 :: map (amap Z.of_nat) rest).
  unfold at_get.
  change (amap Z.of_nat i0 :: map (amap Z.of_nat) rest)
    with (map (amap Z.of_nat) (i0 :: rest)).
  replace (length (data (amap Z.of_nat i0))) with (length (data i0))
    by (unfold amap; simpl; now rewrite length_map).
  change (shape (amap Z.of_nat i0)) with (shape i0). f_equal.
  apply map_ext_in. intros p Hp. apply in_seq in Hp.
  rewrite Hidx. apply gather_point_in_bounds. apply Hin. lia.
Qed.

Lemma nonempty_prod_ones {A} (l : list A) :
  l <> [] -> _nonempty_prod (map (fun _ => Scalar_w 1%Qc) l) = Ok (Scalar_w 1%Qc).
Proof.
  intros Hne. destruct l as [|a l]; [now elim Hne|]. clear Hne.
  unfold _nonempty_prod, reduce. simpl.
  induction l as [|b l IH]; simpl; [reflexivity|].
  replace (1 * 1)%Qc with 1%Qc by ring. exact IH.
Qed.

(** Order 0 gathers the input at the rounded coordinates. *)
Lemma map_coordinates_order0 (input : ndarray Qc) (coordinates : list (ndarray Qc))
    (mode : gather_mode) (cval : Qc) :
  length coordinates = ndim input -> coordinates <> [] ->
  map_coordinates input coordinates 0 mode cval
  = Ok (at_get input (map _round_half_away_from_zero coordinates) mode cval).
Proof.
  intros Hlen Hne. unfold map_coordinates, _map_coordinates.
  rewrite Hlen, Nat.eqb_refl. cbn [negb]. change (0 =? 0)%Z with true.
  cbn [orb]. cbv iota. simpl bind. unfold _nearest_indices_and_weights. cbv zeta.
  rewrite (product_singletons
             (fun c => (Int_index (_round_half_away_from_zero c), Scalar_w 1%Qc))).
  erewrite traverse_single.
  - unfold _nonempty_sum, reduce. simpl. reflexivity.
  - rewrite (unzip2_map (fun c => Int_index (_round_half_away_from_zero c))
                        (fun _ => Scalar_w 1%Qc)).
    rewrite traverse_int_indices. simpl bind.
    rewrite nonempty_prod_ones by assumption.
    simpl bind. unfold mul_contribution. now rewrite amap_one.
Qed.

(** Order 0 at in-range integer positions. *)
Lemma map_coordinates_order0_at_nodes (input : ndarray Qc)
    (positions : list (ndarray nat)) (mode : gather_mode) (cval : Qc) :
  length positions = ndim input -> positions <> [] ->
  positions_in_range (shape input) positions ->
  map_coordinates input (as_coordinates positions) 0 mode cval
  = Ok (sample_at input positions).
Proof.
  intros Hlen Hne Hin.
  rewrite map_coordinates_order0.
  - f_equal. unfold as_coordinates, _round_half_away_from_zero. rewrite map_map.
    rewrite <- (at_get_positions input mode cval Hne Hin). f_equal.
    apply map_ext. intros ia. rewrite amap_amap.
    apply amap_ext. intros k. apply roundZ_of_nat.
  - unfold as_coordinates. now rewrite length_map.
  - unfold as_coordinates. destruct positions; [now elim Hne | discriminate].
Qed.

(** ** Arrays position by position *)

Lemma list_as_map_seq {A} (l : list A) (d : A) :
  l = map (fun p => nth p l d) (seq 0 (length l)).
Proof.
  apply nth_ext with (d := d) (d' := d).
  - now rewrite length_map, length_seq.
  - intros p Hp. rewrite (nth_map_in_range _ _ 0) by now rewrite length_seq.
    now rewrite seq_nth.
Qed.

Lemma map_as_tab {A B} (f : A -> B) (l : list A) (d : A) :
  map f l = map (fun p => f (nth p l d)) (seq 0 (length l)).
Proof.
  rewrite (list_as_map_seq l d) at 1. now rewrite map_map.
Qed.

Lemma tab_ext {A} (S : list nat) (L : nat) (g h : nat -> A) :
  (forall p, p < L -> g p = h p) -> tab S L g = tab S L h.
Proof.
  intros E. unfold tab. f_equal. apply map_ext_in. intros p Hp.
  apply in_seq in Hp. apply E. lia.
Qed.

Lemma zip_with_map {A B D E} (f : B -> D -> E) (g : A -> B) (h : A -> D) (l : list A) :
  zip_with f (map g l) (map h l) = map (fun a => f (g a) (h a)) l.
Proof.
  induction l as [|a l IH]; simpl; [reflexivity|]. now rewrite IH.
Qed.

Lemma azip_tab {A B D} (f : A -> B -> D) (S S' : list nat) (L : nat)
    (g : nat -> A) (h : nat -> B) :
  azip f (tab S L g) (tab S' L h) = tab S L (fun p => f (g p) (h p)).
Proof. unfold azip, tab. simpl. now rewrite zip_with_map. Qed.

Lemma nth_tab {A} (S : list nat) (L : nat) (g : nat -> A) (p : nat) (d : A) :
  p < L -> nth p (data (tab S L g)) d = g p.
Proof.
  intros Hp. unfold tab. simpl.
  rewrite (nth_map_in_range _ _ 0) by now rewrite length_seq.
  now rewrite seq_nth.
Qed.

Lemma length_tab {A} (S : list nat) (L : nat) (g : nat -> A) :
  length (data (tab S L g)) = L.
Proof. unfold tab. simpl. now rewrite length_map, length_seq. Qed.

(** ** [map_coordinates] at the nodes of the grid: order 1 *)

(** The nodes computed at integer coordinates. *)
Lemma linear_nodes_at_integers (ia : ndarray nat) :
  _linear_indices_and_weights (amap q_of_nat ia)
  = map (node_of (length (data ia))) (linear_descs ia).
Proof.
  destruct ia as [sh dt]. unfold _linear_indices_and_weights, linear_descs, node_of, tab.
  cbv zeta. unfold amap, azip. simpl.
  rewrite !map_map, zip_with_map, !map_map.
  assert (Hq : forall x : nat, q_of_Z (floorZ (q_of_nat x)) = q_of_nat x).
  { intros x. now rewrite floorZ_of_nat. }
  assert (E1 : map (fun x : nat => floorZ (q_of_Z (floorZ (q_of_nat x)))) dt
               = map (fun p => Z.of_nat (nth p dt 0)) (seq 0 (length dt))).
  { rewrite (map_as_tab _ dt 0). apply map_ext. intros p.
    now rewrite Hq, floorZ_of_nat. }
  assert (E2 : map (fun x : nat => (1 - (q_of_nat x - q_of_Z (floorZ (q_of_nat x))))%Qc) dt
               = map (fun _ : nat => 1%Qc) (seq 0 (length dt))).
  { rewrite (map_as_tab _ dt 0). apply map_ext. intros p. rewrite Hq. ring. }
  assert (E3 : map (fun x : nat => (floorZ (q_of_Z (floorZ (q_of_nat x))) + 1)%Z) dt
               = map (fun p => (Z.of_nat (nth p dt 0%nat) + 1)%Z) (seq 0 (length dt))).
  { rewrite (map_as_tab _ dt 0). apply map_ext. intros p.
    now rewrite Hq, floorZ_of_nat. }
  assert (E4 : map (fun a : nat => (q_of_nat a - q_of_Z (floorZ (q_of_nat a)))%Qc) dt
               = map (fun _ : nat => 0%Qc) (seq 0 (length dt))).
  { rewrite (map_as_tab _ dt 0). apply map_ext. intros p. rewrite Hq. ring. }
  now rewrite E1, E2, E3, E4.
Qed.

Lemma product_map {A B} (h : A -> B) (ls : list (list A)) :
  product (map (map h) ls) = map (map h) (product ls).
Proof.
  induction ls as [|l ls IH]; simpl; [reflexivity|].
  rewrite IH. clear IH. induction l as [|a l IHl]; simpl; [reflexivity|].
  rewrite map_app, !map_map, IHl. reflexivity.
Qed.

Lemma traverse_ok {A B} (f : A -> result B) (g : A -> B) (l : list A) :
  (forall a, In a l -> f a = Ok (g a)) -> traverse f l = Ok (map g l).
Proof.
  induction l as [|a l IH]; intros Hf; simpl; [reflexivity|].
  rewrite (Hf a) by now left. simpl. rewrite IH; [reflexivity|].
  intros b Hb. apply Hf. now right.
Qed.

(** The product of the weights of a tuple of nodes, position by position. *)
Lemma nonempty_prod_tabs (L : nat) (d0 : node_desc) (descs : list node_desc) :
  _nonempty_prod (map (fun d => Array_w (tab (desc_shape d) L (desc_weight d)))
                      (d0 :: descs))
  = Ok (Array_w (tab (desc_shape d0) L
                     (fun p => qprod (map (fun d => desc_weight d p) (d0 :: descs))))).
Proof.
  unfold _nonempty_prod, reduce. cbn [map].
  assert (G : forall (acc : nat -> Qc),
    fold_left (fun a b => x <- a ;; mul_w x b)
      (map (fun d => Array_w (tab (desc_shape d) L (desc_weight d))) descs)
      (Ok (Array_w (tab (desc_shape d0) L acc)))
    = Ok (Array_w (tab (desc_shape d0) L
                       (fun p => acc p * qprod (map (fun d => desc_weight d p) descs))%Qc))).
  { induction descs as [|d descs IH]; intros acc; simpl.
    - do 2 f_equal. apply tab_ext. intros p _. unfold qprod. simpl. ring.
    - rewrite azip_tab, IH. do 2 f_equal. apply tab_ext. intros p _.
      rewrite qprod_cons. ring. }
  rewrite G. do 2 f_equal. apply tab_ext. intros p _. now rewrite qprod_cons.
Qed.

(** The sum of contributions given position by position. *)
Lemma nonempty_sum_tabs {A} (S : list nat) (L : nat) (T : A -> nat -> Qc)
    (x0 : A) (xs : list A) :
  _nonempty_sum (map (fun x => tab S L (T x)) (x0 :: xs))
  = Ok (tab S L (fun p => qsum (map (fun x => T x p) (x0 :: xs)))).
Proof.
  unfold _nonempty_sum, reduce. cbn [map].
  assert (G : forall (acc : nat -> Qc),
    fold_left (fun a b => x <- a ;; Ok (azip Qcplus x b))
      (map (fun x => tab S L (T x)) xs) (Ok (tab S L acc))
    = Ok (tab S L (fun p => acc p + qsum (map (fun x => T x p) xs))%Qc)).
  { induction xs as [|x xs IH]; intros acc; simpl.
    - f_equal. apply tab_ext. intros p _. unfold qsum. simpl. ring.
    - rewrite azip_tab, IH. f_equal. apply tab_ext. intros p _.
      rewrite qsum_cons. ring. }
  rewrite G. f_equal. apply tab_ext. intros p _. now rewrite qsum_cons.
Qed.

(** The contribution of one tuple of nodes, position by position. *)
Lemma contribution_of_descs (input : ndarray Qc) (mode : gather_mode) (cval : Qc)
    (L : nat) (d0 : node_desc) (descs : list node_desc) :
  contribution_of input mode cval (map (node_of L) (d0 :: descs))
  = Ok (tab (desc_shape d0) L
          (fun p => qprod (map (fun d => desc_weight d p) (d0 :: descs))
                    * gather_point input (map (fun d => desc_index d p) (d0 :: descs))
                        mode cval)%Qc).
Proof.
  unfold contribution_of, node_of.
  rewrite (unzip2_map (fun d => Int_index (tab (desc_shape d) L (desc_index d)))
                      (fun d => Array_w (tab (desc_shape d) L (desc_weight d)))).
  rewrite traverse_int_indices. cbn [bind].
  rewrite nonempty_prod_tabs. cbn [bind]. unfold mul_contribution.
  assert (E : at_get input
                (map (fun d => tab (desc_shape d) L (desc_index d)) (d0 :: descs))
                mode cval
              = tab (desc_shape d0) L
                  (fun p => gather_point input
                              (map (fun d => desc_index d p) (d0 :: descs)) mode cval)).
  { set (IA := map (fun d => tab (desc_shape d) L (desc_index d)) (d0 :: descs)).
    assert (EIA : IA = tab (desc_shape d0) L (desc_index d0)
                       :: map (fun d => tab (desc_shape d) L (desc_index d)) descs)
      by reflexivity.
    unfold at_get. rewrite EIA at 1. rewrite length_tab.
    change (shape (tab (desc_shape d0) L (desc_index d0))) with (desc_shape d0).
    unfold tab at 1. f_equal.
    apply map_ext_in. intros p Hp. apply in_seq in Hp. f_equal.
    unfold IA. rewrite map_map. apply map_ext. intros d. apply nth_tab. lia. }
  rewrite E, azip_tab. reflexivity.
Qed.

(** Summing over all tuples of nodes with the weights [1] and [0] leaves
    the value at the positions themselves. *)
Lemma linear_sum_collapses (positions : list (ndarray nat)) (p : nat) :
  forall G : list Z -> Qc,
    qsum (map (fun descs =>
                 qprod (map (fun d => desc_weight d p) descs)
                 * G (map (fun d => desc_index d p) descs))%Qc
              (product (map linear_descs positions)))
    = G (map Z.of_nat (map (fun ia => nth p (data ia) 0) positions)).
Proof.
  induction positions as [|ia positions IH]; intros G.
  - simpl. unfold qsum, qprod. simpl. ring.
  - cbn [map product]. set (P := product (map linear_descs positions)) in *.
    unfold linear_descs at 1. cbn [flat_map]. rewrite app_nil_r.
    rewrite map_app, qsum_app, !map_map. cbn [map desc_weight desc_index].
    assert (Hterm : forall (i : Z) (w : Qc),
      qsum (map (fun x : list node_desc =>
                   qprod (w :: map (fun d => desc_weight d p) x)
                   * G (i :: map (fun d => desc_index d p) x))%Qc P)
      = (w * G (i :: map Z.of_nat (map (fun ia => nth p (data ia) 0%nat) positions)))%Qc).
    { intros i w. rewrite <- (IH (fun idx => G (i :: idx))).
      rewrite <- qsum_scale. f_equal. apply map_ext. intros x.
      rewrite qprod_cons. ring. }
    rewrite !Hterm, !map_map. ring.
Qed.

Lemma product_nonempty {A} (ls : list (list A)) :
  Forall (fun l => l <> []) ls -> product ls <> [].
Proof.
  induction 1 as [|l ls Hl Hls IH]; simpl; [discriminate|].
  destruct l as [|a l]; [now elim Hl|]. simpl.
  destruct (product ls) as [|x xs]; [now elim IH|]. discriminate.
Qed.

Lemma product_heads {A} (l : list A) (ls : list (list A)) (items : list A) :
  In items (product (l :: ls)) -> exists a rest, items = a :: rest /\ In a l.
Proof.
  simpl. rewrite in_flat_map. intros (a & Ha & Hin).
  apply in_map_iff in Hin as (rest & <- & _). now exists a, rest.
Qed.

(** Order 1, from the nodes given position by position: the sum over
    the tuples of nodes of their contributions. *)
Lemma map_coordinates_order1_by_descs (input : ndarray Qc)
    (coordinates : list (ndarray Qc)) (l0 : list node_desc)
    (ls : list (list node_desc)) (S : list nat) (L : nat)
    (mode : gather_mode) (cval : Qc) :
  length coordinates = ndim input ->
  map _linear_indices_and_weights coordinates = map (map (node_of L)) (l0 :: ls) ->
  Forall (fun d => desc_shape d = S) l0 ->
  Forall (fun l => l <> []) (l0 :: ls) ->
  map_coordinates input coordinates 1 mode cval
  = Ok (tab S L (fun p => qsum (map (fun descs => contribution_at input mode cval descs p)
                                    (product (l0 :: ls))))).
Proof.
  intros Hlen Hnodes Hshape Hne.
  unfold map_coordinates, _map_coordinates.
  rewrite Hlen, Nat.eqb_refl. cbn [negb]. change (1 =? 0)%Z with false.
  change (1 =? 1)%Z with true. cbn [orb]. cbv iota. simpl bind.
  rewrite Hnodes, product_map.
  set (PL := product (l0 :: ls)).
  assert (Htr : traverse (contribution_of input mode cval) (map (map (node_of L)) PL)
                = Ok (map (fun descs => tab S L (contribution_at input mode cval descs))
                          PL)).
  { transitivity (traverse (fun descs => contribution_of input mode cval
                                           (map (node_of L) descs)) PL).
    - clear. induction PL as [|x xs IH]; simpl; [reflexivity|]. now rewrite IH.
    - apply traverse_ok. intros descs Hd.
      destruct (product_heads _ _ _ Hd) as (d0 & ds & -> & Hd0).
      rewrite contribution_of_descs.
      rewrite Forall_forall in Hshape. now rewrite (Hshape d0 Hd0). }
  match goal with
  | |- context [traverse ?f (map (map (node_of L)) PL)] =>
      change f with (contribution_of input mode cval)
  end.
  rewrite Htr. simpl bind.
  assert (HPL : PL <> []) by now apply product_nonempty.
  destruct PL as [|x0 xs]; [now elim HPL|].
  apply nonempty_sum_tabs.
Qed.

(** The nodes of order 1 at any coordinates. *)
Lemma linear_nodes_of (c : ndarray Qc) :
  _linear_indices_and_weights c = map (node_of (length (data c))) (linear_descs_of c).
Proof.
  destruct c as [sh dt].
  unfold _linear_indices_and_weights, linear_descs_of, node_of, tab.
  cbv zeta. unfold amap, azip. simpl.
  assert (E : zip_with Qcminus dt (map (fun x => q_of_Z (floorZ x)) dt)
              = map (fun a => (a - q_of_Z (floorZ a))%Qc) dt).
  { rewrite <- (map_id dt) at 1. apply zip_with_map. }
  rewrite E, !map_map.
  rewrite (map_as_tab (fun x => floorZ (q_of_Z (floorZ x))) dt 0%Qc).
  rewrite (map_as_tab (fun x => (1 - (x - q_of_Z (floorZ x)))%Qc) dt 0%Qc).
  rewrite (map_as_tab (fun x => (floorZ (q_of_Z (floorZ x)) + 1)%Z) dt 0%Qc).
  rewrite (map_as_tab (fun x => (x - q_of_Z (floorZ x))%Qc) dt 0%Qc).
  reflexivity.
Qed.

(** Order 1 at in-range integer positions. *)
Lemma map_coordinates_order1_at_nodes (input : ndarray Qc)
    (positions : list (ndarray nat)) (mode : gather_mode) (cval : Qc) :
  length positions = ndim input -> positions <> [] ->
  positions_in_range (shape input) positions ->
  map_coordinates input (as_coordinates positions) 1 mode cval
  = Ok (sample_at input positions).
Proof.
  intros Hlen Hne Hin.
  destruct positions as [|i0 rest]; [now elim Hne|].
  destruct Hin as [Hlens Hin].
  set (L := length (data i0)) in *.
  set (positions := i0 :: rest) in *.
  rewrite (@map_coordinates_order1_by_descs input (as_coordinates positions)
             (linear_descs i0) (map linear_descs rest) (shape i0) L mode cval).
  - f_equal. unfold sample_at, positions. fold L. fold positions.
    unfold tab. f_equal. apply map_ext_in. intros p Hp. apply in_seq in Hp.
    change (linear_descs i0 :: map linear_descs rest)
      with (map linear_descs positions).
    unfold contribution_at.
    rewrite (linear_sum_collapses positions p
               (fun idx => gather_point input idx mode cval)).
    apply gather_point_in_bounds. apply Hin. lia.
  - unfold as_coordinates. now rewrite length_map.
  - change (linear_descs i0 :: map linear_descs rest)
      with (map linear_descs positions).
    unfold as_coordinates. rewrite !map_map. apply map_ext_in. intros ia Hia.
    rewrite linear_nodes_at_integers.
    rewrite Forall_forall in Hlens. now rewrite (Hlens ia Hia).
  - repeat constructor.
  - change (linear_descs i0 :: map linear_descs rest)
      with (map linear_descs positions).
    apply Forall_forall. intros l Hl.
    apply in_map_iff in Hl as (ia & <- & _). discriminate.
Qed.

(** ** Interpolation at the nodes of the grid *)

(** C2, as the code has it: at coordinate arrays holding in-range integer
    grid positions (one array per axis of the input, all of the same
    shape), [map_coordinates] returns the input values at those positions
    for order 0 and for order 1, for every input; for order 3 it does so
    when the input has at least four samples along every axis. *)
Theorem map_coordinates_is_exact_at_grid_nodes (input : ndarray Qc)
    (positions : list (ndarray nat)) (mode : gather_mode) (cval : Qc)
    (Hlen : length positions = ndim input) (Hne : positions <> [])
    (Hin : positions_in_range (shape input) positions) :
  map_coordinates input (as_coordinates positions) 0 mode cval
  = Ok (sample_at input positions)
  /\ map_coordinates input (as_coordinates positions) 1 mode cval
     = Ok (sample_at input positions)
  /\ (wf input -> Forall (fun n => 4 <= n) (shape input) ->
      map_coordinates input (as_coordinates positions) 3 mode cval
      = Ok (sample_at input positions)).
Proof.
  split; [|split].
  - now apply map_coordinates_order0_at_nodes.
  - now apply map_coordinates_order1_at_nodes.
  - intros Hwf Hall. now apply map_coordinates_order3_at_nodes.
Qed.

Lemma map_coordinates_is_exact_at_grid_nodes_witness :
  let input :=
    mk_ndarray [4; 4]
      (map q_of_nat [6; 0; 0; 5; 1; 2; 3; 4; 7; 8; 9; 10; 11; 12; 13; 14]) in
  let positions := [mk_ndarray [3] [0; 1; 3]; mk_ndarray [3] [3; 0; 2]] in
  (length positions = ndim input /\ positions <> []
   /\ positions_in_range (shape input) positions
   /\ wf input /\ Forall (fun n => 4 <= n) (shape input))
  /\ sample_at input positions = mk_ndarray [3] (map q_of_nat [5; 1; 13])
  /\ map_coordinates input (as_coordinates positions) 0 default_mode default_cval
     = Ok (sample_at input positions)
  /\ map_coordinates input (as_coordinates positions) 1 default_mode default_cval
     = Ok (sample_at input positions)
  /\ map_coordinates input (as_coordinates positions) 3 default_mode default_cval
     = Ok (sample_at input positions).
Proof.
  intros input positions.
  assert (Hlen : length positions = ndim input) by reflexivity.
  assert (Hne : positions <> []) by discriminate.
  assert (Hin : positions_in_range (shape input) positions).
  { split; [repeat constructor|].
    intros p Hp. destruct p as [|[|[|p]]]; [reflexivity ..|]. simpl in Hp. lia. }
  assert (Hwf : wf input) by reflexivity.
  assert (Hall : Forall (fun n => 4 <= n) (shape input)) by (repeat constructor).
  split; [exact (conj Hlen (conj Hne (conj Hin (conj Hwf Hall))))|].
  split; [reflexivity|].
  pose proof (@map_coordinates_is_exact_at_grid_nodes input positions
                default_mode default_cval Hlen Hne Hin) as H.
  split; [exact (proj1 H)|].
  split; [exact (proj1 (proj2 H)) | exact (proj2 (proj2 H) Hwf Hall)].
Defined.

(** C2 as stated fails for order 3 on short axes.  With three samples
    [6, 0, 0] the value returned at node 1 is 1, not 0; with two samples
    there is no system to solve and the call raises. *)
Lemma cubic_order_is_not_exact_on_short_axes :
  let input := mk_ndarray [3] (map q_of_nat [6; 0; 0]) in
  let positions := [mk_ndarray [3] [0; 1; 2]] in
  (length positions = ndim input /\ wf input
   /\ positions_in_range (shape input) positions)
  /\ sample_at input positions = mk_ndarray [3] (map q_of_nat [6; 0; 0])
  /\ map_coordinates input (as_coordinates positions) 3 default_mode default_cval
     = Ok (mk_ndarray [3] (map q_of_nat [6; 1; 0]))
  /\ map_coordinates (mk_ndarray [2] (map q_of_nat [1; 1]))
       (as_coordinates [mk_ndarray [2] [0; 1]]) 3 default_mode default_cval
     = Raise TypeError.
Proof.
  intros input positions.
  split.
  { split; [reflexivity|]. split; [reflexivity|].
    split; [repeat constructor|].
    intros p Hp. destruct p as [|[|[|p]]]; [reflexivity ..|]. simpl in Hp. lia. }
  split; [reflexivity|].
  split; vm_compute; reflexivity.
Qed.

(** ** The argument checks of [map_coordinates] *)

Lemma map_coordinates_length_mismatch (input : ndarray Qc)
    (coordinates : list (ndarray Qc)) (order : Z) (mode : gather_mode) (cval : Qc) :
  length coordinates <> ndim input ->
  map_coordinates input coordinates order mode cval = Raise ValueError.
Proof.
  intros Hlen. unfold map_coordinates, _map_coordinates.
  apply Nat.eqb_neq in Hlen. now rewrite Hlen.
Qed.

Lemma map_coordinates_unknown_order (input : ndarray Qc)
    (coordinates : list (ndarray Qc)) (order : Z) (mode : gather_mode) (cval : Qc) :
  length coordinates = ndim input -> ~ valid_order order ->
  map_coordinates input coordinates order mode cval = Raise NotImplementedError.
Proof.
  intros Hlen Hord. unfold map_coordinates, _map_coordinates.
  rewrite Hlen, Nat.eqb_refl. cbn [negb].
  destruct (Z.eqb_spec order 0) as [E0|_]; [elim Hord; now left|].
  destruct (Z.eqb_spec order 1) as [E1|_]; [elim Hord; right; now left|].
  destruct (Z.eqb_spec order 3) as [E3|_]; [elim Hord; right; now right|].
  reflexivity.
Qed.

Lemma valid_order_dec (order : Z) : {valid_order order} + {~ valid_order order}.
Proof.
  unfold valid_order.
  destruct (Z.eq_dec order 0); [left; now left|].
  destruct (Z.eq_dec order 1); [left; right; now left|].
  destruct (Z.eq_dec order 3); [left; right; now right|].
  right. intros [H | [H | H]]; contradiction.
Qed.

Lemma cubic_spline_shape (input : ndarray Qc) (coordinates : list (ndarray Qc))
    (S : list nat) (L : nat) (mode : gather_mode) (cval : Qc) :
  wf input -> Forall (fun n => 3 <= n) (shape input) ->
  coordinates <> [] -> same_shape S L coordinates ->
  exists out, _cubic_spline input coordinates mode cval = Ok out /\ shape out = S.
Proof.
  intros Hwf Hall Hne Hsame.
  destruct (@spline_coefficients_shape Qc _ _ input Hwf Hall) as (C & HC & _ & _).
  unfold _cubic_spline. rewrite HC. simpl bind.
  destruct coordinates as [|c0 rest]; [now elim Hne|].
  eexists. split; [reflexivity|]. simpl.
  inversion Hsame as [|? ? [Hs _] _]. exact Hs.
Qed.

(** For well-shaped arguments every order that is implemented returns an
    array of the coordinate arrays' shape. *)
Lemma map_coordinates_shape (input : ndarray Qc) (coordinates : list (ndarray Qc))
    (order : Z) (S : list nat) (L : nat) (mode : gather_mode) (cval : Qc) :
  length coordinates = ndim input -> valid_order order ->
  coordinates <> [] -> same_shape S L coordinates ->
  (order = 3%Z -> wf input /\ Forall (fun n => 3 <= n) (shape input)) ->
  exists out,
    map_coordinates input coordinates order mode cval = Ok out /\ shape out = S.
Proof.
  intros Hlen Hord Hne Hsame H3.
  destruct coordinates as [|c0 rest] eqn:Ec; [now elim Hne|]. rewrite <- Ec in *.
  assert (Hc0 : shape c0 = S /\ length (data c0) = L).
  { rewrite Ec in Hsame. now inversion Hsame. }
  destruct Hord as [-> | [-> | ->]].
  - rewrite map_coordinates_order0 by assumption.
    eexists. split; [reflexivity|]. rewrite Ec. simpl. apply Hc0.
  - rewrite (@map_coordinates_order1_by_descs input coordinates
               (linear_descs_of c0) (map linear_descs_of rest) S L mode cval).
    + eexists. split; [reflexivity|]. reflexivity.
    + assumption.
    + change (linear_descs_of c0 :: map linear_descs_of rest)
        with (map linear_descs_of (c0 :: rest)).
      rewrite <- Ec, map_map. apply map_ext_in. intros c Hc.
      rewrite linear_nodes_of.
      unfold same_shape in Hsame. rewrite Forall_forall in Hsame.
      now rewrite (proj2 (Hsame c Hc)).
    + repeat constructor; simpl; apply Hc0.
    + change (linear_descs_of c0 :: map linear_descs_of rest)
        with (map linear_descs_of (c0 :: rest)).
      apply Forall_forall. intros l Hl.
      apply in_map_iff in Hl as (c & <- & _). discriminate.
  - destruct (H3 eq_refl) as [Hwf Hall].
    rewrite map_coordinates_order3 by assumption.
    now apply cubic_spline_shape with (L := L).
Qed.

(** C7, as the code has it.  The length of [coordinates] is checked
    first: when it differs from [input.ndim] the call raises a
    [ValueError], whatever the order.  The order is checked next: when
    the lengths agree and the order is none of 0, 1 and 3 the call
    raises a [NotImplementedError].  For at least one coordinate array,
    all of one shape, the call returns an array of that shape when both
    checks pass, for orders 0 and 1 on every input and for order 3 on a
    well-formed input with at least four samples along every axis; so
    that, under this one condition on order 3, a [ValueError] is raised
    exactly when the lengths differ and a [NotImplementedError] exactly
    when the lengths agree and the order is not implemented. *)
Theorem map_coordinates_checks_length_then_order (input : ndarray Qc)
    (coordinates : list (ndarray Qc)) (order : Z) (mode : gather_mode) (cval : Qc) :
  let result_ := map_coordinates input coordinates order mode cval in
  (length coordinates <> ndim input -> result_ = Raise ValueError)
  /\ (length coordinates = ndim input -> ~ valid_order order ->
      result_ = Raise NotImplementedError)
  /\ (forall (S : list nat) (L : nat),
        coordinates <> [] -> same_shape S L coordinates ->
        (order = 3%Z -> wf input /\ Forall (fun n => 4 <= n) (shape input)) ->
        (length coordinates = ndim input -> valid_order order ->
         exists out, result_ = Ok out /\ shape out = S)
        /\ (result_ = Raise ValueError <-> length coordinates <> ndim input)
        /\ (result_ = Raise NotImplementedError
            <-> length coordinates = ndim input /\ ~ valid_order order)).
Proof.
  intros result_.
  assert (Hval : length coordinates <> ndim input -> result_ = Raise ValueError)
    by apply map_coordinates_length_mismatch.
  assert (Hnot : length coordinates = ndim input -> ~ valid_order order ->
                 result_ = Raise NotImplementedError)
    by apply map_coordinates_unknown_order.
  split; [exact Hval|]. split; [exact Hnot|].
  intros S L Hne Hsame H3.
  assert (Hok : length coordinates = ndim input -> valid_order order ->
                exists out, result_ = Ok out /\ shape out = S).
  { intros Hlen Hord. apply map_coordinates_shape with (L := L); auto.
    intros E. destruct (H3 E) as [Hwf Hall]. split; [exact Hwf|].
    apply Forall_impl with (2 := Hall). intros n Hn. lia. }
  split; [exact Hok|].
  destruct (Nat.eq_dec (length coordinates) (ndim input)) as [Hlen | Hlen].
  - destruct (valid_order_dec order) as [Hord | Hord].
    + destruct (Hok Hlen Hord) as (out & Hout & _). rewrite Hout.
      split; split; try discriminate; intros H.
      * contradiction.
      * destruct H as [_ H]. contradiction.
    + rewrite (Hnot Hlen Hord).
      split; split; try discriminate; intros H.
      * contradiction.
      * now split.
      * reflexivity.
  - rewrite (Hval Hlen).
    split; split; try discriminate; intros H.
    + assumption.
    + reflexivity.
    + destruct H as [H _]. contradiction.
Qed.

Lemma map_coordinates_checks_length_then_order_witness :
  let input := mk_ndarray [2] (map q_of_nat [0; 1]) in
  let coordinates := [mk_ndarray [1] [q_frac 1 2]] in
  let long_input := mk_ndarray [4] (map q_of_nat [6; 0; 0; 5]) in
  (coordinates <> [] /\ same_shape [1] 1 coordinates
   /\ (1%Z = 3%Z -> wf input /\ Forall (fun n => 4 <= n) (shape input))
   /\ (3%Z = 3%Z -> wf long_input /\ Forall (fun n => 4 <= n) (shape long_input))
   /\ length coordinates = ndim input /\ valid_order 1 /\ valid_order 3)
  /\ (exists out,
        map_coordinates input coordinates 1 default_mode default_cval = Ok out
        /\ shape out = [1])
  /\ (exists out,
        map_coordinates long_input coordinates 3 default_mode default_cval = Ok out
        /\ shape out = [1])
  /\ map_coordinates input [] 1 default_mode default_cval = Raise ValueError
  /\ map_coordinates input coordinates 2 default_mode default_cval
     = Raise NotImplementedError.
Proof.
  intros input coordinates long_input.
  assert (Hne : coordinates <> []) by discriminate.
  assert (Hsame : same_shape [1] 1 coordinates) by (repeat constructor).
  assert (H1 : 1%Z = 3%Z -> wf input /\ Forall (fun n => 4 <= n) (shape input))
    by discriminate.
  assert (H3 : 3%Z = 3%Z
               -> wf long_input /\ Forall (fun n => 4 <= n) (shape long_input)).
  { intros _. split; [reflexivity | repeat constructor]. }
  assert (Hlen : length coordinates = ndim input) by reflexivity.
  assert (Hord1 : valid_order 1) by (right; now left).
  assert (Hord3 : valid_order 3) by (right; now right).
  split.
  { exact (conj Hne (conj Hsame (conj H1 (conj H3 (conj Hlen (conj Hord1 Hord3)))))). }
  split; [|split; [|split]].
  - pose proof (@map_coordinates_checks_length_then_order input coordinates 1
                  default_mode default_cval) as H.
    exact (proj1 (proj2 (proj2 H) [1] 1 Hne Hsame H1) Hlen Hord1).
  - pose proof (@map_coordinates_checks_length_then_order long_input coordinates 3
                  default_mode default_cval) as H.
    exact (proj1 (proj2 (proj2 H) [1] 1 Hne Hsame H3) eq_refl Hord3).
  - refine (proj1 (@map_coordinates_checks_length_then_order input [] 1
                     default_mode default_cval) _).
    discriminate.
  - refine (proj1 (proj2 (@map_coordinates_checks_length_then_order input coordinates 2
                            default_mode default_cval)) Hlen _).
    intros [H | [H | H]]; discriminate.
Defined.

(** C7 as stated fails in two ways.  With an unknown order and a
    mismatched length the call raises the [ValueError] of the first
    check, not a [NotImplementedError]; and with both checks passed,
    order 3 on an axis of two samples raises instead of returning an
    array. *)
Lemma unknown_order_with_mismatched_length_is_a_value_error :
  let input := mk_ndarray [2] (map q_of_nat [1; 1]) in
  let coordinates := [mk_ndarray [2] (map q_of_nat [0; 1])] in
  (forallb (fun o => negb (2 =? o)%Z) [0; 1; 3]%Z = true
   /\ (length (@nil (ndarray Qc)) =? ndim input) = false
   /\ map_coordinates input [] 2 default_mode default_cval = Raise ValueError)
  /\ ((length coordinates =? ndim input) = true
      /\ map_coordinates input coordinates 3 default_mode default_cval
         = Raise TypeError).
Proof.
  intros input coordinates.
  split; [split; [reflexivity|]; split; reflexivity|].
  split; [reflexivity|]. vm_compute. reflexivity.
Qed.

(* ================================================================== *)
(** * Part III: further properties of the code                         *)
(* ================================================================== *)

(** ** Rounding and flooring of coordinates *)

Lemma this_q_of_Z (z : Z) : (this (q_of_Z z) == inject_Z z)%Q.
Proof. unfold q_of_Z, Q2Qc. cbn [this]. apply Qred_correct. Qed.

Lemma this_q_frac (a : Z) (b : positive) : (this (q_frac a b) == a # b)%Q.
Proof. unfold q_frac, Q2Qc. cbn [this]. apply Qred_correct. Qed.

Lemma floorZ_bounds (x : Qc) :
  (q_of_Z (floorZ x) <= x)%Qc /\ (x < q_of_Z (floorZ x) + 1)%Qc.
Proof.
  unfold floorZ. split.
  - unfold Qcle. rewrite this_q_of_Z. apply Qfloor_le.
  - unfold Qclt, Qcplus, Q2Qc. cbn [this]. rewrite !Qred_correct, this_q_of_Z.
    pose proof (Qlt_floor (this x)) as H. rewrite inject_Z_plus in H. exact H.
Qed.

Lemma floorZ_unique (x : Qc) (k : Z) :
  (q_of_Z k <= x)%Qc -> (x < q_of_Z k + 1)%Qc -> floorZ x = k.
Proof.
  unfold floorZ, Qcle, Qclt, Qcplus, Q2Qc. cbn [this].
  rewrite !Qred_correct, !this_q_of_Z. intros Hle Hlt.
  pose proof (Qfloor_le (this x)) as H1. pose proof (Qlt_floor (this x)) as H2.
  rewrite inject_Z_plus in H2. change (inject_Z 1) with 1%Q in H2.
  assert (A : (inject_Z k < inject_Z (Qfloor (this x) + 1))%Q)
    by (rewrite inject_Z_plus; change (inject_Z 1) with 1%Q; lra).
  assert (B : (inject_Z (Qfloor (this x)) < inject_Z (k + 1))%Q)
    by (rewrite inject_Z_plus; change (inject_Z 1) with 1%Q; lra).
  rewrite <- Zlt_Qlt in A, B. lia.
Qed.

Lemma floorZ_of_Z (k : Z) : floorZ (q_of_Z k) = k.
Proof.
  apply floorZ_unique.
  - apply Qcle_refl.
  - unfold Qclt, Qcplus, Q2Qc. cbn [this]. rewrite !Qred_correct. lra.
Qed.

(** Rounding stays within one half of its argument. *)
Lemma roundZ_bounds (x : Qc) :
  (x - q_frac 1 2 <= q_of_Z (roundZ x))%Qc /\ (q_of_Z (roundZ x) <= x + q_frac 1 2)%Qc.
Proof.
  unfold roundZ, Qcle, Qcminus, Qcplus, Qcopp, Q2Qc. cbn [this].
  rewrite !Qred_correct, !this_q_frac.
  destruct (Qle_bool 0 (this x)) eqn:E.
  - rewrite this_q_of_Z.
    pose proof (Qfloor_le (this x + (1 # 2))) as H1.
    pose proof (Qlt_floor (this x + (1 # 2))) as H2.
    rewrite inject_Z_plus in H2. change (inject_Z 1) with 1%Q in H2. lra.
  - rewrite this_q_of_Z.
    pose proof (Qfloor_le (- this x + (1 # 2))) as H1.
    pose proof (Qlt_floor (- this x + (1 # 2))) as H2.
    rewrite inject_Z_plus in H2. change (inject_Z 1) with 1%Q in H2.
    rewrite inject_Z_opp. lra.
Qed.

(** A coordinate halfway between two nodes goes to the one farther from
    zero. *)
Lemma roundZ_half (k : Z) :
  (0 <= k)%Z ->
  roundZ (q_of_Z k + q_frac 1 2) = (k + 1)%Z
  /\ roundZ (- (q_of_Z k + q_frac 1 2)) = (- (k + 1))%Z.
Proof.
  intros Hk.
  assert (Hx : (this (q_of_Z k + q_frac 1 2) == inject_Z k + (1 # 2))%Q).
  { unfold Qcplus, Q2Qc. cbn [this].
    now rewrite Qred_correct, this_q_of_Z, this_q_frac. }
  assert (Hpos : (0 <= inject_Z k)%Q).
  { change 0%Q with (inject_Z 0). now rewrite <- Zle_Qle. }
  assert (Hf : Qfloor (inject_Z k + (1 # 2) + (1 # 2)) = (k + 1)%Z).
  { transitivity (Qfloor (inject_Z (k + 1))); [|apply Qfloor_Z].
    apply Qfloor_comp. rewrite inject_Z_plus. change (inject_Z 1) with 1%Q. ring. }
  unfold roundZ. split.
  - assert (E : Qle_bool 0 (this (q_of_Z k + q_frac 1 2)) = true).
    { apply Qle_bool_iff. rewrite Hx. lra. }
    rewrite E, <- Hf. apply Qfloor_comp. now rewrite Hx.
  - assert (Hn : (this (- (q_of_Z k + q_frac 1 2)) == - (inject_Z k + (1 # 2)))%Q).
    { unfold Qcopp, Q2Qc. cbn [this]. now rewrite Qred_correct, Hx. }
    assert (E : Qle_bool 0 (this (- (q_of_Z k + q_frac 1 2))) = false).
    { destruct (Qle_bool 0 (this (- (q_of_Z k + q_frac 1 2)))) eqn:E; [|reflexivity].
      apply Qle_bool_iff in E. rewrite Hn in E. lra. }
    rewrite E. f_equal. rewrite <- Hf. apply Qfloor_comp. rewrite Hn. ring.
Qed.

(** ** Order 0: the nearest node *)

Lemma nth_at_get (input : ndarray Qc) (ia0 : ndarray Z) (ias : list (ndarray Z))
    (mode : gather_mode) (cval : Qc) (p : nat) :
  p < length (data ia0) ->
  nth p (data (at_get input (ia0 :: ias) mode cval)) 0%Qc
  = gather_point input (map (fun ia => nth p (data ia) 0%Z) (ia0 :: ias)) mode cval.
Proof.
  intros Hp. unfold at_get. cbn [data].
  rewrite (nth_map_in_range _ _ 0) by now rewrite length_seq.
  now rewrite seq_nth.
Qed.

Lemma nth_amap {A B} (f : A -> B) (x : ndarray A) (p : nat) (d : A) (d' : B) :
  p < length (data x) -> nth p (data (amap f x)) d' = f (nth p (data x) d).
Proof.
  intros Hp. unfold amap. cbn [data]. now apply nth_map_in_range.
Qed.

(** The coordinates of the point at position [p] of the coordinate
    arrays. *)
Lemma rounded_point (coordinates : list (ndarray Qc)) (L p : nat) :
  Forall (fun c => length (data c) = L) coordinates -> p < L ->
  map (fun ia => nth p (data ia) 0%Z) (map _round_half_away_from_zero coordinates)
  = map roundZ (point_at coordinates p).
Proof.
  intros Hall Hp. unfold point_at. rewrite !map_map. apply map_ext_in.
  intros c Hc. rewrite Forall_forall in Hall.
  unfold _round_half_away_from_zero. apply nth_amap. now rewrite (Hall c Hc).
Qed.

Lemma same_shape_lengths (S : list nat) (L : nat) (coordinates : list (ndarray Qc)) :
  same_shape S L coordinates -> Forall (fun c => length (data c) = L) coordinates.
Proof.
  unfold same_shape. apply Forall_impl. now intros c [_ H].
Qed.

(** The values of order 0. *)
Lemma map_coordinates_order0_values (input : ndarray Qc)
    (coordinates : list (ndarray Qc)) (S : list nat) (L : nat)
    (mode : gather_mode) (cval : Qc) :
  length coordinates = ndim input -> coordinates <> [] ->
  same_shape S L coordinates ->
  exists out,
    map_coordinates input coordinates 0 mode cval = Ok out
    /\ shape out = S
    /\ length (data out) = L
    /\ forall p, p < L ->
         nth p (data out) 0%Qc
         = gather_point input (map roundZ (point_at coordinates p)) mode cval.
Proof.
  intros Hlen Hne Hsame.
  rewrite map_coordinates_order0 by assumption.
  destruct coordinates as [|c0 rest] eqn:Ec; [now elim Hne|].
  assert (Hc0 : shape c0 = S /\ length (data c0) = L) by now inversion Hsame.
  eexists. split; [reflexivity|].
  cbn [map]. split; [apply Hc0|]. split.
  { unfold at_get. cbn [data]. rewrite length_map, length_seq.
    unfold _round_half_away_from_zero, amap. cbn [data].
    rewrite length_map. apply Hc0. }
  intros p Hp.
  rewrite nth_at_get.
  - change (_round_half_away_from_zero c0 :: map _round_half_away_from_zero rest)
      with (map _round_half_away_from_zero (c0 :: rest)).
    rewrite (@rounded_point (c0 :: rest) L p); [reflexivity| |exact Hp].
    now apply (same_shape_lengths (S := S)).
  - unfold _round_half_away_from_zero, amap. cbn [data]. rewrite length_map.
    now rewrite (proj2 Hc0).
Qed.

(** With order 0 the value returned at a position is the input gathered
    at the coordinates rounded to the nearest integers, each within one
    half of its coordinate. *)
Theorem order0_reads_the_nearest_node (input : ndarray Qc)
    (coordinates : list (ndarray Qc)) (S : list nat) (L : nat)
    (mode : gather_mode) (cval : Qc)
    (Hlen : length coordinates = ndim input) (Hne : coordinates <> [])
    (Hsame : same_shape S L coordinates) :
  exists out,
    map_coordinates input coordinates 0 mode cval = Ok out
    /\ shape out = S
    /\ length (data out) = L
    /\ forall p, p < L ->
         let x := point_at coordinates p in
         nth p (data out) 0%Qc = gather_point input (map roundZ x) mode cval
         /\ Forall (fun xi => (xi - q_frac 1 2 <= q_of_Z (roundZ xi))%Qc
                              /\ (q_of_Z (roundZ xi) <= xi + q_frac 1 2)%Qc) x.
Proof.
  destruct (map_coordinates_order0_values input mode cval Hlen Hne Hsame)
    as (out & Hout & Hs & HL & Hval).
  exists out. repeat split; auto.
  apply Forall_forall. intros xi _. apply roundZ_bounds.
Qed.

Lemma order0_reads_the_nearest_node_witness :
  let input := mk_ndarray [3] (map q_of_nat [6; 7; 8]) in
  let coordinates := [mk_ndarray [2] [q_frac 1 2; q_frac 7 5]] in
  (length coordinates = ndim input /\ coordinates <> []
   /\ same_shape [2] 2 coordinates)
  /\ exists out,
       map_coordinates input coordinates 0 default_mode default_cval = Ok out
       /\ shape out = [2]
       /\ nth 0 (data out) 0%Qc = q_of_nat 7
       /\ nth 1 (data out) 0%Qc = q_of_nat 7.
Proof.
  intros input coordinates.
  assert (Hlen : length coordinates = ndim input) by reflexivity.
  assert (Hne : coordinates <> []) by discriminate.
  assert (Hsame : same_shape [2] 2 coordinates) by (repeat constructor).
  split; [exact (conj Hlen (conj Hne Hsame))|].
  destruct (@order0_reads_the_nearest_node input coordinates [2] 2
              default_mode default_cval Hlen Hne Hsame)
    as (out & Hout & Hs & _ & Hval).
  exists out. split; [exact Hout|]. split; [exact Hs|]. split.
  - rewrite (proj1 (Hval 0 ltac:(lia))). reflexivity.
  - rewrite (proj1 (Hval 1 ltac:(lia))). reflexivity.
Defined.

(** ** Order 0 at and beyond the boundaries *)

Lemma resolve_axis_in_range (mode : gather_mode) (n : nat) (i : Z) :
  (0 <= i < Z.of_nat n)%Z -> resolve_axis mode n i = Some (Z.to_nat i).
Proof.
  intros Hi. unfold resolve_axis, normalize_index.
  destruct (Z.ltb_spec i 0); [lia|]. destruct mode.
  - destruct (Z.leb_spec 0 i); [|lia].
    destruct (Z.ltb_spec i (Z.of_nat n)); [reflexivity|lia].
  - f_equal. lia.
Qed.

Lemma resolve_axis_from_the_end (mode : gather_mode) (n : nat) (i : Z) :
  (- Z.of_nat n <= i < 0)%Z ->
  resolve_axis mode n i = Some (Z.to_nat (Z.of_nat n + i)).
Proof.
  intros Hi. unfold resolve_axis, normalize_index.
  destruct (Z.ltb_spec i 0); [|lia]. destruct mode.
  - destruct (Z.leb_spec 0 (i + Z.of_nat n)); [|lia].
    destruct (Z.ltb_spec (i + Z.of_nat n) (Z.of_nat n)); [|lia].
    cbn [andb]. f_equal. lia.
  - f_equal. lia.
Qed.

Lemma resolve_axis_fill_outside (n : nat) (i : Z) :
  (i < - Z.of_nat n)%Z \/ (Z.of_nat n <= i)%Z -> resolve_axis Fill n i = None.
Proof.
  intros Hi. unfold resolve_axis, normalize_index.
  destruct (Z.ltb_spec i 0).
  - destruct (Z.leb_spec 0 (i + Z.of_nat n)); [|reflexivity].
    destruct (Z.ltb_spec (i + Z.of_nat n) (Z.of_nat n)); [lia|reflexivity].
  - destruct (Z.leb_spec 0 i); [|lia].
    destruct (Z.ltb_spec i (Z.of_nat n)); [lia|reflexivity].
Qed.

Lemma resolve_axis_clip_above (n : nat) (i : Z) :
  1 <= n -> (Z.of_nat n <= i)%Z -> resolve_axis Clip n i = Some (n - 1).
Proof.
  intros Hn Hi. unfold resolve_axis, normalize_index.
  destruct (Z.ltb_spec i 0); [lia|]. f_equal. lia.
Qed.

Lemma resolve_axis_clip_below (n : nat) (i : Z) :
  1 <= n -> (i < - Z.of_nat n)%Z -> resolve_axis Clip n i = Some 0.
Proof.
  intros Hn Hi. unfold resolve_axis, normalize_index.
  destruct (Z.ltb_spec i 0); [|lia]. f_equal. lia.
Qed.

Lemma resolve_fill_outside (sh : list nat) (idx : list Z) :
  some_out_of_bounds sh idx -> resolve Fill sh idx = None.
Proof.
  revert idx.
  induction sh as [|n sh IH]; intros [|i idx]; cbn [resolve some_out_of_bounds];
    try tauto.
  intros [H | [H | H]].
  - rewrite resolve_axis_fill_outside by now left. reflexivity.
  - rewrite resolve_axis_fill_outside by now right. reflexivity.
  - rewrite (IH idx H). now destruct (resolve_axis Fill n i).
Qed.

Lemma gather_point_1d (input : ndarray Qc) (n : nat) (i : Z) (j : nat)
    (mode : gather_mode) (cval : Qc) :
  shape input = [n] -> resolve_axis mode n i = Some j ->
  gather_point input [i] mode cval = get input [j].
Proof.
  intros Hs Hj. unfold gather_point. rewrite Hs. cbn [resolve]. now rewrite Hj.
Qed.

(** With mode ["fill"], order 0 returns [cval] wherever a rounded
    coordinate falls outside its axis. *)
Theorem order0_fill_returns_cval_outside (input : ndarray Qc)
    (coordinates : list (ndarray Qc)) (S : list nat) (L p : nat) (cval : Qc)
    (Hlen : length coordinates = ndim input) (Hne : coordinates <> [])
    (Hsame : same_shape S L coordinates) (Hp : p < L)
    (Hout : some_out_of_bounds (shape input)
              (map roundZ (point_at coordinates p))) :
  element (map_coordinates input coordinates 0 Fill cval) p = Some cval.
Proof.
  destruct (map_coordinates_order0_values input Fill cval Hlen Hne Hsame)
    as (out & Hout' & _ & _ & Hval).
  rewrite Hout'. simpl. rewrite (Hval p Hp). f_equal.
  unfold gather_point. now rewrite resolve_fill_outside.
Qed.

Lemma order0_fill_returns_cval_outside_witness :
  let input := mk_ndarray [2; 2] (map q_of_nat [6; 7; 8; 9]) in
  let coordinates := [mk_ndarray [1] [q_of_nat 0]; mk_ndarray [1] [q_of_nat 5]] in
  (length coordinates = ndim input /\ coordinates <> []
   /\ same_shape [1] 1 coordinates /\ 0 < 1
   /\ some_out_of_bounds (shape input) (map roundZ (point_at coordinates 0)))
  /\ element (map_coordinates input coordinates 0 Fill (q_of_nat 3)) 0
     = Some (q_of_nat 3).
Proof.
  intros input coordinates.
  assert (Hlen : length coordinates = ndim input) by reflexivity.
  assert (Hne : coordinates <> []) by discriminate.
  assert (Hsame : same_shape [1] 1 coordinates) by (repeat constructor).
  assert (Hp : 0 < 1) by lia.
  assert (Hout : some_out_of_bounds (shape input)
                   (map roundZ (point_at coordinates 0))).
  { simpl. right. right. right. left. vm_compute. discriminate. }
  split; [exact (conj Hlen (conj Hne (conj Hsame (conj Hp Hout))))|].
  exact (@order0_fill_returns_cval_outside input coordinates [1] 1 0 (q_of_nat 3)
           Hlen Hne Hsame Hp Hout).
Defined.

(** Order 0 on one-dimensional data of [n] samples, by where the rounded
    coordinate [k] falls: a node is read as it is; an index from [-n] to
    [-1] counts from the end, in both modes; further out, ["fill"] gives
    [cval] and ["clip"] the nearest end sample. *)
Theorem order0_at_the_boundaries (input c : ndarray Qc) (n p : nat) (cval : Qc)
    (Hshape : shape input = [n]) (Hn : 1 <= n) (Hp : p < length (data c)) :
  let k := roundZ (nth p (data c) 0%Qc) in
  let value := fun mode => element (map_coordinates input [c] 0 mode cval) p in
  ((0 <= k < Z.of_nat n)%Z ->
   value Fill = Some (get input [Z.to_nat k])
   /\ value Clip = Some (get input [Z.to_nat k]))
  /\ ((- Z.of_nat n <= k < 0)%Z ->
      value Fill = Some (get input [Z.to_nat (Z.of_nat n + k)])
      /\ value Clip = Some (get input [Z.to_nat (Z.of_nat n + k)]))
  /\ ((Z.of_nat n <= k)%Z ->
      value Fill = Some cval /\ value Clip = Some (get input [n - 1]))
  /\ ((k < - Z.of_nat n)%Z ->
      value Fill = Some cval /\ value Clip = Some (get input [0])).
Proof.
  intros k value.
  assert (Hlen : length [c] = ndim input) by (unfold ndim; now rewrite Hshape).
  assert (Hne : [c] <> []) by discriminate.
  assert (Hsame : same_shape (shape c) (length (data c)) [c]) by (repeat constructor).
  assert (Hv : forall mode,
             value mode = Some (gather_point input [k] mode cval)).
  { intros mode. unfold value.
    destruct (map_coordinates_order0_values input mode cval Hlen Hne Hsame)
      as (out & Hout & _ & _ & Hval).
    rewrite Hout. simpl. now rewrite (Hval p Hp). }
  rewrite !Hv.
  split; [|split; [|split]]; intros Hk.
  - split; f_equal; apply gather_point_1d with (n := n); auto;
      now apply resolve_axis_in_range.
  - split; f_equal; apply gather_point_1d with (n := n); auto;
      now apply resolve_axis_from_the_end.
  - split; f_equal.
    + unfold gather_point. rewrite Hshape. cbn [resolve].
      rewrite resolve_axis_fill_outside by now right. reflexivity.
    + apply gather_point_1d with (n := n); auto.
      now apply resolve_axis_clip_above.
  - split; f_equal.
    + unfold gather_point. rewrite Hshape. cbn [resolve].
      rewrite resolve_axis_fill_outside by now left. reflexivity.
    + apply gather_point_1d with (n := n); auto.
      now apply resolve_axis_clip_below.
Qed.

Lemma order0_at_the_boundaries_witness :
  let input := mk_ndarray [3] (map q_of_nat [6; 7; 8]) in
  let c := mk_ndarray [4] [q_of_nat 1; (- q_of_nat 1)%Qc; q_of_nat 4; (- q_of_nat 9)%Qc] in
  (shape input = [3] /\ 1 <= 3 /\ 1 < length (data c))
  /\ element (map_coordinates input [c] 0 Fill (q_of_nat 5)) 1 = Some (q_of_nat 8)
  /\ element (map_coordinates input [c] 0 Clip (q_of_nat 5)) 1 = Some (q_of_nat 8).
Proof.
  intros input c.
  assert (Hshape : shape input = [3]) by reflexivity.
  assert (Hn : 1 <= 3) by lia.
  assert (Hp : 1 < length (data c)) by (simpl; lia).
  split; [exact (conj Hshape (conj Hn Hp))|].
  pose proof (@order0_at_the_boundaries input c 3 1 (q_of_nat 5) Hshape Hn Hp) as H.
  cbv zeta in H.
  assert (Hk : (- Z.of_nat 3 <= roundZ (nth 1 (data c) 0%Qc) < 0)%Z)
    by (vm_compute; split; [discriminate | reflexivity]).
  exact (proj1 (proj2 H) Hk).
Defined.

(** A coordinate exactly halfway between two nodes of one-dimensional
    data is rounded away from zero: [k + 1/2] reads node [k + 1], and
    [-(k + 1/2)] reads index [-(k + 1)], the sample [k + 1] places from
    the end. *)
Theorem order0_rounds_half_away_from_zero (input c : ndarray Qc) (n p k : nat)
    (mode : gather_mode) (cval : Qc)
    (Hshape : shape input = [n]) (Hp : p < length (data c)) (Hk : k + 1 < n) :
  (nth p (data c) 0%Qc = (q_of_nat k + q_frac 1 2)%Qc ->
   element (map_coordinates input [c] 0 mode cval) p = Some (get input [k + 1]))
  /\ (nth p (data c) 0%Qc = (- (q_of_nat k + q_frac 1 2))%Qc ->
      element (map_coordinates input [c] 0 mode cval) p
      = Some (get input [n - (k + 1)])).
Proof.
  assert (Hlen : length [c] = ndim input) by (unfold ndim; now rewrite Hshape).
  assert (Hne : [c] <> []) by discriminate.
  assert (Hsame : same_shape (shape c) (length (data c)) [c]) by (repeat constructor).
  destruct (map_coordinates_order0_values input mode cval Hlen Hne Hsame)
    as (out & Hout & _ & _ & Hval).
  rewrite Hout. simpl. rewrite (Hval p Hp). unfold point_at. cbn [map].
  destruct (@roundZ_half (Z.of_nat k)) as [Hup Hdown]; [lia|].
  split; intros Hx; rewrite Hx; f_equal; apply gather_point_1d with (n := n); auto.
  - unfold q_of_nat. rewrite Hup.
    rewrite resolve_axis_in_range by lia. f_equal. lia.
  - unfold q_of_nat. rewrite Hdown.
    rewrite resolve_axis_from_the_end by lia. f_equal. lia.
Qed.

Lemma order0_rounds_half_away_from_zero_witness :
  let input := mk_ndarray [4] (map q_of_nat [6; 7; 8; 9]) in
  let c := mk_ndarray [1] [(q_of_nat 2 + q_frac 1 2)%Qc] in
  (shape input = [4] /\ 0 < length (data c) /\ 2 + 1 < 4
   /\ nth 0 (data c) 0%Qc = (q_of_nat 2 + q_frac 1 2)%Qc)
  /\ element (map_coordinates input [c] 0 default_mode default_cval) 0
     = Some (q_of_nat 9).
Proof.
  intros input c.
  assert (Hshape : shape input = [4]) by reflexivity.
  assert (Hp : 0 < length (data c)) by (simpl; lia).
  assert (Hk : 2 + 1 < 4) by lia.
  assert (Hx : nth 0 (data c) 0%Qc = (q_of_nat 2 + q_frac 1 2)%Qc) by reflexivity.
  split; [exact (conj Hshape (conj Hp (conj Hk Hx)))|].
  exact (proj1 (@order0_rounds_half_away_from_zero input c 4 0 2
                  default_mode default_cval Hshape Hp Hk) Hx).
Defined.

(** ** Order 1: interpolation between the corners of a cell *)

Lemma qsum_flat_map {A} (g : A -> list Qc) (l : list A) :
  qsum (flat_map g l) = qsum (map (fun a => qsum (g a)) l).
Proof.
  induction l as [|a l IH]; simpl; [reflexivity|].
  now rewrite qsum_app, qsum_cons, IH.
Qed.

Lemma qsum_scale_r {A} (c : Qc) (f : A -> Qc) (l : list A) :
  qsum (map (fun x => f x * c)%Qc l) = (qsum (map f l) * c)%Qc.
Proof.
  rewrite Qcmult_comm, <- qsum_scale. f_equal. apply map_ext. intros x. ring.
Qed.


Lemma product_members {A} (ls : list (list A)) (t : list A) :
  In t (product ls) -> Forall2 (fun a l => In a l) t ls.
Proof.
  revert t. induction ls as [|l ls IH]; intros t; cbn [product].
  - intros [<- | []]. constructor.
  - rewrite in_flat_map. intros (a & Ha & Ht).
    apply in_map_iff in Ht as (t' & <- & Ht'). constructor; auto.
Qed.














(** ** The cubic B-spline basis *)

Lemma q_of_Z_small :
  q_of_Z 2 = (1 + 1)%Qc /\ q_of_Z 3 = (1 + 1 + 1)%Qc
  /\ q_of_Z 4 = (1 + 1 + 1 + 1)%Qc /\ q_of_Z 6 = (1 + 1 + 1 + 1 + 1 + 1)%Qc.
Proof. repeat split; apply Qc_is_canon; reflexivity. Qed.

Lemma spline_basis_outer (t : Qc) :
  (1 <= Qcabs t)%Qc -> (Qcabs t <= q_of_Z 2)%Qc ->
  _spline_basis t = ((q_of_Z 2 - Qcabs t) ^ 3)%Qc.
Proof.
  intros H1 H2. unfold _spline_basis. cbv zeta.
  apply qle_iff in H1, H2. now rewrite H1, H2.
Qed.

Lemma spline_basis_inner (t : Qc) :
  (Qcabs t <= 1)%Qc ->
  _spline_basis t
  = (q_of_Z 4 - q_of_Z 6 * Qcabs t ^ 2 + q_of_Z 3 * Qcabs t ^ 3)%Qc.
Proof.
  intros H1. unfold _spline_basis. cbv zeta.
  destruct (qle 1%Qc (Qcabs t)) eqn:E.
  - apply qle_iff in E.
    assert (Ea : Qcabs t = 1%Qc) by now apply Qcle_antisym.
    rewrite Ea.
    assert (E2 : qle 1%Qc (q_of_Z 2) = true) by reflexivity.
    rewrite E2. apply Qc_is_canon. reflexivity.
  - apply qle_iff in H1. now rewrite H1.
Qed.

Lemma spline_basis_far (t : Qc) :
  (q_of_Z 2 <= Qcabs t)%Qc -> _spline_basis t = 0%Qc.
Proof.
  intros H2. unfold _spline_basis. cbv zeta.
  assert (H1 : (1 <= Qcabs t)%Qc).
  { apply Qcle_trans with (y := q_of_Z 2); [|exact H2].
    apply qle_iff. reflexivity. }
  apply qle_iff in H1. rewrite H1.
  destruct (qle (Qcabs t) (q_of_Z 2)) eqn:E; [|reflexivity].
  apply qle_iff in E.
  assert (Ea : Qcabs t = q_of_Z 2) by now apply Qcle_antisym.
  rewrite Ea. apply Qc_is_canon. reflexivity.
Qed.

(** The four basis values around a coordinate with fractional part [f]. *)
Lemma spline_basis_window (f : Qc) :
  (0 <= f)%Qc -> (f < 1)%Qc ->
  _spline_basis (f + 1) = ((1 - f) ^ 3)%Qc
  /\ _spline_basis f = (q_of_Z 4 - q_of_Z 6 * f ^ 2 + q_of_Z 3 * f ^ 3)%Qc
  /\ _spline_basis (f - 1)
     = (q_of_Z 4 - q_of_Z 6 * (1 - f) ^ 2 + q_of_Z 3 * (1 - f) ^ 3)%Qc
  /\ _spline_basis (f - q_of_Z 2) = (f ^ 3)%Qc.
Proof.
  intros H0 H1.
  assert (A1 : Qcabs (f + 1) = (f + 1)%Qc) by (apply Qcabs_pos; qc2q; lra).
  assert (A2 : Qcabs f = f) by now apply Qcabs_pos.
  assert (A3 : Qcabs (f - 1) = (1 - f)%Qc).
  { rewrite Qcabs_neg by (qc2q; lra). ring. }
  assert (A4 : Qcabs (f - q_of_Z 2) = (q_of_Z 2 - f)%Qc).
  { rewrite Qcabs_neg by (qc2q; lra). ring. }
  destruct q_of_Z_small as (E2 & E3 & E4 & E6).
  repeat split.
  - rewrite spline_basis_outer; rewrite A1; [|qc2q; lra|qc2q; lra].
    rewrite E2. f_equal. ring.
  - rewrite spline_basis_inner; rewrite A2; [reflexivity|].
    now apply Qclt_le_weak.
  - rewrite spline_basis_inner; rewrite A3; [reflexivity|qc2q; lra].
  - rewrite spline_basis_outer; rewrite A4; [|qc2q; lra|qc2q; lra].
    f_equal. ring.
Qed.

(** The basis function is even, vanishes from distance 2 on, and the four
    values that the evaluation of the spline uses around any coordinate,
    at the nodes [floor x - 1] to [floor x + 2], sum to 6. *)
Theorem spline_basis_weights_sum_to_six (x : Qc) :
  _spline_basis (- x) = _spline_basis x
  /\ ((q_of_Z 2 <= Qcabs x)%Qc -> _spline_basis x = 0%Qc)
  /\ qsum (map (fun k => _spline_basis (x - q_of_Z (k + floorZ x) + 1)%Qc)
               [0; 1; 2; 3]%Z)
     = q_of_Z 6.
Proof.
  split; [|split].
  - unfold _spline_basis. cbv zeta. now rewrite Qcabs_opp.
  - apply spline_basis_far.
  - destruct (floorZ_bounds x) as [Hlo Hhi].
    set (f := (x - q_of_Z (floorZ x))%Qc).
    assert (H0 : (0 <= f)%Qc) by (unfold f; qc2q; lra).
    assert (H1 : (f < 1)%Qc) by (unfold f; qc2q; lra).
    destruct (spline_basis_window H0 H1) as (B0 & B1 & B2 & B3).
    destruct q_of_Z_small as (E2 & E3 & E4 & E6).
    cbn [map]. rewrite !q_of_Z_add.
    replace (x - (q_of_Z 0 + q_of_Z (floorZ x)) + 1)%Qc with (f + 1)%Qc
      by (unfold f; rewrite q_of_Z_0; ring).
    replace (x - (q_of_Z 1 + q_of_Z (floorZ x)) + 1)%Qc with f
      by (unfold f; rewrite q_of_Z_1; ring).
    replace (x - (q_of_Z 2 + q_of_Z (floorZ x)) + 1)%Qc with (f - 1)%Qc
      by (unfold f; rewrite E2; ring).
    replace (x - (q_of_Z 3 + q_of_Z (floorZ x)) + 1)%Qc with (f - q_of_Z 2)%Qc
      by (unfold f; rewrite E2, E3; ring).
    rewrite B0, B1, B2, B3, !qsum_cons. change (qsum []) with 0%Qc.
    rewrite E3, E4, E6. cbn [Qcpower]. ring.
Qed.

(** ** The coefficients of one-dimensional data *)

Lemma nth_coefficient_layout (a b c d : Qc) (s : list Qc) (m : nat) :
  length s = m -> 1 <= m ->
  let cs := [a; b] ++ s ++ [c; d] in
  nth 0 cs 0%Qc = a /\ nth 1 cs 0%Qc = b /\ nth 2 cs 0%Qc = nth 0 s 0%Qc
  /\ nth (m + 1) cs 0%Qc = nth (m - 1) s 0%Qc
  /\ nth (m + 2) cs 0%Qc = c /\ nth (m + 3) cs 0%Qc = d.
Proof.
  intros Hs Hm cs. unfold cs.
  repeat split; try reflexivity.
  - cbn [app nth]. rewrite app_nth1 by lia. reflexivity.
  - replace (m + 1) with (S (S (m - 1))) by lia. cbn [app nth].
    rewrite app_nth1 by lia. reflexivity.
  - replace (m + 2) with (S (S m)) by lia. cbn [app nth].
    rewrite app_nth2 by lia. rewrite Hs, Nat.sub_diag. reflexivity.
  - replace (m + 3) with (S (S (S m))) by lia. cbn [app nth].
    rewrite app_nth2 by lia. rewrite Hs.
    replace (S m - m) with 1 by lia. reflexivity.
Qed.

(** The coefficients of one-dimensional data of [n >= 4] samples: there
    are [n + 2] of them; around every node [k] they satisfy
    [c[k] + 4 c[k+1] + c[k+2] = data[k]]; the second and the last but
    one are a sixth of the end samples; and at both ends the second
    difference of the coefficients vanishes. *)
Theorem solve_coefficients_interpolates (data : list Qc) (n : nat)
    (Hn : length data = n) (H4 : 4 <= n) :
  exists A,
    _build_operator (Z.of_nat n - 2) = Ok A
    /\ let cs := _solve_coefficients data A in
       length cs = n + 2
       /\ (forall k, k < n ->
             (nth k cs 0 + q_of_Z 4 * nth (k + 1) cs 0 + nth (k + 2) cs 0
              = nth k data 0)%Qc)
       /\ nth 1 cs 0%Qc = (q_frac 1 6 * nth 0 data 0)%Qc
       /\ nth n cs 0%Qc = (q_frac 1 6 * nth (n - 1) data 0)%Qc
       /\ (nth 0 cs 0 - q_of_Z 2 * nth 1 cs 0 + nth 2 cs 0 = 0)%Qc
       /\ (nth (n - 1) cs 0 - q_of_Z 2 * nth n cs 0 + nth (n + 1) cs 0 = 0)%Qc.
Proof.
  exists (axis_operator n). split.
  { replace (Z.of_nat n - 2)%Z with (Z.of_nat (n - 2)) by lia.
    rewrite build_operator_ok by lia. reflexivity. }
  cbv zeta. split; [apply length_solve_coefficients; lia|].
  split; [intros k Hk; now apply solve_coefficients_window|].
  unfold _solve_coefficients. cbv zeta. scalar_qc.
  set (c2 := (q_frac 1 6 * item data 0)%Qc).
  set (cnp2 := (q_frac 1 6 * item data (-1))%Qc).
  set (sol := linear_solve (axis_operator n) (_construct_vector data c2 cnp2)).
  assert (Hs : length sol = n - 2).
  { apply length_linear_solve; [lia|].
    unfold _construct_vector. now rewrite !length_at_set, length_interior, Hn. }
  assert (Hitem0 : item sol 0 = nth 0 sol 0%Qc) by (apply (item_nat sol 0)).
  assert (Hitem1 : item sol (-1) = nth (n - 3) sol 0%Qc).
  { change (-1)%Z with (- Z.of_nat 1)%Z. rewrite item_from_end by lia.
    rewrite Hs. f_equal. lia. }
  assert (Hd0 : item data 0 = nth 0 data 0%Qc) by (apply (item_nat data 0)).
  assert (Hd1 : item data (-1) = nth (n - 1) data 0%Qc).
  { change (-1)%Z with (- Z.of_nat 1)%Z. rewrite item_from_end by lia.
    now rewrite Hn. }
  rewrite Hitem0, Hitem1.
  destruct (@nth_coefficient_layout (q_of_Z 2 * c2 - nth 0 sol 0)%Qc c2 cnp2
              (q_of_Z 2 * cnp2 - nth (n - 3) sol 0)%Qc sol (n - 2) Hs ltac:(lia))
    as (E0 & E1 & E2 & E3 & E4 & E5).
  replace (n - 2 + 1) with (n - 1) in E3 by lia.
  replace (n - 2 - 1) with (n - 3) in E3 by lia.
  replace (n - 2 + 2) with n in E4 by lia.
  replace (n - 2 + 3) with (n + 1) in E5 by lia.
  rewrite E0, E1, E2, E3, E4, E5.
  unfold c2, cnp2. rewrite Hd0, Hd1.
  repeat split; try reflexivity; ring.
Qed.

Lemma solve_coefficients_interpolates_witness :
  let data := map q_of_nat [6; 0; 0; 6] in
  (length data = 4 /\ 4 <= 4)
  /\ exists A,
       _build_operator (Z.of_nat 4 - 2) = Ok A
       /\ length (_solve_coefficients data A) = 6
       /\ nth 1 (_solve_coefficients data A) 0%Qc = 1%Qc.
Proof.
  intros data.
  assert (Hn : length data = 4) by reflexivity.
  assert (H4 : 4 <= 4) by lia.
  split; [exact (conj Hn H4)|].
  destruct (@solve_coefficients_interpolates data 4 Hn H4)
    as (A & HA & Hlen & _ & H1 & _).
  exists A. split; [exact HA|]. split; [exact Hlen|].
  rewrite H1. apply Qc_is_canon. reflexivity.
Defined.

(** ** Axes too short for a cubic spline *)

Lemma fold_result_raise {S} (step : S -> nat -> result S) (l : list nat) (e : exn) :
  fold_left (fun acc i => x <- acc ;; step x i) l (Raise e) = Raise e.
Proof. induction l as [|i l IH]; simpl; [reflexivity | exact IH]. Qed.

Lemma spline_coefficients_axis_fails {F} `{Scalar F} `{Default F}
    (x : ndarray F) (sh : list nat) (i : nat) :
  i < length sh -> shape x = coefficient_shape sh i ->
  nth (length sh - i - 1) sh 0 < 3 ->
  _spline_coefficients_axis (length sh) x i = Raise TypeError.
Proof.
  intros Hi Hs Hn. unfold _spline_coefficients_axis.
  destruct (coefficient_shape_step sh Hi) as (E1 & _ & L1 & _).
  rewrite Hs, E1. rewrite <- L1 at 1. rewrite nth_middle.
  rewrite build_operator_fails by lia. reflexivity.
Qed.

(** The loop over the axes, turn by turn: either it has failed with a
    [TypeError], or every axis met so far has at least three samples and
    holds coefficients. *)
Lemma spline_coefficients_turns {F} `{Scalar F} `{Default F} (data : ndarray F) :
  wf data ->
  let sh := shape data in
  forall m, m <= length sh ->
    let r := fold_left (fun acc i => x <- acc ;; _spline_coefficients_axis (length sh) x i)
                       (seq 0 m) (Ok data) in
    r = Raise TypeError
    \/ (exists y, r = Ok y /\ wf y /\ shape y = coefficient_shape sh m
                  /\ forall i, i < m -> 3 <= nth (length sh - i - 1) sh 0).
Proof.
  intros Hwf sh m. induction m as [|m IH]; intros Hm r.
  - right. exists data. split; [reflexivity|]. split; [exact Hwf|]. split.
    + unfold coefficient_shape.
      rewrite Nat.sub_0_r, firstn_all, skipn_all. simpl. now rewrite app_nil_r.
    + intros i Hi. lia.
  - unfold r. rewrite seq_S, fold_left_app. cbn [fold_left Nat.add].
    destruct (IH ltac:(lia)) as [Hr | (y & Hy & Hwy & Hsy & Hall)].
    + left. now rewrite Hr.
    + rewrite Hy. cbn [bind].
      destruct (le_lt_dec 3 (nth (length sh - m - 1) sh 0)) as [Hn | Hn].
      * right.
        destruct (coefficient_shape_step sh (i := m) ltac:(lia)) as (E1 & E2 & L1 & L2).
        set (a := length sh - m - 1) in *.
        rewrite E1 in Hsy.
        destruct (spline_coefficients_axis_applies y _ _ Hn Hsy) as (fn & Hfn & Happ).
        rewrite L1, L2 in Hfn.
        replace (a + 1 + m) with (length sh) in Hfn by (unfold a; lia).
        exists (fn y). split; [exact Hfn|].
        destruct (Happ y Hwy Hsy) as (Hw' & Hs' & _).
        split; [exact Hw'|]. split; [change (S m) with (1 + m); now rewrite E2|].
        intros i Hi. destruct (Nat.eq_dec i m) as [-> | Hne]; [exact Hn|].
        apply Hall. lia.
      * left. apply spline_coefficients_axis_fails; auto; lia.
Qed.

Lemma spline_coefficients_short_axis {F} `{Scalar F} `{Default F} (data : ndarray F) :
  wf data -> Exists (fun n => n < 3) (shape data) ->
  _spline_coefficients data = Raise TypeError.
Proof.
  intros Hwf Hex.
  destruct (spline_coefficients_turns Hwf (m := length (shape data)) (le_n _))
    as [Hr | (y & _ & _ & _ & Hall)]; [exact Hr|].
  exfalso. apply Exists_exists in Hex as (n & Hin & Hn).
  apply (In_nth _ _ 0) in Hin as (a & Ha & <-).
  specialize (Hall (length (shape data) - a - 1) ltac:(lia)).
  replace (length (shape data) - (length (shape data) - a - 1) - 1) with a in Hall by lia.
  lia.
Qed.

(** [_spline_coefficients] needs three samples along every axis: it
    returns coefficients, two more per axis, when every axis has at least
    three samples, and raises a [TypeError] when some axis has fewer. *)
Theorem spline_coefficients_need_three_samples {F} `{Scalar F} `{Default F}
    (data : ndarray F) (Hwf : wf data) :
  (Forall (fun n => 3 <= n) (shape data) ->
   exists coefficients,
     _spline_coefficients data = Ok coefficients
     /\ wf coefficients
     /\ shape coefficients = map (fun s => s + 2) (shape data))
  /\ (Exists (fun n => n < 3) (shape data) ->
      _spline_coefficients data = Raise TypeError).
Proof.
  split; [now apply spline_coefficients_shape|].
  now apply spline_coefficients_short_axis.
Qed.

Lemma spline_coefficients_need_three_samples_witness :
  let data := mk_ndarray [3; 2] (map q_of_nat [1; 2; 3; 4; 5; 6]) in
  (wf data /\ Exists (fun n => n < 3) (shape data))
  /\ _spline_coefficients data = Raise TypeError.
Proof.
  intros data.
  assert (Hwf : wf data) by reflexivity.
  assert (Hex : Exists (fun n => n < 3) (shape data))
    by (apply Exists_cons_tl, Exists_cons_hd; lia).
  split; [exact (conj Hwf Hex)|].
  exact (proj2 (@spline_coefficients_need_three_samples Qc _ _ data Hwf) Hex).
Defined.

(** With order 3 an input with fewer than three samples along some axis
    is rejected with a [TypeError], whatever the coordinate arrays (of
    one shape) hold. *)
Theorem order3_rejects_short_axes (input : ndarray Qc)
    (coordinates : list (ndarray Qc)) (mode : gather_mode) (cval : Qc)
    (Hwf : wf input) (Hlen : length coordinates = ndim input)
    (Hshort : Exists (fun n => n < 3) (shape input)) :
  map_coordinates input coordinates 3 mode cval = Raise TypeError.
Proof.
  rewrite map_coordinates_order3 by assumption.
  unfold _cubic_spline. now rewrite spline_coefficients_short_axis.
Qed.

Lemma order3_rejects_short_axes_witness :
  let input := mk_ndarray [2] (map q_of_nat [1; 1]) in
  let coordinates := [mk_ndarray [1] [q_frac 1 2]] in
  (wf input /\ length coordinates = ndim input
   /\ Exists (fun n => n < 3) (shape input))
  /\ map_coordinates input coordinates 3 default_mode default_cval = Raise TypeError.
Proof.
  intros input coordinates.
  assert (Hwf : wf input) by reflexivity.
  assert (Hlen : length coordinates = ndim input) by reflexivity.
  assert (Hshort : Exists (fun n => n < 3) (shape input))
    by (apply Exists_cons_hd; lia).
  split; [exact (conj Hwf (conj Hlen Hshort))|].
  exact (@order3_rejects_short_axes input coordinates default_mode default_cval
           Hwf Hlen Hshort).
Defined.

(** A [FourierVoxelGridInterpolator] cannot be built from a grid with
    fewer than three samples along some axis: its [__init__] raises a
    [TypeError] in the computation of the coefficients. *)
Theorem interpolator_rejects_short_axes (fourier_voxel_grid : ndarray complex)
    (frequency_slice : FrequencySlice.t) (voxel_size : Qc)
    (Hwf : wf fourier_voxel_grid)
    (Hshort : Exists (fun n => n < 3) (shape fourier_voxel_grid)) :
  FourierVoxelGridInterpolator.__init__ fourier_voxel_grid frequency_slice voxel_size
  = Raise TypeError.
Proof.
  unfold FourierVoxelGridInterpolator.__init__, compute_spline_coefficients.
  now rewrite spline_coefficients_short_axis.
Qed.

Lemma interpolator_rejects_short_axes_witness :
  let fourier_voxel_grid := full [2; 2; 2] (1%Qc, 0%Qc) in
  let frequency_slice := FrequencySlice.make (full [2; 2; 3] 0%Qc) in
  (wf fourier_voxel_grid /\ Exists (fun n => n < 3) (shape fourier_voxel_grid))
  /\ FourierVoxelGridInterpolator.__init__ fourier_voxel_grid frequency_slice 1%Qc
     = Raise TypeError.
Proof.
  intros fourier_voxel_grid frequency_slice.
  assert (Hwf : wf fourier_voxel_grid) by reflexivity.
  assert (Hshort : Exists (fun n => n < 3) (shape fourier_voxel_grid))
    by (apply Exists_cons_hd; simpl; lia).
  split; [exact (conj Hwf Hshort)|].
  exact (@interpolator_rejects_short_axes fourier_voxel_grid frequency_slice 1%Qc
           Hwf Hshort).
Defined.

(** An input without axes cannot be interpolated: with no coordinate
    array the length check passes, and orders 0 and 1 then fail with a
    [TypeError] on the empty product of weights. *)
Theorem scalar_input_is_rejected (input : ndarray Qc) (mode : gather_mode) (cval : Qc)
    (Hscalar : ndim input = 0) :
  map_coordinates input [] 0 mode cval = Raise TypeError
  /\ map_coordinates input [] 1 mode cval = Raise TypeError.
Proof.
  unfold map_coordinates, _map_coordinates. rewrite Hscalar. split; reflexivity.
Qed.

Lemma scalar_input_is_rejected_witness :
  let input := mk_ndarray [] [q_of_nat 5] in
  ndim input = 0
  /\ map_coordinates input [] 0 default_mode default_cval = Raise TypeError
  /\ map_coordinates input [] 1 default_mode default_cval = Raise TypeError.
Proof.
  intros input.
  assert (Hscalar : ndim input = 0) by reflexivity.
  split; [exact Hscalar|].
  exact (@scalar_input_is_rejected input default_mode default_cval Hscalar).
Defined.

(** ** Padding and cropping of a real voxel grid *)

Lemma py_int_nonneg (q : Qc) : (0 <= q)%Qc -> py_int q = floorZ q.
Proof.
  intros Hq. unfold py_int, floorZ, Qfloor. destruct (this q) as [num den] eqn:E.
  cbn [Qnum Qden]. apply Z.quot_div_nonneg; [|reflexivity].
  unfold Qcle in Hq. rewrite E in Hq. unfold Qle in Hq. simpl in Hq. lia.
Qed.

Lemma py_int_of_Z (z : Z) : py_int (q_of_Z z) = z.
Proof.
  unfold py_int, q_of_Z, Q2Qc. cbn [this].
  rewrite Qred_identity by (simpl; apply Z.gcd_1_r).
  simpl. apply Z.quot_1_r.
Qed.

Lemma q_of_Z_mul (a b : Z) : q_of_Z (a * b) = (q_of_Z a * q_of_Z b)%Qc.
Proof.
  apply Qc_is_canon. unfold q_of_Z, Qcmult, Q2Qc. cbn [this].
  rewrite !Qred_correct. rewrite inject_Z_mult. reflexivity.
Qed.

Lemma q_of_nat_nonneg (s : nat) : (0 <= q_of_nat s)%Qc.
Proof.
  unfold q_of_nat, Qcle. rewrite this_q_of_Z. change (this 0%Qc) with (inject_Z 0).
  rewrite <- Zle_Qle. lia.
Qed.

Lemma floorZ_le (q r : Qc) : (q <= r)%Qc -> (floorZ q <= floorZ r)%Z.
Proof. unfold floorZ, Qcle. apply Qfloor_resp_le. Qed.

(** [int(s * scale)] for an extent [s] and a scale factor. *)
Lemma scaled_extent (s : nat) (scale : Qc) :
  ((1 <= scale)%Qc -> (Z.of_nat s <= py_int (q_of_nat s * scale))%Z)
  /\ ((0 <= scale)%Qc -> (scale <= 1)%Qc ->
      (0 <= py_int (q_of_nat s * scale) <= Z.of_nat s)%Z)
  /\ (forall k : nat, scale = q_of_nat k ->
      py_int (q_of_nat s * scale) = Z.of_nat (k * s)).
Proof.
  pose proof (q_of_nat_nonneg s) as Hs.
  assert (Hmul : forall c, (0 <= c)%Qc -> (0 <= q_of_nat s * c)%Qc).
  { intros c Hc. revert Hs Hc. unfold Qcle, Qcmult, Q2Qc. cbn [this].
    change (Qred 0) with 0%Q. intros Hs Hc. rewrite Qred_correct.
    now apply Qmult_le_0_compat. }
  split; [|split].
  - intros H1.
    assert (H0 : (0 <= scale)%Qc).
    { apply Qcle_trans with (y := 1%Qc); [|exact H1]. apply qle_iff. reflexivity. }
    rewrite py_int_nonneg by now apply Hmul.
    rewrite <- (floorZ_of_Z (Z.of_nat s)). apply floorZ_le.
    fold (q_of_nat s).
    replace (q_of_nat s) with (q_of_nat s * 1)%Qc at 1 by ring.
    rewrite !(Qcmult_comm (q_of_nat s)). now apply Qcmult_le_compat_r.
  - intros H0 H1. rewrite py_int_nonneg by now apply Hmul. split.
    + rewrite <- (floorZ_of_Z 0). apply floorZ_le. rewrite q_of_Z_0. now apply Hmul.
    + apply Z.le_trans with (m := floorZ (q_of_nat s));
        [|unfold q_of_nat; rewrite floorZ_of_Z; lia].
      apply floorZ_le.
      replace (q_of_nat s) with (q_of_nat s * 1)%Qc at 2 by ring.
      rewrite (Qcmult_comm (q_of_nat s) scale), (Qcmult_comm (q_of_nat s) 1).
      now apply Qcmult_le_compat_r.
  - intros k ->. unfold q_of_nat. rewrite <- q_of_Z_mul, py_int_of_Z. lia.
Qed.

(** Padding never shrinks the grid: for [pad_scale >= 1] every padded
    extent is at least the extent of the grid; an integer [pad_scale = k]
    gives [k] times the extent, so the default [1.0] leaves the shape as
    it is. *)
Theorem padding_never_shrinks_the_grid (real_voxel_grid : ndarray Qc)
    (pad_scale : Qc) (Hp : (1 <= pad_scale)%Qc) :
  let padded_shape := AbstractFourierVoxelGrid.padded_shape real_voxel_grid pad_scale in
  length padded_shape = ndim real_voxel_grid
  /\ Forall2 (fun s t => (Z.of_nat s <= t)%Z) (shape real_voxel_grid) padded_shape
  /\ (forall k : nat, pad_scale = q_of_nat k ->
      padded_shape = map (fun s => Z.of_nat (k * s)) (shape real_voxel_grid))
  /\ (pad_scale = 1%Qc -> padded_shape = map Z.of_nat (shape real_voxel_grid)).
Proof.
  intros padded_shape. unfold padded_shape, AbstractFourierVoxelGrid.padded_shape.
  split; [apply length_map|]. split; [|split].
  - induction (shape real_voxel_grid) as [|s sh IH]; cbn [map]; constructor; auto.
    now apply scaled_extent.
  - intros k Hk. apply map_ext. intros s. now apply scaled_extent.
  - intros H1. apply map_ext. intros s.
    rewrite (proj2 (proj2 (scaled_extent s pad_scale)) 1).
    + f_equal. lia.
    + rewrite H1. symmetry. apply q_of_Z_1.
Qed.

Lemma padding_never_shrinks_the_grid_witness :
  let real_voxel_grid := full [3; 4; 5] 0%Qc in
  (1 <= q_frac 3 2)%Qc
  /\ AbstractFourierVoxelGrid.padded_shape real_voxel_grid (q_frac 3 2) = [4; 6; 7]%Z
  /\ Forall2 (fun s t => (Z.of_nat s <= t)%Z) (shape real_voxel_grid)
       (AbstractFourierVoxelGrid.padded_shape real_voxel_grid (q_frac 3 2)).
Proof.
  intros real_voxel_grid.
  assert (Hp : (1 <= q_frac 3 2)%Qc) by (apply qle_iff; reflexivity).
  split; [exact Hp|]. split; [vm_compute; reflexivity|].
  exact (proj1 (proj2 (@padding_never_shrinks_the_grid real_voxel_grid (q_frac 3 2) Hp))).
Defined.

(** Cropping a grid of shape [(a, b, d)] when no coordinate grid is
    given: every [crop_scale <= 1] is accepted; the grid is transposed
    first, so the cropped shape is [int(b * crop_scale)],
    [int(a * crop_scale)], [int(d * crop_scale)]; its extents lie between
    0 and those of the transposed grid when [crop_scale] is not negative,
    and [crop_scale = 1] keeps them; the coordinate grid is made for the
    shape of the cropped grid. *)
Theorem cropping_follows_the_transposed_grid {C : Collaborators}
    (real_voxel_grid : ndarray Qc) (voxel_size crop_scale : Qc) (a b d : nat)
    (Hshape : shape real_voxel_grid = [a; b; d]) (Hc : (crop_scale <= 1)%Qc) :
  let transposed := transpose real_voxel_grid [1; 0; 2] in
  let cropped_shape :=
    map (fun s => py_int (q_of_nat s * crop_scale)%Qc) [b; a; d] in
  let cropped := crop_to_shape transposed cropped_shape in
  RealVoxelGrid.from_real_voxel_grid real_voxel_grid voxel_size None (Some crop_scale)
  = Ok (RealVoxelGrid.make cropped (new_CoordinateGrid (last3 (shape cropped)))
          voxel_size)
  /\ ((0 <= crop_scale)%Qc ->
      Forall2 (fun s t => (0 <= t <= Z.of_nat s)%Z) [b; a; d] cropped_shape)
  /\ (crop_scale = 1%Qc -> cropped_shape = map Z.of_nat [b; a; d]).
Proof.
  intros transposed cropped_shape cropped.
  split; [|split].
  - rewrite real_from_real_voxel_grid_no_grid.
    assert (E : qlt 1%Qc crop_scale = false) by now apply qlt_false_iff.
    rewrite E. cbv zeta.
    assert (Es : last3 (shape (transpose real_voxel_grid [1; 0; 2])) = [b; a; d]).
    { unfold transpose. simpl. now rewrite Hshape. }
    rewrite Es. reflexivity.
  - intros H0. unfold cropped_shape.
    repeat constructor; now apply scaled_extent.
  - intros H1. unfold cropped_shape. apply map_ext. intros s.
    rewrite (proj2 (proj2 (scaled_extent s crop_scale)) 1).
    + f_equal. lia.
    + rewrite H1. symmetry. apply q_of_Z_1.
Qed.

Lemma cropping_follows_the_transposed_grid_witness :
  let C := sample_collaborators in
  let real_voxel_grid := full [2; 4; 6] 1%Qc in
  (shape real_voxel_grid = [2; 4; 6] /\ (q_frac 1 2 <= 1)%Qc)
  /\ exists obj,
       RealVoxelGrid.from_real_voxel_grid real_voxel_grid 1%Qc None (Some (q_frac 1 2))
       = Ok obj
       /\ RealVoxelGrid.shape obj = [2; 1; 3].
Proof.
  intros C real_voxel_grid.
  assert (Hshape : shape real_voxel_grid = [2; 4; 6]) by reflexivity.
  assert (Hc : (q_frac 1 2 <= 1)%Qc) by (apply qle_iff; reflexivity).
  split; [exact (conj Hshape Hc)|].
  eexists. split.
  - exact (proj1 (@cropping_follows_the_transposed_grid C real_voxel_grid 1%Qc
                    (q_frac 1 2) 2 4 6 Hshape Hc)).
  - reflexivity.
Defined.

(** ** The voxel cloud in general *)

Lemma filter_map_swap {A B} (h : B -> bool) (g : A -> B) (l : list A) :
  filter h (map g l) = map g (filter (fun a => h (g a)) l).
Proof.
  induction l as [|a l IH]; simpl; [reflexivity|].
  destruct (h (g a)); simpl; now rewrite IH.
Qed.

(** Gathering whole index tuples: one element per tuple. *)
Lemma take_all_axes {A} `{Default A} (x : ndarray A) (nonzero : list (list nat)) :
  take (ndim x) x nonzero = mk_ndarray [length nonzero] (map (get x) nonzero).
Proof.
  unfold take, ndim. rewrite skipn_all. f_equal.
  induction nonzero as [|idx l IH]; [reflexivity|].
  cbn [flat_map map indices app]. rewrite app_nil_r. f_equal. exact IH.
Qed.

Lemma isclose_zero_any_rtol (v rtol rtol' atol : Qc) :
  isclose v 0%Qc rtol atol = isclose v 0%Qc rtol' atol.
Proof.
  unfold isclose.
  replace (atol + rtol * Qcabs 0)%Qc with (atol + rtol' * Qcabs 0)%Qc; [reflexivity|].
  rewrite Qcabs_pos by apply Qcle_refl. ring.
Qed.

(** The test for a negligible voxel compares with zero, so [rtol] plays
    no part: the cloud made from a grid is the same for every [rtol]. *)
Theorem cloud_does_not_depend_on_rtol {C : Collaborators}
    (real_voxel_grid : ndarray Qc) (voxel_size : Qc)
    (coordinate_grid : option CoordinateGrid.t) (rtol rtol' atol : Qc) :
  RealVoxelCloud.from_real_voxel_grid real_voxel_grid voxel_size coordinate_grid
    rtol atol
  = RealVoxelCloud.from_real_voxel_grid real_voxel_grid voxel_size coordinate_grid
      rtol' atol.
Proof.
  unfold RealVoxelCloud.from_real_voxel_grid.
  assert (E : amap (fun v => negb (isclose v 0%Qc rtol atol))
                   (transpose real_voxel_grid [1; 0; 2])
              = amap (fun v => negb (isclose v 0%Qc rtol' atol))
                     (transpose real_voxel_grid [1; 0; 2])).
  { apply amap_ext. intros v. f_equal. apply isclose_zero_any_rtol. }
  now rewrite E.
Qed.

(** The cloud made from a grid of shape [(a, b, d)]: its weights are the
    voxels of the transposed grid whose magnitude exceeds [atol], in
    row-major order; and the coordinate list has one row per weight. *)
Theorem cloud_holds_the_voxels_above_atol_in_order {C : Collaborators}
    (real_voxel_grid : ndarray Qc) (voxel_size : Qc)
    (coordinate_grid : option CoordinateGrid.t) (rtol atol : Qc) (a b d : nat)
    (Hshape : shape real_voxel_grid = [a; b; d]) :
  let transposed := transpose real_voxel_grid [1; 0; 2] in
  let cloud :=
    RealVoxelCloud.from_real_voxel_grid real_voxel_grid voxel_size coordinate_grid
      rtol atol in
  let weights := data (RealVoxelCloud.voxel_weights cloud) in
  weights = filter (fun v => negb (qle (Qcabs v) atol)) (data transposed)
  /\ Forall (fun v => (atol < Qcabs v)%Qc) weights
  /\ RealVoxelCloud.shape cloud = [length weights]
  /\ hd 0 (shape (CoordinateList.array (RealVoxelCloud.coordinate_list cloud)))
     = length weights.
Proof.
  intros transposed cloud weights.
  assert (Es : shape transposed = [b; a; d]).
  { unfold transposed, transpose. simpl. now rewrite Hshape. }
  assert (Hnd : ndim transposed = 3) by (unfold ndim; now rewrite Es).
  set (g := fun idx => get real_voxel_grid (source_index [1; 0; 2] idx)).
  set (h := fun v : Qc => negb (isclose v 0%Qc rtol atol)).
  set (nonzero := filter (fun idx => h (g idx)) (indices [b; a; d])).
  assert (Hdata : data transposed = map g (indices [b; a; d])).
  { unfold transposed, transpose, tabulate. simpl. now rewrite Hshape. }
  assert (Hcloud : RealVoxelCloud.voxel_weights cloud
                   = mk_ndarray [length nonzero] (map (get transposed) nonzero)
                   /\ hd 0 (shape (CoordinateList.array
                                      (RealVoxelCloud.coordinate_list cloud)))
                      = length nonzero).
  { unfold cloud. rewrite (@cloud_unfold C _ _ _ _ _ a b d Hshape). cbv zeta.
    cbn [RealVoxelCloud.voxel_weights RealVoxelCloud.coordinate_list
         CoordinateList.array].
    fold transposed. fold g. fold h. fold nonzero. split; [|reflexivity].
    rewrite <- Hnd. apply take_all_axes. }
  destruct Hcloud as [Hvw Hcl].
  assert (Hw : weights = map g nonzero).
  { unfold weights. rewrite Hvw. cbn [data]. apply map_ext_in. intros idx Hin.
    apply filter_In in Hin as [Hin _]. apply in_bounds_indices in Hin.
    unfold transposed, transpose. rewrite Hshape.
    change (permute_shape [1; 0; 2] [a; b; d]) with [b; a; d].
    now rewrite get_tabulate. }
  assert (Hh : forall v, h v = negb (qle (Qcabs v) atol)).
  { intros v. unfold h. f_equal.
    destruct (isclose v 0%Qc rtol atol) eqn:E.
    - apply isclose_zero in E. symmetry. now apply qle_iff.
    - destruct (qle (Qcabs v) atol) eqn:E'; [|reflexivity].
      apply qle_iff in E'. apply isclose_zero with (rtol := rtol) in E'. congruence. }
  assert (Hfilter : weights
                    = filter (fun v => negb (qle (Qcabs v) atol)) (data transposed)).
  { rewrite Hw, Hdata, filter_map_swap. f_equal. apply filter_ext.
    intros idx. apply Hh. }
  assert (Hlen : length weights = length nonzero) by (rewrite Hw; apply length_map).
  split; [exact Hfilter|]. split; [|split].
  - rewrite Hfilter. apply Forall_forall. intros v Hv.
    apply filter_In in Hv as [_ Hv]. now apply qlt_iff.
  - unfold RealVoxelCloud.shape. rewrite Hvw, Hlen. reflexivity.
  - now rewrite Hcl, Hlen.
Qed.

Lemma cloud_holds_the_voxels_above_atol_in_order_witness :
  let C := sample_collaborators in
  let real_voxel_grid :=
    mk_ndarray [1; 2; 2] [q_of_nat 5; 0%Qc; q_frac 1 1000000000; q_of_nat 7] in
  shape real_voxel_grid = [1; 2; 2]
  /\ data (RealVoxelCloud.voxel_weights
             (RealVoxelCloud.from_real_voxel_grid real_voxel_grid 1%Qc None
                RealVoxelCloud.default_rtol RealVoxelCloud.default_atol))
     = [q_of_nat 5; q_of_nat 7].
Proof.
  intros C real_voxel_grid.
  assert (Hshape : shape real_voxel_grid = [1; 2; 2]) by reflexivity.
  split; [exact Hshape|].
  rewrite (proj1 (@cloud_holds_the_voxels_above_atol_in_order C real_voxel_grid 1%Qc
                    None RealVoxelCloud.default_rtol RealVoxelCloud.default_atol
                    1 2 2 Hshape)).
  vm_compute. reflexivity.
Defined.

(** ** The rasterised potential: sign and size *)

Lemma fold_left_Rplus (l : list R) (a : R) :
  fold_left Rplus l a = (a + rsum l)%R.
Proof.
  unfold rsum. revert a. induction l as [|x l IH]; intros a; simpl; [lra|].
  rewrite (IH (a + x)%R), (IH (0 + x)%R). lra.
Qed.

Lemma rsum_cons (x : R) (l : list R) : rsum (x :: l) = (x + rsum l)%R.
Proof. unfold rsum at 1. simpl. rewrite fold_left_Rplus. lra. Qed.

Lemma rsum_bounds {A} (f lo hi : A -> R) (l : list A) :
  (forall a, In a l -> (lo a <= f a <= hi a)%R) ->
  (rsum (map lo l) <= rsum (map f l) <= rsum (map hi l))%R.
Proof.
  induction l as [|a l IH]; intros Hf; cbn [map].
  - unfold rsum. simpl. lra.
  - rewrite !rsum_cons.
    pose proof (Hf a (or_introl eq_refl)) as Ha.
    assert (Hl : forall x, In x l -> (lo x <= f x <= hi x)%R)
      by (intros x Hx; apply Hf; now right).
    specialize (IH Hl). lra.
Qed.

Lemma rsum_zeros {A} (l : list A) : rsum (map (fun _ => 0%R) l) = 0%R.
Proof.
  induction l as [|a l IH]; cbn [map]; [reflexivity|].
  rewrite rsum_cons, IH. lra.
Qed.

(** One Gaussian term lies between zero and its peak, which it takes
    where the grid point is the centre. *)
Lemma gaussian_term_bounds (a b : R) (x p : list R) :
  (0 <= a)%R -> (0 < b)%R ->
  (0 <= gaussian_term a b x p <= a * Rpower (4 * PI / b) (3 / 2))%R
  /\ (squared_distance x p = 0%R ->
      gaussian_term a b x p = (a * Rpower (4 * PI / b) (3 / 2))%R).
Proof.
  intros Ha Hb. unfold gaussian_term.
  pose proof PI_RGT_0 as Hpi.
  assert (Hbi : (0 < 4 * PI / b)%R).
  { apply Rdiv_lt_0_compat; lra. }
  assert (Hd : (0 <= squared_distance x p)%R).
  { unfold squared_distance.
    pose proof (pow2_ge_0 (nth 0 x 0 - nth 0 p 0)%R).
    pose proof (pow2_ge_0 (nth 1 x 0 - nth 1 p 0)%R).
    pose proof (pow2_ge_0 (nth 2 x 0 - nth 2 p 0)%R). lra. }
  assert (Hpow : (0 < Rpower (4 * PI / b) (3 / 2))%R) by apply exp_pos.
  set (P := Rpower (4 * PI / b) (3 / 2)) in *.
  set (e := (- PI * (4 * PI / b) * squared_distance x p)%R).
  assert (He0 : (0 < exp e)%R) by apply exp_pos.
  assert (He1 : (exp e <= 1)%R).
  { rewrite <- exp_0.
    assert (Hle : (e <= 0)%R).
    { unfold e.
      assert (0 <= PI * (4 * PI / b) * squared_distance x p)%R.
      { apply Rmult_le_pos; [|exact Hd]. apply Rmult_le_pos; lra. }
      lra. }
    destruct Hle as [Hlt | Heq]; [left; now apply exp_increasing | rewrite Heq; lra]. }
  assert (HaP : (0 <= a * P)%R) by (apply Rmult_le_pos; lra).
  split; [split|].
  - apply Rmult_le_pos; lra.
  - rewrite <- (Rmult_1_r (a * P)) at 2. apply Rmult_le_compat_l; lra.
  - intros H0. unfold e. rewrite H0, Rmult_0_r, exp_0. lra.
Qed.

(** A Gaussian evaluated on a grid, for [a >= 0] and [b > 0]: every
    value lies between zero and the peak [a * (4 pi / b)^(3/2)], and the
    peak is taken at a grid point that coincides with the centre. *)
Theorem gaussian_lies_between_zero_and_its_peak (grid : ndarray R)
    (sh : list nat) (atom_position : list R) (a b : R) (idx : list nat)
    (Hgrid : shape grid = sh ++ [3]) (Hidx : in_bounds sh idx = true)
    (Ha : (0 <= a)%R) (Hb : (0 < b)%R) :
  let value := get (evaluate_3d_real_space_gaussian grid atom_position a b) idx in
  let peak := (a * Rpower (4 * PI / b) (3 / 2))%R in
  shape (evaluate_3d_real_space_gaussian grid atom_position a b) = sh
  /\ (0 <= value <= peak)%R
  /\ (squared_distance (grid_point grid idx) atom_position = 0%R -> value = peak).
Proof.
  intros value peak.
  split; [apply (@shape_gaussian grid sh Hgrid)|].
  unfold value. rewrite (@get_gaussian grid sh Hgrid) by exact Hidx.
  now apply gaussian_term_bounds.
Qed.

Lemma gaussian_lies_between_zero_and_its_peak_witness :
  let grid := mk_ndarray [1; 1; 1; 3] [1%R; 2%R; 3%R] in
  (shape grid = [1; 1; 1] ++ [3] /\ in_bounds [1; 1; 1] [0; 0; 0] = true
   /\ (0 <= 2)%R /\ (0 < 1)%R)
  /\ get (evaluate_3d_real_space_gaussian grid [1%R; 2%R; 3%R] 2 1) [0; 0; 0]
     = (2 * Rpower (4 * PI / 1) (3 / 2))%R.
Proof.
  intros grid.
  assert (Hgrid : shape grid = [1; 1; 1] ++ [3]) by reflexivity.
  assert (Hidx : in_bounds [1; 1; 1] [0; 0; 0] = true) by reflexivity.
  assert (Ha : (0 <= 2)%R) by lra.
  assert (Hb : (0 < 1)%R) by lra.
  split; [exact (conj Hgrid (conj Hidx (conj Ha Hb)))|].
  apply (proj2 (proj2 (@gaussian_lies_between_zero_and_its_peak grid [1; 1; 1]
                         [1%R; 2%R; 3%R] 2 1 [0; 0; 0] Hgrid Hidx Ha Hb))).
  unfold squared_distance, grid_point, get. simpl. lra.
Defined.

(** The voxel built at a grid point. *)
Lemma build_real_space_voxels_at (atom_positions ff_a ff_b grid : ndarray R)
    (n1 n2 n3 N : nat) (idx : list nat) :
  shape grid = [n1; n2; n3; 3] -> shape atom_positions = [N; 3] ->
  wf ff_a -> shape ff_a = [N; 5] -> wf ff_b -> shape ff_b = [N; 5] ->
  in_bounds [n1; n2; n3] idx = true ->
  get (build_real_space_voxels_from_atoms atom_positions ff_a ff_b grid) idx
  = potential_at atom_positions ff_a ff_b (grid_point grid idx).
Proof.
  intros Hgrid Hpos Hwa Ha Hwb Hb Hidx.
  set (atom := fun i =>
    evaluate_3d_atom_potential grid (row atom_positions i) (row ff_a i) (row ff_b i)).
  assert (Hg : shape grid = [n1; n2; n3] ++ [3]) by exact Hgrid.
  assert (Hbuild :
    build_real_space_voxels_from_atoms atom_positions ff_a ff_b grid
    = fold_left (azip Rplus) (map atom (seq 0 N)) (full [n1; n2; n3] 0%R)).
  { unfold build_real_space_voxels_from_atoms, fori_loop.
    rewrite Hpos, Hgrid. simpl nth. rewrite Nat.sub_0_r.
    change (removelast [n1; n2; n3; 3]) with [n1; n2; n3].
    apply fold_left_map_r. }
  assert (Hatom : forall i, i < N ->
    wf (atom i) /\ shape (atom i) = [n1; n2; n3]
    /\ get (atom i) idx
       = atom_potential_at (row ff_a i) (row ff_b i) (grid_point grid idx)
           (row atom_positions i)).
  { intros i Hi. unfold atom.
    apply (@get_atom_potential grid [n1; n2; n3] Hg
             (row atom_positions i) (row ff_a i) (row ff_b i) idx).
    - now apply (length_row Hwa Ha).
    - now apply (length_row Hwb Hb).
    - exact Hidx. }
  rewrite Hbuild.
  destruct (@get_fold_azip [n1; n2; n3] (map atom (seq 0 N))
              (full [n1; n2; n3] 0%R) idx) as (_ & _ & Hget).
  - apply wf_full.
  - reflexivity.
  - apply Forall_forall. intros x Hx.
    apply in_map_iff in Hx as (i & <- & Hi). apply in_seq in Hi.
    destruct (Hatom i ltac:(lia)) as (Hw & Hs & _). now split.
  - exact Hidx.
  - rewrite Hget, get_full by exact Hidx.
    unfold potential_at, rsum. rewrite Hpos. simpl nth.
    f_equal. rewrite map_map. apply map_ext_in.
    intros i Hi. apply in_seq in Hi. apply Hatom. lia.
Qed.

(** With form factors [a >= 0] and [b > 0] the grid built from atoms is
    nowhere negative, and no voxel exceeds the sum of the peaks of all
    the Gaussian terms. *)
Theorem built_potential_is_nonnegative (atom_positions ff_a ff_b grid : ndarray R)
    (n1 n2 n3 N : nat) (idx : list nat)
    (Hgrid : shape grid = [n1; n2; n3; 3])
    (Hpos : shape atom_positions = [N; 3])
    (Hwa : wf ff_a) (Ha : shape ff_a = [N; 5])
    (Hwb : wf ff_b) (Hb : shape ff_b = [N; 5])
    (Hidx : in_bounds [n1; n2; n3] idx = true)
    (Hsign : forall i t, i < N -> t < 5 ->
               (0 <= nth t (row ff_a i) 0)%R /\ (0 < nth t (row ff_b i) 0)%R) :
  let voxel :=
    get (build_real_space_voxels_from_atoms atom_positions ff_a ff_b grid) idx in
  let peak := fun i t =>
    (nth t (row ff_a i) 0 * Rpower (4 * PI / nth t (row ff_b i) 0) (3 / 2))%R in
  (0 <= voxel)%R
  /\ (voxel <= rsum (map (fun i => rsum (map (peak i) (seq 0 5))) (seq 0 N)))%R.
Proof.
  intros voxel peak. unfold voxel.
  rewrite (@build_real_space_voxels_at atom_positions ff_a ff_b grid n1 n2 n3 N idx)
    by assumption.
  unfold potential_at. rewrite Hpos. simpl nth.
  assert (Hatom : forall i, In i (seq 0 N) ->
    (0 <= atom_potential_at (row ff_a i) (row ff_b i) (grid_point grid idx)
            (row atom_positions i)
     <= rsum (map (peak i) (seq 0 5)))%R).
  { intros i Hi. apply in_seq in Hi. unfold atom_potential_at.
    rewrite <- (rsum_zeros (seq 0 5)) at 1.
    apply rsum_bounds. intros t Ht. apply in_seq in Ht.
    destruct (Hsign i t ltac:(lia) ltac:(lia)) as [H0 H1].
    apply gaussian_term_bounds; assumption. }
  rewrite <- (rsum_zeros (seq 0 N)) at 1.
  apply (rsum_bounds _ (fun _ => 0%R) _ _ Hatom).
Qed.

Lemma built_potential_is_nonnegative_witness :
  let grid := mk_ndarray [1; 1; 1; 3] [0%R; 0%R; 0%R] in
  let atom_positions := mk_ndarray [1; 3] [1%R; 0%R; 0%R] in
  let ff := mk_ndarray [1; 5] [1%R; 1%R; 1%R; 1%R; 1%R] in
  (shape grid = [1; 1; 1; 3] /\ shape atom_positions = [1; 3]
   /\ wf ff /\ shape ff = [1; 5] /\ in_bounds [1; 1; 1] [0; 0; 0] = true
   /\ forall i t, i < 1 -> t < 5 ->
        (0 <= nth t (row ff i) 0)%R /\ (0 < nth t (row ff i) 0)%R)
  /\ (0 <= get (build_real_space_voxels_from_atoms atom_positions ff ff grid)
             [0%nat; 0%nat; 0%nat])%R.
Proof.
  intros grid atom_positions ff.
  assert (Hsign : forall i t, i < 1 -> t < 5 ->
            (0 <= nth t (row ff i) 0)%R /\ (0 < nth t (row ff i) 0)%R).
  { intros i t Hi Ht. assert (i = 0) as -> by lia.
    destruct t as [|[|[|[|[|t]]]]]; try lia; simpl; lra. }
  split; [repeat split; try reflexivity; apply Hsign; assumption|].
  exact (proj1 (@built_potential_is_nonnegative atom_positions ff ff grid 1 1 1 1
                  [0; 0; 0] eq_refl eq_refl eq_refl eq_refl eq_refl eq_refl eq_refl
                  Hsign)).
Defined.

(** ** The Fourier helpers *)

Lemma amap_id {A} (x : ndarray A) : amap (fun a => a) x = x.
Proof. destruct x as [sh dt]. unfold amap. simpl. now rewrite map_id. Qed.

Lemma half_of_double (x : Qc) : (q_frac 1 2 * (x + x) = x)%Qc.
Proof.
  transitivity ((q_frac 1 2 + q_frac 1 2) * x)%Qc; [ring|].
  replace (q_frac 1 2 + q_frac 1 2)%Qc with 1%Qc by (apply Qc_is_canon; reflexivity).
  ring.
Qed.

(** The two-point transforms are inverse to each other, and so are the
    shifts. *)
Lemma sample_transforms_laws :
  (forall x, @jnp_fft_ifftn sample_transforms (@jnp_fft_fftn sample_transforms x) = x)
  /\ (forall x, @jnp_fft_fftn sample_transforms (@jnp_fft_ifftn sample_transforms x) = x)
  /\ (forall x, @jnp_fft_fftshift sample_transforms
                  (@jnp_fft_ifftshift sample_transforms x) = x)
  /\ (forall x, @jnp_fft_ifftshift sample_transforms
                  (@jnp_fft_fftshift sample_transforms x) = x).
Proof.
  assert (H1 : forall p q : Qc, (q_frac 1 2 * (p + q + (p - q)) = p)%Qc).
  { intros p q. transitivity (q_frac 1 2 * (p + p))%Qc;
      [f_equal; ring | apply half_of_double]. }
  assert (H2 : forall p q : Qc, (q_frac 1 2 * (p + q - (p - q)) = q)%Qc).
  { intros p q. transitivity (q_frac 1 2 * (q + q))%Qc;
      [f_equal; ring | apply half_of_double]. }
  assert (H3 : forall p q : Qc, (q_frac 1 2 * (p + q) + q_frac 1 2 * (p - q) = p)%Qc).
  { intros p q. transitivity (q_frac 1 2 * (p + p))%Qc;
      [ring | apply half_of_double]. }
  assert (H4 : forall p q : Qc, (q_frac 1 2 * (p + q) - q_frac 1 2 * (p - q) = q)%Qc).
  { intros p q. transitivity (q_frac 1 2 * (q + q))%Qc;
      [ring | apply half_of_double]. }
  repeat split; intros [sh [|[a1 a2] [|[b1 b2] [|c l]]]]; try reflexivity;
    unfold jnp_fft_ifftn, jnp_fft_fftn, jnp_fft_fftshift, jnp_fft_ifftshift,
           sample_transforms, on_pair, chalf, cadd, csub;
    cbn [data shape fst snd]; rewrite ?H1, ?H2, ?H3, ?H4; reflexivity.
Qed.

(** [fft] and [ifft] undo each other, given that [jnp.fft.fftn] and
    [jnp.fft.ifftn] are inverse to each other and so are
    [jnp.fft.fftshift] and [jnp.fft.ifftshift]; and [irfft] of the
    transform of a real array gives the array back. *)
Theorem fft_and_ifft_undo_each_other {T : FourierTransforms}
    (Hinv : forall x, jnp_fft_ifftn (jnp_fft_fftn x) = x)
    (Hinv' : forall x, jnp_fft_fftn (jnp_fft_ifftn x) = x)
    (Hshift : forall x, jnp_fft_fftshift (jnp_fft_ifftshift x) = x)
    (Hshift' : forall x, jnp_fft_ifftshift (jnp_fft_fftshift x) = x) :
  (forall x, fourier.ifft (fourier.fft x) false = fourier.Complex_output x)
  /\ (forall y, exists c,
        fourier.ifft y false = fourier.Complex_output c /\ fourier.fft c = y)
  /\ (forall x : ndarray Qc,
        fourier.irfft (fourier.fft (amap (fun v => (v, 0%Qc)) x))
        = fourier.Real_output x)
  /\ (forall y, exists c,
        fourier.ifft y false = fourier.Complex_output c
        /\ fourier.irfft y = fourier.Real_output (amap fst c)).
Proof.
  unfold fourier.irfft, fourier.ifft, fourier.fft. cbv zeta.
  split; [|split; [|split]].
  - intros x. now rewrite Hinv, Hshift.
  - intros y. eexists. split; [reflexivity|]. now rewrite Hshift', Hinv'.
  - intros x. rewrite Hinv, Hshift, amap_amap. cbn [fst]. now rewrite amap_id.
  - intros y. eexists. split; reflexivity.
Qed.

Lemma fft_and_ifft_undo_each_other_witness :
  let T := sample_transforms in
  let x := mk_ndarray [2] [(q_of_nat 3, 0%Qc); (q_of_nat 5, 1%Qc)] in
  ((forall x, jnp_fft_ifftn (jnp_fft_fftn x) = x)
   /\ (forall x, jnp_fft_fftn (jnp_fft_ifftn x) = x)
   /\ (forall x, jnp_fft_fftshift (jnp_fft_ifftshift x) = x)
   /\ (forall x, jnp_fft_ifftshift (jnp_fft_fftshift x) = x))
  /\ fourier.fft x = mk_ndarray [2] [(q_of_nat 8, 1%Qc); (q_of_nat 2, 1%Qc)]
  /\ fourier.ifft (fourier.fft x) false = fourier.Complex_output x.
Proof.
  intros T x.
  destruct sample_transforms_laws as (H1 & H2 & H3 & H4).
  split; [exact (conj H1 (conj H2 (conj H3 H4)))|].
  split; [vm_compute; reflexivity|].
  exact (proj1 (@fft_and_ifft_undo_each_other T H1 H2 H3 H4) x).
Defined.

(** ** The ensemble *)

Lemma lax_switch_clamps {A} (f : nat -> A) (n : nat) (index : Z) :
  1 <= n ->
  lax_switch index (map (fun i => fun _ : unit => f i) (seq 0 n))
  = Ok (f (Z.to_nat (Z.max 0 (Z.min index (Z.of_nat n - 1))))).
Proof.
  intros Hn. destruct n as [|n]; [lia|].
  unfold lax_switch. cbn [seq map]. f_equal.
  change ((fun _ : unit => f 0) :: map (fun i => fun _ : unit => f i) (seq 1 n))
    with (map (fun i => fun _ : unit => f i) (seq 0 (S n))).
  rewrite length_map, length_seq.
  set (k := Z.to_nat (Z.max 0 (Z.min index (Z.of_nat (S n) - 1)))).
  assert (Hk : k < S n) by (unfold k; lia).
  rewrite (nth_map_in_range _ _ 0) by now rewrite length_seq.
  now rewrite seq_nth.
Qed.

(** An [Ensemble] is constructed unless a conformation is set on a
    density whose [n_stacked_dims] is not 1, in which case a
    [ValueError] is raised; the pose defaults to [EulerPose()].  Without
    a conformation the density at the configured pose is the whole
    density rotated to the pose; with a conformation [c] over a stack of
    [n >= 1] densities it is the density at index [c] clamped to
    [0 .. n - 1], rotated to the pose. *)
Theorem ensemble_selects_and_rotates {D P : Type} `{ElectronDensity D P}
    (EulerPose : P) (density : D) (pose : option P)
    (conformation : option Conformation.t) :
  let made := Ensemble.new EulerPose density pose conformation in
  let self := Ensemble.make density
                (match pose with Some p => p | None => EulerPose end) conformation in
  (made = Raise ValueError
   <-> n_stacked_dims density <> 1%Z /\ conformation <> None)
  /\ (made <> Raise ValueError -> made = Ok self)
  /\ (conformation = None ->
      Ensemble.density_at_conformation_and_pose self
      = Ok (density_rotate_to_pose density (Ensemble.pose self)))
  /\ (forall c, conformation = Some c -> 1 <= density_len density ->
      let i := Z.to_nat (Z.max 0 (Z.min (Conformation.get c)
                                        (Z.of_nat (density_len density) - 1))) in
      Ensemble.density_at_conformation_and_pose self
      = Ok (density_rotate_to_pose (density_getitem density i) (Ensemble.pose self))
      /\ ((0 <= Conformation.get c < Z.of_nat (density_len density))%Z ->
          i = Z.to_nat (Conformation.get c)))
  /\ (forall c, conformation = Some c -> density_len density = 0 ->
      Ensemble.density_at_conformation_and_pose self = Raise ValueError).
Proof.
  intros made self.
  assert (Hmade : made
                  = if (negb (n_stacked_dims density =? 1)%Z
                        && match conformation with Some _ => true | None => false end)%bool
                    then Raise ValueError else Ok self).
  { unfold made, Ensemble.new, Ensemble.__check_init__, Ensemble.__init__. cbv zeta.
    cbn [Ensemble.density Ensemble.conformation].
    destruct conformation as [c|]; destruct (n_stacked_dims density =? 1)%Z;
      reflexivity. }
  split; [|split; [|split; [|split]]].
  - rewrite Hmade. destruct (Z.eqb_spec (n_stacked_dims density) 1) as [E | E];
      destruct conformation as [c|]; cbn [negb andb]; split;
      try discriminate; try tauto; try (intros [H1 H2]; congruence).
    intros _. split; [exact E | discriminate].
  - rewrite Hmade.
    destruct (negb (n_stacked_dims density =? 1)%Z
              && match conformation with Some _ => true | None => false end)%bool;
      [intros Hne; now elim Hne | reflexivity].
  - intros ->. reflexivity.
  - intros c -> Hn i. split.
    + unfold Ensemble.density_at_conformation_and_pose, self.
      cbn [Ensemble.conformation Ensemble.density Ensemble.pose].
      rewrite (lax_switch_clamps (density_getitem density) (Conformation.get c) Hn).
      reflexivity.
    + intros Hc. unfold i. f_equal. lia.
  - intros c -> Hn.
    unfold Ensemble.density_at_conformation_and_pose, self.
    cbn [Ensemble.conformation Ensemble.density Ensemble.pose].
    rewrite Hn. reflexivity.
Qed.

Lemma ensemble_selects_and_rotates_witness :
  let density := [10; 20; 30]%Z in
  let c := Conformation.make 7 in
  (1 <= @density_len _ _ sample_density density)
  /\ @Ensemble.new _ _ sample_density 0%Z density (Some 5%Z) (Some c)
     = Ok (Ensemble.make density 5%Z (Some c))
  /\ @Ensemble.density_at_conformation_and_pose _ _ sample_density
       (Ensemble.make density 5%Z (Some c))
     = Ok [35%Z].
Proof.
  intros density c.
  assert (Hn : 1 <= @density_len _ _ sample_density density) by (simpl; lia).
  split; [exact Hn|].
  pose proof (@ensemble_selects_and_rotates _ _ sample_density 0%Z density
                (Some 5%Z) (Some c)) as H.
  cbv zeta in H. destruct H as (_ & Hmade & _ & Hsel & _).
  split.
  - apply Hmade. discriminate.
  - rewrite (proj1 (Hsel c eq_refl Hn)). reflexivity.
Defined.

(** ** Order 3 on constant data *)

(** A system whose right-hand side is [v] times the sum of each row, the
    last row having no upper entry, is solved by the constant [v]: the
    elimination returns it. *)
Lemma thomas_constant (v : Qc) (rows : list (Qc * Qc * Qc * Qc)) :
  forall cp dp,
    pivots_nonzero cp rows ->
    Forall (fun r => match r with
                     | (l, b, u, y) => y = (v * (l + b + u))%Qc
                     end) rows ->
    match rows with
    | (l, _, _, _) :: _ => (l * dp = l * (v * (1 + cp)))%Qc
    | [] => True
    end ->
    match nth (length rows - 1) rows (0, 0, 0, 0)%Qc with
    | (_, _, u, _) => u = 0%Qc
    end ->
    thomas cp dp rows = map (fun _ => v) rows.
Proof.
  induction rows as [|[[[l b] u] y] rows IH]; intros cp dp Hp Hall Hhead Hlast;
    [reflexivity|].
  destruct Hp as [Hden Hp]. inversion Hall as [|? ? Hy Hrest]; subst.
  cbn [thomas map]. scalar_qc.
  set (den := (b - l * cp)%Qc) in *.
  set (c := (u / den)%Qc) in *.
  set (d := ((v * (l + b + u) - l * dp) / den)%Qc) in *.
  assert (Hd : d = (v * (1 + c))%Qc).
  { unfold d, c. rewrite Hhead. unfold den. field. exact Hden. }
  destruct rows as [|r rows'].
  - cbn [thomas map]. f_equal.
    cbn [length Nat.sub nth] in Hlast. rewrite Hd. unfold c. rewrite Hlast.
    unfold den. field. exact Hden.
  - rewrite (IH c d).
    + cbn [map]. f_equal. rewrite Hd. ring.
    + exact Hp.
    + exact Hrest.
    + destruct r as [[[l' b'] u'] y']. rewrite Hd. ring.
    + replace (length ((l, b, u, v * (l + b + u))%Qc :: r :: rows') - 1)
        with (S (length (r :: rows') - 1)) in Hlast by (cbn [length]; lia).
      exact Hlast.
Qed.

Lemma map_const_repeat {A B} (b : B) (l : list A) :
  map (fun _ => b) l = repeat b (length l).
Proof. induction l as [|a l IH]; simpl; [reflexivity | now rewrite IH]. Qed.

Lemma six_sixths (x : Qc) : (q_of_Z 6 * (q_frac 1 6 * x) = x)%Qc.
Proof.
  transitivity ((q_of_Z 6 * q_frac 1 6) * x)%Qc; [ring|].
  replace (q_of_Z 6 * q_frac 1 6)%Qc with 1%Qc by (apply Qc_is_canon; reflexivity).
  ring.
Qed.

(** The coefficients of constant one-dimensional data are constant, a
    sixth of the data. *)
Lemma solve_coefficients_constant (D : Qc) (n : nat) :
  4 <= n ->
  _solve_coefficients (repeat D n) (axis_operator n)
  = repeat (q_frac 1 6 * D)%Qc (n + 2).
Proof.
  intros H4. set (v := (q_frac 1 6 * D)%Qc).
  set (data := repeat D n).
  assert (Hn : length data = n) by apply repeat_length.
  assert (Hnth : forall j, j < n -> nth j data 0%Qc = D).
  { intros j Hj. unfold data. now apply nth_repeat_lt. }
  assert (H6 : (q_of_Z 6 * v = D)%Qc) by apply six_sixths.
  destruct q_of_Z_small as (E2 & E3 & E4 & E6).
  unfold _solve_coefficients. cbv zeta. scalar_qc.
  assert (Hd0 : item data 0 = D).
  { rewrite (item_nat data 0). apply Hnth. lia. }
  assert (Hd1 : item data (-1) = D).
  { change (-1)%Z with (- Z.of_nat 1)%Z. rewrite item_from_end by lia.
    rewrite Hn. apply Hnth. lia. }
  rewrite Hd0, Hd1. fold v.
  set (yvec := _construct_vector data v v).
  assert (Hy : length yvec = n - 2).
  { unfold yvec, _construct_vector. now rewrite !length_at_set, length_interior, Hn. }
  set (rows := rows_of (of_Qc 0%Qc :: lower_diagonal (axis_operator n))
                       (diagonal (axis_operator n))
                       (upper_diagonal (axis_operator n) ++ [of_Qc 0%Qc]) yvec).
  assert (Hlen : length rows = n - 2).
  { unfold rows. apply length_rows_of; unfold axis_operator; simpl;
      rewrite ?length_app, ?repeat_length; simpl; lia. }
  assert (Hrow : forall j, j < n - 2 ->
            nth j rows (0, 0, 0, 0)%Qc
            = (if Nat.eqb j 0 then 0%Qc else 1%Qc, q_of_Z 4,
               if Nat.eqb j (n - 3) then 0%Qc else 1%Qc,
               if Nat.eqb j (n - 3) then (D - v)%Qc
               else if Nat.eqb j 0 then (D - v)%Qc else D)).
  { intros j Hj. unfold rows. rewrite (@spline_rows n j yvec H4 Hy Hj).
    unfold yvec. rewrite (@nth_construct_vector data v v n j Hn H4 Hj).
    rewrite !Hnth by lia. reflexivity. }
  assert (Hsol : linear_solve (axis_operator n) yvec = repeat v (n - 2)).
  { unfold linear_solve. cbv zeta. scalar_qc. fold rows.
    rewrite (@thomas_constant v rows 0%Qc 0%Qc).
    - now rewrite map_const_repeat, Hlen.
    - apply spline_rows_pivots.
    - apply Forall_forall. intros r Hr.
      apply (In_nth _ _ (0, 0, 0, 0)%Qc) in Hr as (j & Hj & <-).
      rewrite Hlen in Hj. rewrite (Hrow j Hj).
      destruct (Nat.eqb j (n - 3)) eqn:Ea; destruct (Nat.eqb j 0) eqn:Eb;
        try (apply Nat.eqb_eq in Ea; apply Nat.eqb_eq in Eb; lia);
        rewrite <- H6, E4, E6; ring.
    - pose proof (Hrow 0 ltac:(lia)) as H0. clearbody rows.
      destruct rows as [|[[[l b] u] y] rows']; [exact I|].
      cbn [nth Nat.eqb] in H0. injection H0 as -> _ _ _. ring.
    - rewrite Hlen. replace (n - 2 - 1) with (n - 3) by lia.
      rewrite (Hrow (n - 3)) by lia. now rewrite Nat.eqb_refl. }
  rewrite Hsol.
  assert (Hi0 : item (repeat v (n - 2)) 0 = v).
  { rewrite (item_nat (repeat v (n - 2)) 0). apply nth_repeat_lt. lia. }
  assert (Hi1 : item (repeat v (n - 2)) (-1) = v).
  { change (-1)%Z with (- Z.of_nat 1)%Z.
    rewrite item_from_end by (rewrite repeat_length; lia).
    apply nth_repeat_lt. rewrite repeat_length. lia. }
  rewrite Hi0, Hi1.
  replace (q_of_Z 2 * v - v)%Qc with v by (rewrite E2; ring).
  change ([v; v] ++ repeat v (n - 2) ++ [v; v])
    with (repeat v 2 ++ repeat v (n - 2) ++ repeat v 2).
  rewrite <- !repeat_app. f_equal. lia.
Qed.

Lemma constant_after_step (sh : list nat) (D : Qc) (x : ndarray Qc) (i : nat) :
  Forall (fun n => 4 <= n) sh -> i < length sh ->
  constant_after sh D i x ->
  exists y, _spline_coefficients_axis (length sh) x i = Ok y
            /\ constant_after sh D (1 + i) y.
Proof.
  intros Hall Hi (Hwx & Hsx & Hval).
  destruct (coefficient_shape_step sh Hi) as (E1 & E2 & L1 & L2).
  set (a := length sh - i - 1) in *.
  assert (Ha : a < length sh) by (unfold a; lia).
  set (n := nth a sh 0) in *.
  assert (Hn : 4 <= n).
  { rewrite Forall_forall in Hall. apply Hall. apply nth_In. exact Ha. }
  set (pre := firstn a sh) in *.
  set (rest := map (fun s => s + 2) (skipn (S a) sh)) in *.
  rewrite E1 in Hsx.
  destruct (@spline_coefficients_axis_applies Qc _ _ x pre rest n ltac:(lia) Hsx)
    as (fn & Hfn & Happ).
  rewrite L1, L2 in Hfn.
  replace (a + 1 + i) with (length sh) in Hfn by (unfold a; lia).
  exists (fn x). split; [exact Hfn|].
  destruct (Happ x Hwx Hsx) as (Hw' & Hs' & Hget).
  split; [exact Hw'|]. split; [now rewrite E2|].
  intros idx Hidx. rewrite Hs' in Hidx.
  apply in_bounds_app_inv in Hidx as (p & r' & -> & Hp & Hr').
  destruct r' as [|j r]; [discriminate|].
  apply in_bounds_cons in Hr' as [Hj Hr].
  rewrite (Hget p j r Hp Hj Hr).
  set (w := (q_frac 1 6 ^ i * D)%Qc).
  assert (Hcol : map (fun t => get x (p ++ t :: r)) (seq 0 n) = repeat w n).
  { transitivity (map (fun _ : nat => w) (seq 0 n)).
    - apply map_ext_in. intros t Ht. apply in_seq in Ht.
      apply Hval. rewrite Hsx. apply in_bounds_app; [exact Hp|].
      apply in_bounds_cons. split; [lia | exact Hr].
    - now rewrite map_const_repeat, length_seq. }
  rewrite Hcol, solve_coefficients_constant by exact Hn.
  change (@default Qc Default_Qc) with 0%Qc.
  rewrite nth_repeat_lt by exact Hj.
  unfold w. cbn [Nat.add Qcpower]. ring.
Qed.

(** The coefficients of a constant grid are constant. *)
Lemma spline_coefficients_constant (sh : list nat) (D : Qc) :
  Forall (fun n => 4 <= n) sh ->
  exists coefficients,
    _spline_coefficients (full sh D) = Ok coefficients
    /\ shape coefficients = map (fun s => s + 2) sh
    /\ forall idx, in_bounds (shape coefficients) idx = true ->
         get coefficients idx = (q_frac 1 6 ^ length sh * D)%Qc.
Proof.
  intros Hall. unfold _spline_coefficients, ndim. cbn [shape full].
  destruct (@fold_result_steps _
              (fun x i => _spline_coefficients_axis (length sh) x i)
              (constant_after sh D) (length sh) (full sh D))
    as (y & Hy & _ & Hsy & Hval).
  - split; [apply wf_full|]. split.
    + unfold coefficient_shape.
      rewrite Nat.sub_0_r, firstn_all, skipn_all. simpl. now rewrite app_nil_r.
    + intros idx Hidx. rewrite get_full by exact Hidx. cbn [Qcpower]. ring.
  - intros i x Hi Hx. now apply constant_after_step.
  - exists y. split; [exact Hy|]. split; [|exact Hval].
    rewrite Hsy. unfold coefficient_shape. now rewrite Nat.sub_diag.
Qed.

(** The sum over the window of indices of the products of the basis
    values is [6] per axis. *)
Lemma spline_basis_partition (x : Qc) :
  qsum (map (fun k => _spline_basis (x - q_of_Z (k + floorZ x) + 1)%Qc)
            [0; 1; 2; 3]%Z)
  = q_of_Z 6.
Proof.
  destruct (floorZ_bounds x) as [Hlo Hhi].
  set (f := (x - q_of_Z (floorZ x))%Qc).
  assert (H0 : (0 <= f)%Qc) by (unfold f; qc2q; lra).
  assert (H1 : (f < 1)%Qc) by (unfold f; qc2q; lra).
  destruct (spline_basis_window H0 H1) as (B0 & B1 & B2 & B3).
  destruct q_of_Z_small as (E2 & E3 & E4 & E6).
  cbn [map]. rewrite !q_of_Z_add.
  replace (x - (q_of_Z 0 + q_of_Z (floorZ x)) + 1)%Qc with (f + 1)%Qc
    by (unfold f; rewrite q_of_Z_0; ring).
  replace (x - (q_of_Z 1 + q_of_Z (floorZ x)) + 1)%Qc with f
    by (unfold f; rewrite q_of_Z_1; ring).
  replace (x - (q_of_Z 2 + q_of_Z (floorZ x)) + 1)%Qc with (f - 1)%Qc
    by (unfold f; rewrite E2; ring).
  replace (x - (q_of_Z 3 + q_of_Z (floorZ x)) + 1)%Qc with (f - q_of_Z 2)%Qc
    by (unfold f; rewrite E2, E3; ring).
  rewrite B0, B1, B2, B3, !qsum_cons. change (qsum []) with 0%Qc.
  rewrite E3, E4, E6. cbn [Qcpower]. ring.
Qed.

Lemma spline_weights_sum (coordinate : list Qc) :
  qsum (map (fun index =>
               qprod (zip_with (fun x i => _spline_basis (x - q_of_Z i + 1)%Qc)
                               coordinate index))
            (product (map (fun x => map (fun k => (k + floorZ x)%Z) [0; 1; 2; 3]%Z)
                          coordinate)))
  = (q_of_Z 6 ^ length coordinate)%Qc.
Proof.
  induction coordinate as [|x xs IH].
  - cbn [map product zip_with length Qcpower]. unfold qsum, qprod. simpl. ring.
  - set (F := fun x : Qc => map (fun k => (k + floorZ x)%Z) [0; 1; 2; 3]%Z) in *.
    change (product (map F (x :: xs)))
      with (flat_map (fun a => map (cons a) (product (map F xs))) (F x)).
    set (P := product (map F xs)) in *. clearbody P.
    rewrite flat_map_concat_map, concat_map, map_map.
    rewrite <- flat_map_concat_map, qsum_flat_map.
    cbn [length Qcpower]. rewrite <- IH, <- (spline_basis_partition x).
    rewrite <- qsum_scale_r. unfold F. rewrite !map_map. f_equal.
    apply map_ext. intros k. rewrite map_map.
    rewrite <- qsum_scale. f_equal. apply map_ext. intros t.
    cbn [zip_with]. now rewrite qprod_cons.
Qed.

(** The spline at a point around which the coefficients gathered are all
    [c]. *)
Lemma spline_point_constant (coefficients : ndarray Qc) (c : Qc)
    (coordinate : list Qc) (mode : gather_mode) (cval : Qc) :
  (forall index,
     In index (product (map (fun x => map (fun k => (k + floorZ x)%Z) [0; 1; 2; 3]%Z)
                            coordinate)) ->
     gather_point coefficients index mode cval = c) ->
  _spline_point coefficients coordinate mode cval
  = (c * q_of_Z 6 ^ length coordinate)%Qc.
Proof.
  intros Hc. unfold _spline_point. cbv zeta. unfold _spline_value. cbv zeta.
  rewrite <- spline_weights_sum, <- qsum_scale. f_equal.
  apply map_ext_in. intros index Hin. now rewrite (Hc index Hin).
Qed.

Lemma gather_point_in_range {A} `{Default A} (x : ndarray A) (index : list Z)
    (mode : gather_mode) (fill_value : A) :
  Forall2 (fun n i => (0 <= i < Z.of_nat n)%Z) (shape x) index ->
  gather_point x index mode fill_value = get x (map Z.to_nat index)
  /\ in_bounds (shape x) (map Z.to_nat index) = true.
Proof.
  intros Hr.
  assert (Hb : in_bounds (shape x) (map Z.to_nat index) = true).
  { induction Hr as [|n i sh idx Hi Hr IH]; [reflexivity|].
    cbn [map]. apply in_bounds_cons. split; [lia | exact IH]. }
  split; [|exact Hb].
  rewrite <- (gather_point_in_bounds x _ mode fill_value Hb). f_equal.
  rewrite map_map. clear Hb.
  induction Hr as [|n i sh idx Hi Hr IH]; [reflexivity|].
  cbn [map]. rewrite Z2Nat.id by lia. now f_equal.
Qed.

Lemma floorZ_inside (n : nat) (x : Qc) :
  (0 <= x)%Qc -> (x < q_of_nat n - 1)%Qc ->
  (0 <= floorZ x)%Z /\ (floorZ x + 1 < Z.of_nat n)%Z.
Proof.
  intros H0 H1. destruct (floorZ_bounds x) as [Hlo Hhi]. split.
  - rewrite <- (floorZ_of_Z 0). apply floorZ_le. now rewrite q_of_Z_0.
  - assert (Hlt : (q_of_Z (floorZ x) < q_of_Z (Z.of_nat n - 1))%Qc).
    { apply Qcle_lt_trans with (y := x); [exact Hlo|].
      replace (q_of_Z (Z.of_nat n - 1)) with (q_of_nat n - 1)%Qc; [exact H1|].
      unfold q_of_nat. replace (Z.of_nat n - 1)%Z with (Z.of_nat n + -1)%Z by lia.
      rewrite q_of_Z_add. replace (q_of_Z (-1)) with (- (1))%Qc
        by (apply Qc_is_canon; reflexivity).
      ring. }
    unfold Qclt in Hlt. rewrite !this_q_of_Z in Hlt.
    rewrite <- Zlt_Qlt in Hlt. lia.
Qed.

(** Every index of the window around a point inside the grid is an index
    of the coefficients. *)
Lemma window_in_range (sh : list nat) (x : list Qc) (index : list Z) :
  inside sh x ->
  In index (product (map (fun x => map (fun k => (k + floorZ x)%Z) [0; 1; 2; 3]%Z) x)) ->
  Forall2 (fun n i => (0 <= i < Z.of_nat n)%Z) (map (fun s => s + 2) sh) index.
Proof.
  intros Hin Hindex. apply product_members in Hindex.
  revert index Hindex. induction Hin as [|n xi sh x [H0 H1] Hin IH];
    intros index Hindex; cbn [map] in *.
  - inversion Hindex. constructor.
  - inversion Hindex as [|i l index' ls Hi Hrest]; subst.
    constructor; [|now apply IH].
    destruct (@floorZ_inside n xi H0 H1) as [Hf0 Hf1].
    assert (Hi' : In i (map (fun k => (k + floorZ xi)%Z) [0; 1; 2; 3]%Z)) by exact Hi.
    apply in_map_iff in Hi' as (k & <- & Hk). cbn [In] in Hk. lia.
Qed.


Lemma sixths_power (d : nat) (D : Qc) :
  (q_frac 1 6 ^ d * D * q_of_Z 6 ^ d = D)%Qc.
Proof.
  induction d as [|d IH]; cbn [Qcpower]; [ring|].
  transitivity (q_of_Z 6 * (q_frac 1 6 * (q_frac 1 6 ^ d * D * q_of_Z 6 ^ d)))%Qc;
    [ring|].
  now rewrite IH, six_sixths.
Qed.

(** Order 3 reproduces constants inside the grid: on an input that holds
    the value [D] everywhere, with at least four samples along every
    axis, the value returned at every point whose coordinates lie in
    [0, n - 1) along each axis of extent [n] is [D], in both boundary
    modes and for every [cval]. *)
Theorem order3_reproduces_constants (sh : list nat) (D : Qc)
    (coordinates : list (ndarray Qc)) (S : list nat) (L : nat)
    (mode : gather_mode) (cval : Qc)
    (Hall : Forall (fun n => 4 <= n) sh)
    (Hlen : length coordinates = length sh) (Hne : coordinates <> [])
    (Hsame : same_shape S L coordinates)
    (Hin : forall p, p < L -> inside sh (point_at coordinates p)) :
  map_coordinates (full sh D) coordinates 3 mode cval
  = Ok (tab S L (fun _ => D)).
Proof.
  rewrite map_coordinates_order3 by exact Hlen.
  destruct (@spline_coefficients_constant sh D Hall) as (C & HC & Hs & Hval).
  unfold _cubic_spline. rewrite HC. cbn [bind].
  destruct coordinates as [|c0 rest]; [now elim Hne|].
  assert (Hc0 : shape c0 = S /\ length (data c0) = L) by now inversion Hsame.
  destruct Hc0 as [HS HL].
  cbv zeta. unfold tab, points_of. rewrite HS, HL, map_map. do 2 f_equal.
  apply map_ext_in. intros p Hp. apply in_seq in Hp.
  change (map (fun c => nth p (data c) 0%Qc) (c0 :: rest))
    with (point_at (c0 :: rest) p).
  assert (Hx : inside sh (point_at (c0 :: rest) p)) by (apply Hin; lia).
  set (x := point_at (c0 :: rest) p) in *.
  assert (Hd : length x = length sh).
  { symmetry. exact (Forall2_length Hx). }
  rewrite (@spline_point_constant C (q_frac 1 6 ^ length sh * D)%Qc x mode cval).
  - rewrite Hd. apply sixths_power.
  - intros index Hindex.
    pose proof (@window_in_range sh x index Hx Hindex) as Hr. rewrite <- Hs in Hr.
    destruct (@gather_point_in_range Qc _ C index mode cval Hr) as [-> Hb].
    now apply Hval.
Qed.

Lemma order3_reproduces_constants_witness :
  let sh := [4; 5] in
  let coordinates := [mk_ndarray [2] [q_frac 1 2; q_frac 5 2];
                      mk_ndarray [2] [q_frac 7 3; q_of_nat 0]] in
  (Forall (fun n => 4 <= n) sh /\ length coordinates = length sh
   /\ coordinates <> [] /\ same_shape [2] 2 coordinates
   /\ forall p, p < 2 -> inside sh (point_at coordinates p))
  /\ map_coordinates (full sh (q_frac 9 7)) coordinates 3 Fill default_cval
     = Ok (mk_ndarray [2] [q_frac 9 7; q_frac 9 7]).
Proof.
  intros sh coordinates.
  assert (Hall : Forall (fun n => 4 <= n) sh) by (repeat constructor).
  assert (Hlen : length coordinates = length sh) by reflexivity.
  assert (Hne : coordinates <> []) by discriminate.
  assert (Hsame : same_shape [2] 2 coordinates) by (repeat constructor).
  assert (Hin : forall p, p < 2 -> inside sh (point_at coordinates p)).
  { intros p Hp. destruct p as [|[|p]]; [| |lia];
      repeat constructor; vm_compute; (discriminate || reflexivity). }
  split; [exact (conj Hall (conj Hlen (conj Hne (conj Hsame Hin))))|].
  exact (@order3_reproduces_constants sh (q_frac 9 7) coordinates [2] 2
           Fill default_cval Hall Hlen Hne Hsame Hin).
Defined.
